(** * subtidy: the tokenizer, the parser and the layout engine of
      [subtidy/subtidy_lib.py], embedded as Rocq functions.

    A Python [str] is a list of characters.  Characters are the code points
    below 256, and the character classes ([isspace], [isalnum], the line
    boundaries of [splitlines]) are Python's on that range.  Exceptions are
    values of [exn]; a function that writes to a stream returns the text it
    wrote, and a function that mutates its argument returns the argument as
    the call leaves it. *)

From Stdlib Require Import Ascii String DecimalString.
From Stdlib Require Import Arith Bool Lia PeanoNat List.
Import ListNotations.

Open Scope string_scope.
Open Scope list_scope.
Open Scope nat_scope.

Definition str := list ascii.

Coercion list_ascii_of_string : string >-> list.

(** ** Python's string primitives *)

Definition code (c : ascii) : nat := nat_of_ascii c.

(** [str.isspace] for one character. *)
Definition isspace (c : ascii) : bool :=
  let n := code c in
  ((9 <=? n) && (n <=? 13)) || ((28 <=? n) && (n <=? 32))
  || (n =? 133) || (n =? 160).

(** [str.isalnum] for one character. *)
Definition isalnum (c : ascii) : bool :=
  let n := code c in
  ((48 <=? n) && (n <=? 57)) || ((65 <=? n) && (n <=? 90))
  || ((97 <=? n) && (n <=? 122))
  || (n =? 170) || (n =? 178) || (n =? 179) || (n =? 181)
  || (n =? 185) || (n =? 186) || ((188 <=? n) && (n <=? 190))
  || ((192 <=? n) && (n <=? 214)) || ((216 <=? n) && (n <=? 246))
  || (248 <=? n).

(** The characters at which [str.splitlines] ends a line. *)
Definition is_linebreak (c : ascii) : bool :=
  let n := code c in
  ((10 <=? n) && (n <=? 13)) || ((28 <=? n) && (n <=? 30)) || (n =? 133).

Definition ch_eqb (a b : ascii) : bool := Ascii.eqb a b.

Fixpoint startswith (s p : str) {struct p} : bool :=
  match p, s with
  | [], _ => true
  | _ :: _, [] => false
  | b :: p', a :: s' => ch_eqb a b && startswith s' p'
  end.

Definition endswith_char (s : str) (c : ascii) : bool :=
  match rev s with
  | [] => false
  | a :: _ => ch_eqb a c
  end.

Fixpoint lstrip (s : str) : str :=
  match s with
  | [] => []
  | c :: t => if isspace c then lstrip t else s
  end.

Fixpoint rstrip (s : str) : str :=
  match s with
  | [] => []
  | c :: t =>
      match rstrip t with
      | [] => if isspace c then [] else [c]
      | t' => c :: t'
      end
  end.

Definition strip (s : str) : str := lstrip (rstrip s).

(** [s.find(c)]: the index of the first [c], [None] for Python's -1. *)
Fixpoint find (c : ascii) (s : str) : option nat :=
  match s with
  | [] => None
  | a :: t => if ch_eqb a c then Some 0 else option_map S (find c t)
  end.

(** [a = s.find(c); if a < 0: a = len(s)]. *)
Definition find_or_len (c : ascii) (s : str) : nat :=
  match find c s with
  | Some i => i
  | None => length s
  end.

Fixpoint splitlines (s : str) : list str :=
  match s with
  | [] => []
  | c :: t =>
      if is_linebreak c then
        match t with
        | d :: t' =>
            if ch_eqb c "013" && ch_eqb d "010" then [] :: splitlines t'
            else [] :: splitlines t
        | [] => [[]]
        end
      else
        match splitlines t with
        | [] => [[c]]
        | l :: ls => (c :: l) :: ls
        end
  end.

Definition spaces_of (n : nat) : str := repeat " "%char n.

(** [str(n)] for a non-negative integer. *)
Definition str_of_nat (n : nat) : str :=
  list_ascii_of_string (NilEmpty.string_of_uint (Nat.to_uint n)).

(** ** Exceptions *)

(** The exceptions the code raises.  [ParseError] carries its message.
    [IndexError] is raised by [l[last]] on an empty list and by [widths[j]]
    past the end, [TypeError] by an item assignment to a string.
    [ValueError] carries the three values that the message of
    [generate_substitution] is formatted from: the row, its number of items
    and the number expected.
    [NestedComment] is no exception of the code: it stands for the places
    where [process_source] would wrap in [with_comment] a value that has a
    trailing comment already, or a comment line, and so build a value that
    the document type below leaves out.  The streams of [get_token] never
    lead there (lemma [process_source_not_nested]). *)
Inductive exn : Type :=
| ParseError (msg : str)
| IndexError
| TypeError
| ValueError (row : list str) (n number : nat)
| NestedComment.

(** ** The document *)

(** The document is typed: an item is a string or a block, so the
    [TypeError]s that [generate] raises for other shapes of [source] have no
    counterpart here.  The output of [debug] is left out ([do_debug] is
    [False]). *)

(** A value with its trailing comment: the bare value when [comment] is
    [None], the named tuple [with_comment(item, comment)] otherwise. *)
Record with_comment (A : Type) : Type :=
  With_comment { item : A; comment : option str }.
Arguments With_comment {A} _ _.
Arguments item {A} _.
Arguments comment {A} _.

Definition bare {A : Type} (a : A) : with_comment A := With_comment a None.

Inductive actual_item : Type :=
| Comment_line (s : str)
| Row (r : with_comment (list str)).

(** The dictionary that [process_source] builds for one block. *)
Record substitution : Type := Substitution_dict {
  template : with_comment str;
  comments : list str;
  formal : with_comment (list str);
  actual : list actual_item;
  eos_comment : option str
}.

Inductive doc_item : Type :=
| Line (s : str)
| Substitution (d : substitution).

Definition document := list doc_item.

(** ** The layout engine *)

Definition nl : str := ["010"%char].
Definition dquote : ascii := "034"%char.

(** The text a call wrote to [target], and the exception it raised, if any. *)
Definition written : Type := str * option exn.

Definition wrote (text : str) : written := (text, None).

(** Sequencing: [b] runs only when [a] raised nothing. *)
Definition then_ (a b : written) : written :=
  match a with
  | (o, Some e) => (o, Some e)
  | (o, None) => (o ++ fst b, snd b)
  end.

Definition quote_str (value : str) : str :=
  if negb (startswith value [dquote]) && negb (endswith_char value dquote)
  then dquote :: value ++ [dquote]
  else value.

Definition mem (j : nat) (l : list nat) : bool := existsb (Nat.eqb j) l.

(** The text [generate_row] writes for one element: the name, the comma and
    [spaces] unless it is the last one, then either the line break with the
    modified prefix or the gap that pads the name to its width. *)
Definition row_element (j number : nat) (name : str) (w : nat)
    (prefix spaces : str) (newlines : list nat) : str :=
  let gap := spaces_of (w - length name) in
  name
  ++ (if j <? number - 1 then "," ++ spaces else [])
  ++ (if mem j newlines && (j <? number - 1)
      then nl ++ spaces_of (length prefix) ++ "   "
      else gap).

(** The loop [for j, name in enumerate(item)] of [generate_row], from index
    [j] on; [widths[j]] raises [IndexError] past the end of [widths]. *)
Fixpoint row_loop (j number : nat) (item : list str) (widths : list nat)
    (prefix spaces : str) (newlines : list nat) : written :=
  match item with
  | [] => wrote []
  | name :: rest =>
      match nth_error widths j with
      | None => ([], Some IndexError)
      | Some w =>
          then_ (wrote (row_element j number name w prefix spaces newlines))
                (row_loop (S j) number rest widths prefix spaces newlines)
      end
  end.

Definition generate_row (it : with_comment (list str)) (widths : list nat)
    (prefix spaces : str) (newlines : list nat) : written :=
  then_ (wrote (prefix ++ " { "))
  (then_ (row_loop 0 (length it.(item)) it.(item) widths
                   prefix spaces newlines)
         (wrote (match it.(comment) with
                 | None => " }" ++ nl
                 | Some c => " }  " ++ c ++ nl
                 end))).

(** [for j, value in enumerate(row)]: the row with its values quoted, and
    [widths] widened; the row is changed in place, so the part already quoted
    stays quoted when [widths[j]] raises. *)
Fixpoint quote_row (row : list str) (widths : list nat)
    : list str * (exn + list nat) :=
  match row with
  | [] => ([], inr widths)
  | value :: rest =>
      let value := quote_str value in
      match widths with
      | [] => (value :: rest, inl IndexError)
      | w :: ws =>
          let (rest', r) := quote_row rest ws in
          (value :: rest',
           match r with
           | inl e => inl e
           | inr ws' => inr (Nat.max w (length value) :: ws')
           end)
      end
  end.

(** The first loop over [actual] in [generate_substitution]. *)
Fixpoint quote_rows (number : nat) (actual : list actual_item)
    (widths : list nat) : list actual_item * (exn + list nat) :=
  match actual with
  | [] => ([], inr widths)
  | Comment_line s :: rest =>
      let (rest', r) := quote_rows number rest widths in
      (Comment_line s :: rest', r)
  | Row row :: rest =>
      let n := length row.(item) in
      if negb (n =? number) then
        (actual, inl (ValueError row.(item) n number))
      else
        match quote_row row.(item) widths with
        | (row', inl e) => (Row (With_comment row' row.(comment)) :: rest, inl e)
        | (row', inr widths') =>
            let (rest', r) := quote_rows number rest widths' in
            (Row (With_comment row' row.(comment)) :: rest', r)
        end
  end.

(** The wrap points: the indices after which a line break is required. *)
Fixpoint newlines_from (j total : nat) (widths : list nat)
    (spacing width : nat) : list nat :=
  match widths with
  | [] => []
  | w :: ws =>
      let total := total + (w + spacing + 1) in
      if width <? total
      then j :: newlines_from (S j) 10 ws spacing width
      else newlines_from (S j) total ws spacing width
  end.

Definition newlines_of (widths : list nat) (spacing width : nat) : list nat :=
  newlines_from 0 10 widths spacing width.

Definition put_comments (comments : list str) : str :=
  flat_map (fun c =>
    (if startswith c " " then "    " ++ lstrip c else c) ++ nl) comments.

Fixpoint put_actual (actual : list actual_item) (widths : list nat)
    (i s : str) (newlines : list nat) : written :=
  match actual with
  | [] => wrote []
  | Comment_line row :: rest =>
      then_ (wrote ((if startswith row " "
                     then "            " ++ lstrip row else row) ++ nl))
            (put_actual rest widths i s newlines)
  | Row row :: rest =>
      then_ (generate_row row widths (i ++ "       ") s newlines)
            (put_actual rest widths i s newlines)
  end.

Definition set_actual (d : substitution) (a : list actual_item) : substitution :=
  Substitution_dict d.(template) d.(comments) d.(formal) a d.(eos_comment).

(** [generate_substitution]: the dictionary as the call leaves it, and what
    was written. *)
Definition generate_substitution (d : substitution)
    (indent spacing width : nat) : substitution * written :=
  let i := spaces_of indent in
  let s := spaces_of spacing in
  let number := length d.(formal).(item) in
  let widths := map (@length ascii) d.(formal).(item) in
  match quote_rows number d.(actual) widths with
  | (actual', inl e) => (set_actual d actual', ([], Some e))
  | (actual', inr widths) =>
      let newlines := newlines_of widths spacing width in
      (set_actual d actual',
       then_ (wrote ("file " ++ quote_str d.(template).(item)
                     ++ match d.(template).(comment) with
                        | Some c => " {  " ++ c
                        | None => " {"
                        end ++ nl))
       (then_ (wrote (put_comments d.(comments)))
       (then_ (generate_row d.(formal) widths (i ++ "pattern") s newlines)
       (then_ (put_actual actual' widths i s newlines)
              (wrote (match d.(eos_comment) with
                      | None => "}" ++ nl
                      | Some c => "}  " ++ c ++ nl
                      end))))))
  end.

(** [generate]: the document as the call leaves it, and what was written. *)
Fixpoint generate (source : document) (indent spacing width : nat)
    : document * written :=
  match source with
  | [] => ([], wrote [])
  | Line item :: rest =>
      let (rest', w) := generate rest indent spacing width in
      (Line item :: rest', then_ (wrote (strip item ++ nl)) w)
  | Substitution item :: rest =>
      match generate_substitution item indent spacing width with
      | (item', (o, Some e)) => (Substitution item' :: rest, (o, Some e))
      | (item', (o, None)) =>
          let (rest', w) := generate rest indent spacing width in
          (Substitution item' :: rest', then_ (wrote o) w)
      end
  end.

(** ** The tokenizer *)

Module Tokens.
Inductive t : Type :=
| comment | eol_comment | file | pattern | name
| open_brace | close_brace | comma | value | end_of_file.

Definition name_of (k : t) : str :=
  match k with
  | comment => "comment" | eol_comment => "eol_comment"
  | file => "file" | pattern => "pattern" | name => "name"
  | open_brace => "open_brace" | close_brace => "close_brace"
  | comma => "comma" | value => "value" | end_of_file => "end_of_file"
  end.
End Tokens.

(** The tuple [(token type, literal, line number, col number)]. *)
Record token : Type := Token {
  kind : Tokens.t;
  literal : str;
  lineno : nat;
  col : nat
}.

(** What the generator [get_token] delivers: the tokens it yields, in order,
    and the exception that ends the stream, if one does. *)
Definition stream : Type := list token * option exn.

Definition yield (t : token) (rest : stream) : stream :=
  (t :: fst rest, snd rest).

(** [source.name:lineno:col] followed by a blank and [msg]. *)
Definition located (source_name : str) (lineno col : nat) (msg : str) : str :=
  source_name ++ ":" ++ str_of_nat lineno ++ ":" ++ str_of_nat col
  ++ " " ++ msg.

(** [c.isalnum()], or [c] is one of the four characters [_+-:]. *)
Definition name_char (c : ascii) : bool :=
  isalnum c || existsb (ch_eqb c) ("_+-:" : string).

(** The loop [while len(temp) > 0] over one line.  [fuel] bounds the number
    of rounds; every round shortens [temp], so [length temp] rounds are
    enough (lemma [scan_fuel] below). *)
Fixpoint scan (fuel : nat) (source_name : str) (lineno size : nat)
    (temp : str) : stream :=
  match fuel, temp with
  | 0, _ | _, [] => ([], None)
  | S fuel, _ :: _ =>
      let col := size - length temp in
      let continue_ temp := scan fuel source_name lineno size temp in
      if startswith temp "#" then
        yield (Token Tokens.eol_comment (rstrip temp) lineno col) ([], None)
      else if startswith temp "file" then
        yield (Token Tokens.file [] lineno col)
              (continue_ (lstrip (skipn 4 temp)))
      else if startswith temp "pattern" then
        yield (Token Tokens.pattern [] lineno col)
              (continue_ (lstrip (skipn 7 temp)))
      else if startswith temp "{" then
        yield (Token Tokens.open_brace [] lineno col)
              (continue_ (lstrip (skipn 1 temp)))
      else if startswith temp "}" then
        yield (Token Tokens.close_brace [] lineno col)
              (continue_ (lstrip (skipn 1 temp)))
      else if startswith temp "," then
        yield (Token Tokens.comma [] lineno col)
              (continue_ (lstrip (skipn 1 temp)))
      else if startswith temp [dquote] then
        match find dquote (skipn 1 temp) with
        | None =>
            ([], Some (ParseError (located source_name lineno col
                                     ("value missing trailing " ++ [dquote]))))
        | Some q1 =>
            (* [q1] is counted from index 1, so [q = q1 + 1], then [q += 1] *)
            let q := q1 + 1 + 1 in
            yield (Token Tokens.value (firstn q temp) lineno col)
                  (continue_ (lstrip (skipn q temp)))
        end
      else
        let a1 := find_or_len "," temp in
        let a2 := find_or_len "{" temp in
        let a3 := find_or_len "}" temp in
        let a4 := find_or_len " " temp in
        let a := Nat.min (Nat.min a1 a2) (Nat.min a3 a4) in
        let text := rstrip (firstn a temp) in
        let tk := if forallb name_char text then Tokens.name else Tokens.value in
        yield (Token tk text lineno col) (continue_ (lstrip (skipn a temp)))
  end.

(** The tokens of one line, and the value of [col] after it. *)
Definition line_tokens (source_name : str) (lineno : nat) (line : str)
    : stream * nat :=
  let temp := rstrip line in
  let size := length temp + 1 in
  let temp := lstrip temp in
  if (length temp =? 0) || startswith temp "#" then
    (([Token Tokens.comment (rstrip line) lineno 0], None), 0)
  else
    let s := scan (length temp) source_name lineno size temp in
    (s, last (map col (fst s)) 0).

(** The loop [for line in lines], from line number [lineno] (already
    counted) and the current [col]; the end-of-file token closes the stream. *)
Fixpoint lines_tokens (source_name : str) (lineno col0 : nat)
    (lines : list str) : stream :=
  match lines with
  | [] => ([Token Tokens.end_of_file [] lineno col0], None)
  | line :: rest =>
      let lineno := lineno + 1 in
      match line_tokens source_name lineno line with
      | ((ts, Some e), _) => (ts, Some e)
      | ((ts, None), c) =>
          let r := lines_tokens source_name lineno c rest in
          (ts ++ fst r, snd r)
      end
  end.

(** [get_token(source)], where [text] is what [source.read()] returns. *)
Definition get_token (source_name text : str) : stream :=
  lines_tokens source_name 0 0 (splitlines text).

(** ** The parser *)

Module States.
Inductive t : Type :=
| seek_file | start1 | start2 | seek_pattern
| start_formal | seek_name | post_name
| start_actual_first | start_actual_next
| seek_value | post_value.

Definition name_of (s : t) : str :=
  match s with
  | seek_file => "seek_file" | start1 => "start1" | start2 => "start2"
  | seek_pattern => "seek_pattern" | start_formal => "start_formal"
  | seek_name => "seek_name" | post_name => "post_name"
  | start_actual_first => "start_actual_first"
  | start_actual_next => "start_actual_next"
  | seek_value => "seek_value" | post_value => "post_value"
  end.
End States.

(** The local variables of [process_source], and the warnings written to
    the standard error stream so far.  [None] is the empty value of each
    variable: the code assigns a variable before the state that reads it.
    [eos_comment] is [None] throughout, so it is not carried. *)
Record locals : Type := Locals {
  result : document;
  state : States.t;
  l_template : with_comment str;
  l_comments : list str;
  l_formal : with_comment (list str);
  l_actual : list actual_item;
  actual_row : list str;
  stderr : list str
}.

Definition yellow : str := "027"%char :: "[33;1m".
Definition reset : str := "027"%char :: "[00m".

(** The line [warning(text)] writes. *)
Definition warning (text : str) : str := yellow ++ text ++ reset.

Inductive step_result : Type :=
| Next (l : locals)
| Break (l : locals)
| Raise (e : exn).

(** [last = len(l) - 1; l[last]]: the last element, [IndexError] on []. *)
Definition last_of {A : Type} (l : list A) : option A :=
  nth_error l (length l - 1).

Section Step.
Variable source_name : str.
Variable l : locals.
Variable tk : token.

Let lit := tk.(literal).

Definition with_state (s : States.t) : locals :=
  Locals l.(result) s l.(l_template) l.(l_comments) l.(l_formal)
         l.(l_actual) l.(actual_row) l.(stderr).

Definition warn (msg : str) (l' : locals) : locals :=
  Locals l'.(result) l'.(state) l'.(l_template) l'.(l_comments)
         l'.(l_formal) l'.(l_actual) l'.(actual_row)
         (l'.(stderr)
          ++ [warning (located source_name tk.(lineno) tk.(col) msg)]).

(** One round of the loop [for token, literal, lineno, col in ...]. *)
Definition step : step_result :=
  match l.(state), tk.(kind) with
  | States.seek_file, Tokens.comment =>
      Next (Locals (l.(result) ++ [Line lit]) l.(state) l.(l_template)
              l.(l_comments) l.(l_formal) l.(l_actual) l.(actual_row)
              l.(stderr))
  | States.seek_file, Tokens.end_of_file => Break l
  | States.seek_file, Tokens.file =>
      Next (Locals l.(result) States.start1 l.(l_template) [] (bare [])
              [] l.(actual_row) l.(stderr))
  | States.seek_file, Tokens.eol_comment =>
      match last_of l.(result) with
      | None => Raise IndexError
      | Some (Line _) => Raise TypeError
      | Some (Substitution d) =>
          let d' := Substitution_dict d.(template) d.(comments) d.(formal)
                      d.(actual) (Some lit) in
          Next (Locals (removelast l.(result) ++ [Substitution d'])
                  l.(state) l.(l_template) l.(l_comments) l.(l_formal)
                  l.(l_actual) l.(actual_row) l.(stderr))
      end
  | States.start1, Tokens.value =>
      Next (Locals l.(result) States.start2 (bare lit) l.(l_comments)
              l.(l_formal) l.(l_actual) l.(actual_row) l.(stderr))
  | States.start2, Tokens.open_brace => Next (with_state States.seek_pattern)
  | States.seek_pattern, Tokens.eol_comment =>
      match l.(l_template).(comment) with
      | Some _ => Raise NestedComment
      | None =>
          Next (Locals l.(result) l.(state)
                  (With_comment l.(l_template).(item) (Some lit))
                  l.(l_comments) l.(l_formal) l.(l_actual) l.(actual_row)
                  l.(stderr))
      end
  | States.seek_pattern, Tokens.comment =>
      Next (Locals l.(result) l.(state) l.(l_template)
              (l.(l_comments) ++ [lit]) l.(l_formal) l.(l_actual)
              l.(actual_row) l.(stderr))
  | States.seek_pattern, Tokens.pattern => Next (with_state States.start_formal)
  | States.start_formal, Tokens.open_brace => Next (with_state States.seek_name)
  | States.seek_name, Tokens.name =>
      Next (Locals l.(result) States.post_name l.(l_template) l.(l_comments)
              (With_comment (l.(l_formal).(item) ++ [lit])
                            l.(l_formal).(comment))
              l.(l_actual) l.(actual_row) l.(stderr))
  | States.seek_name, Tokens.comma =>
      match last_of l.(l_formal).(item) with
      | None => Raise IndexError
      | Some last_name =>
          Next (warn ("extra comma following macro name " ++ last_name
                      ++ " removed") (with_state States.seek_name))
      end
  | States.seek_name, Tokens.close_brace =>
      match last_of l.(l_formal).(item) with
      | None => Raise IndexError
      | Some last_name =>
          Next (warn ("extra comma following macro name " ++ last_name
                      ++ " removed") (with_state States.start_actual_first))
      end
  | States.post_name, Tokens.name =>
      match last_of l.(l_formal).(item) with
      | None => Raise IndexError
      | Some last_name =>
          Next (warn ("missing comma between macro names " ++ last_name
                      ++ " and " ++ lit)
                  (Locals l.(result) States.post_name l.(l_template)
                     l.(l_comments)
                     (With_comment (l.(l_formal).(item) ++ [lit])
                                   l.(l_formal).(comment))
                     l.(l_actual) l.(actual_row) l.(stderr)))
      end
  | States.post_name, Tokens.comma => Next (with_state States.seek_name)
  | States.post_name, Tokens.close_brace =>
      Next (with_state States.start_actual_first)
  | States.start_actual_first, Tokens.eol_comment =>
      match l.(l_formal).(comment) with
      | Some _ => Raise NestedComment
      | None =>
          Next (Locals l.(result) l.(state) l.(l_template) l.(l_comments)
                  (With_comment l.(l_formal).(item) (Some lit))
                  l.(l_actual) l.(actual_row) l.(stderr))
      end
  | States.start_actual_next, Tokens.eol_comment =>
      match last_of l.(l_actual) with
      | None => Raise IndexError
      | Some (Row (With_comment last_row None)) =>
          Next (Locals l.(result) l.(state) l.(l_template) l.(l_comments)
                  l.(l_formal)
                  (removelast l.(l_actual)
                   ++ [Row (With_comment last_row (Some lit))])
                  l.(actual_row) l.(stderr))
      | Some _ => Raise NestedComment
      end
  | States.start_actual_first, Tokens.comment
  | States.start_actual_next, Tokens.comment =>
      Next (Locals l.(result) l.(state) l.(l_template) l.(l_comments)
              l.(l_formal) (l.(l_actual) ++ [Comment_line lit])
              l.(actual_row) l.(stderr))
  | States.start_actual_first, Tokens.open_brace
  | States.start_actual_next, Tokens.open_brace =>
      Next (Locals l.(result) States.seek_value l.(l_template) l.(l_comments)
              l.(l_formal) l.(l_actual) [] l.(stderr))
  | States.seek_value, Tokens.value
  | States.seek_value, Tokens.name =>
      Next (Locals l.(result) States.post_value l.(l_template) l.(l_comments)
              l.(l_formal) l.(l_actual) (l.(actual_row) ++ [lit]) l.(stderr))
  | States.seek_value, Tokens.comma =>
      match last_of l.(actual_row) with
      | None => Raise IndexError
      | Some last_value =>
          Next (warn ("extra comma following value " ++ last_value
                      ++ " removed") (with_state States.seek_value))
      end
  | States.seek_value, Tokens.close_brace =>
      match last_of l.(actual_row) with
      | None => Raise IndexError
      | Some last_value =>
          Next (warn ("extra comma following value " ++ last_value
                      ++ " removed")
                  (Locals l.(result) States.start_actual_next l.(l_template)
                     l.(l_comments) l.(l_formal)
                     (l.(l_actual) ++ [Row (bare l.(actual_row))])
                     [] l.(stderr)))
      end
  | States.post_value, Tokens.value
  | States.post_value, Tokens.name =>
      match last_of l.(actual_row) with
      | None => Raise IndexError
      | Some last_value =>
          Next (warn ("missing comma between values " ++ last_value
                      ++ " and " ++ lit)
                  (Locals l.(result) States.post_value l.(l_template)
                     l.(l_comments) l.(l_formal) l.(l_actual)
                     (l.(actual_row) ++ [lit]) l.(stderr)))
      end
  | States.post_value, Tokens.comma => Next (with_state States.seek_value)
  | States.post_value, Tokens.close_brace =>
      Next (Locals l.(result) States.start_actual_next l.(l_template)
              l.(l_comments) l.(l_formal)
              (l.(l_actual) ++ [Row (bare l.(actual_row))]) [] l.(stderr))
  | States.start_actual_first, Tokens.close_brace
  | States.start_actual_next, Tokens.close_brace =>
      let d := Substitution_dict l.(l_template) l.(l_comments) l.(l_formal)
                 l.(l_actual) None in
      Next (Locals (l.(result) ++ [Substitution d]) States.seek_file
              (bare []) [] (bare []) [] l.(actual_row) l.(stderr))
  | _, _ =>
      Raise (ParseError
               (located source_name tk.(lineno) tk.(col)
                  ("unexpected state/token combination: "
                   ++ States.name_of l.(state) ++ "/"
                   ++ Tokens.name_of tk.(kind))))
  end.
End Step.

Definition initial : locals :=
  Locals [] States.seek_file (bare []) [] (bare []) [] [] [].

(** What a call leaves behind: the warnings on the standard error stream,
    and the exception raised or the value returned. *)
Definition outcome (A : Type) : Type := list str * (exn + A).

(** The [for] loop of [process_source] over the tokens [ts] of a stream
    that ends with the exception [tail], if any. *)
Fixpoint run (source_name : str) (l : locals) (ts : list token)
    (tail : option exn) : outcome document :=
  match ts with
  | [] =>
      match tail with
      | Some e => (l.(stderr), inl e)
      | None => (l.(stderr), inr l.(result))
      end
  | tk :: ts' =>
      match step source_name l tk with
      | Next l' => run source_name l' ts' tail
      | Break l' => (l'.(stderr), inr l'.(result))
      | Raise e => (l.(stderr), inl e)
      end
  end.

Definition process_tokens (source_name : str) (s : stream) : outcome document :=
  run source_name initial (fst s) (snd s).

(** [process_source(source)], where [text] is what [source.read()] returns. *)
Definition process_source (source_name text : str) : outcome document :=
  process_tokens source_name (get_token source_name text).

(** [process(source, target, indent, spacing, width)]: the warnings, and
    what was written to [target]. *)
Definition process (source_name text : str) (indent spacing width : nat)
    : list str * written :=
  match process_source source_name text with
  | (err, inl e) => (err, ([], Some e))
  | (err, inr sub_file) => (err, snd (generate sub_file indent spacing width))
  end.

(** The lines of a text, each followed by a newline. *)
Definition unlines (ls : list str) : str := flat_map (fun x => x ++ nl) ls.

(** A text between double quotes. *)
Definition quoted (s : str) : str := dquote :: s ++ [dquote].

(** * The files: [process_file] of [subtidy_lib.py], and
      [process_argument] and [main] of [main.py]

    The file system is seen as these functions use it: a map from paths to
    the texts of the regular files.  Two paths that differ as strings name
    two files; a file that is there can be read, written and copied, and
    the path of the backup names a regular file or nothing.  Whether a call
    of [os.rename] raises (its target is a directory, the directory may not
    be written, ...) is not told by the map: the environment tells, and a
    renaming that does not raise replaces its target, as on POSIX systems.
    The text of a traceback is not modelled: the standard error stream
    records for which exception one was printed. *)

Definition files : Type := str -> option str.

Definition str_eqb (a b : str) : bool :=
  if list_eq_dec ascii_dec a b then true else false.

(** [os.path.isfile(p)]. *)
Definition isfile (fs : files) (p : str) : bool :=
  match fs p with
  | Some _ => true
  | None => false
  end.

(** What [os.rename(src, dst)] does to the files when it does not raise,
    for a [src] that is there. *)
Definition rename (fs : files) (src dst : str) : files :=
  fun p => if str_eqb p dst then fs src
           else if str_eqb p src then None
           else fs p.

(** What closing a file opened with mode [w] leaves: the text written. *)
Definition write (fs : files) (p text : str) : files :=
  fun q => if str_eqb q p then Some text else fs q.

(** An exception of the library, or that of opening or copying a file
    that is not there. *)
Inductive raised : Type :=
| Lib (e : exn)
| FileNotFoundError (path : str).

(** [process_file(filename, indent, spacing, width)]: the warnings, the
    files as the call leaves them and the exception raised, if any.  The
    file is opened for writing, and so emptied, once [process_source] has
    returned. *)
Definition process_file (filename : str) (fs : files)
    (indent spacing width : nat) : list str * files * option raised :=
  match fs filename with
  | None => ([], fs, Some (FileNotFoundError filename))
  | Some text =>
      match process_source filename text with
      | (err, inl e) => (err, fs, Some (Lib e))
      | (err, inr sub_file) =>
          let w := snd (generate sub_file indent spacing width) in
          (err, write fs filename (fst w), option_map Lib (snd w))
      end
  end.

(** What is written to the standard error stream: the line of a warning,
    or the traceback of an exception. *)
Inductive event : Type :=
| Warned (line : str)
| Traceback (e : raised).

(** What a call of [main.py] leaves: the text written to the standard
    output, the events of the standard error stream, the files, and the
    status returned or the exception that no handler caught. *)
Record reply : Type := Reply {
  stdout : str;
  errors : list event;
  disk : files;
  status : nat + raised
}.

Section Main.

(** [ParseError] is imported from the package, whose [__init__.py] defines
    it: whether it derives from [Exception] decides whether the handlers
    [except Exception] catch it.  [__version__] comes from the same file,
    and the three numbers from [sys.version_info]. *)
Variable ParseError_is_Exception : bool.
Variable version : str.
Variables major minor micro : nat.

(** Whether [os.rename(src, dst)] raises an exception, the files being
    [fs]. *)
Variable rename_raises : files -> str -> str -> bool.

(** The files inside the block [try: ... except BaseException: pass] at the
    head of [process_argument], and whether the block is still running: it
    is left at the first renaming that raises, with the files as they are
    then. *)
Definition attempt : Type := files * bool.

(** One call of [os.rename] inside that block. *)
Definition os_rename (a : attempt) (src dst : str) : attempt :=
  match a with
  | (fs, false) => (fs, false)
  | (fs, true) =>
      if rename_raises fs src dst then (fs, false)
      else (rename fs src dst, true)
  end.

(** The block itself: the four tests come first, the renamings follow from
    the oldest backup to the newest, and an exception of a renaming ends
    the block and is dropped. *)
Definition rotate (fs : files) (filename : str) : files :=
  let backup := filename ++ ".~" in
  let b1 := filename ++ ".1~" in
  let b2 := filename ++ ".2~" in
  let b3 := filename ++ ".3~" in
  let b4 := filename ++ ".4~" in
  if isfile fs backup then
    let a1 :=
      if isfile fs b1 then
        let a2 :=
          if isfile fs b2 then
            let a3 :=
              if isfile fs b3 then os_rename (fs, true) b3 b4 else (fs, true) in
            os_rename a3 b2 b3
          else (fs, true) in
        os_rename a2 b1 b2
      else (fs, true) in
    fst (os_rename a1 backup b1)
  else fs.

Definition is_Exception (e : raised) : bool :=
  match e with
  | Lib (ParseError _) => ParseError_is_Exception
  | _ => true
  end.

(** The handler [except Exception: traceback.print_exc(); ...] for an
    exception [e] raised after [out] and [err] were written. *)
Definition handled (out : str) (err : list event) (fs : files) (e : raised)
    : reply :=
  if is_Exception e
  then Reply out (err ++ [Traceback e]) fs (inl 2)
  else Reply out err fs (inr e).

(** [process_argument(filename, indent, spacing, width)]. *)
Definition process_argument (filename : str) (fs : files)
    (indent spacing width : nat) : reply :=
  let out := filename ++ nl in
  let fs1 := rotate fs filename in
  match fs1 filename with
  | None => handled out [] fs1 (FileNotFoundError filename)
  | Some text =>
      let fs2 := write fs1 (filename ++ ".~") text in
      match process_file filename fs2 indent spacing width with
      | (err, fs3, None) => Reply out (map Warned err) fs3 (inl 0)
      | (err, fs3, Some e) => handled out (map Warned err) fs3 e
      end
  end.

(** The line that [print_version] writes. *)
Definition print_version : str :=
  "subtidy version: " ++ version ++ "  (python " ++ str_of_nat major ++ "."
  ++ str_of_nat minor ++ "." ++ str_of_nat micro ++ ")" ++ nl.

(** The loop [for filename in filenames] of [main], from the status and
    the streams reached. *)
Fixpoint arguments (filenames : list str) (r : reply)
    (indent spacing width : nat) : reply :=
  match filenames, r.(status) with
  | [], _ | _, inr _ => r
  | filename :: rest, inl st =>
      let a := process_argument filename r.(disk) indent spacing width in
      arguments rest
        (Reply (r.(stdout) ++ a.(stdout)) (r.(errors) ++ a.(errors)) a.(disk)
           match a.(status) with
           | inl s => inl (Nat.max st s)
           | inr e => inr e
           end)
        indent spacing width
  end.

(** [main(filenames, indent, spacing, width)], where [stdin] is the text
    that the standard input holds. *)
Definition main (filenames : list str) (stdin : str) (fs : files)
    (indent spacing width : nat) : reply :=
  match filenames with
  | [] =>
      match process "<stdin>" stdin indent spacing width with
      | (err, (out, None)) => Reply out (map Warned err) fs (inl 0)
      | (err, (out, Some e)) => handled out (map Warned err) fs (Lib e)
      end
  | _ :: _ =>
      let r := arguments filenames (Reply print_version [] fs (inl 0))
                 indent spacing width in
      match r.(status) with
      | inl _ => Reply (r.(stdout) ++ "complete" ++ nl) r.(errors) r.(disk)
                   r.(status)
      | inr _ => r
      end
  end.

End Main.

(** * Notions used to state the properties *)

(** The (state, token) pairs that [process_source] tests for, in the order
    of its [if]/[elif] chain. *)
Definition enumerated (s : States.t) (k : Tokens.t) : bool :=
  match s, k with
  | States.seek_file, Tokens.comment
  | States.seek_file, Tokens.end_of_file
  | States.seek_file, Tokens.file
  | States.seek_file, Tokens.eol_comment
  | States.start1, Tokens.value
  | States.start2, Tokens.open_brace
  | States.seek_pattern, Tokens.eol_comment
  | States.seek_pattern, Tokens.comment
  | States.seek_pattern, Tokens.pattern
  | States.start_formal, Tokens.open_brace
  | States.seek_name, Tokens.name
  | States.seek_name, Tokens.comma
  | States.seek_name, Tokens.close_brace
  | States.post_name, Tokens.name
  | States.post_name, Tokens.comma
  | States.post_name, Tokens.close_brace
  | States.start_actual_first, Tokens.eol_comment
  | States.start_actual_next, Tokens.eol_comment
  | States.start_actual_first, Tokens.comment
  | States.start_actual_next, Tokens.comment
  | States.start_actual_first, Tokens.open_brace
  | States.start_actual_next, Tokens.open_brace
  | States.seek_value, Tokens.value
  | States.seek_value, Tokens.name
  | States.seek_value, Tokens.comma
  | States.seek_value, Tokens.close_brace
  | States.post_value, Tokens.value
  | States.post_value, Tokens.name
  | States.post_value, Tokens.comma
  | States.post_value, Tokens.close_brace
  | States.start_actual_first, Tokens.close_brace
  | States.start_actual_next, Tokens.close_brace => true
  | _, _ => false
  end.

(** The message of the [ParseError] raised for an unexpected pair. *)
Definition unexpected (source_name : str) (s : States.t) (tk : token) : str :=
  located source_name tk.(lineno) tk.(col)
    ("unexpected state/token combination: "
     ++ States.name_of s ++ "/" ++ Tokens.name_of tk.(kind)).

(** The locals after the loop has consumed all of [ts] without leaving. *)
Fixpoint steps (source_name : str) (l : locals) (ts : list token)
    : option locals :=
  match ts with
  | [] => Some l
  | tk :: ts' =>
      match step source_name l tk with
      | Next l' => steps source_name l' ts'
      | _ => None
      end
  end.

Definition set_eos_comment (d : substitution) (c : option str) : substitution :=
  Substitution_dict d.(template) d.(comments) d.(formal) d.(actual) c.

Definition set_result (l : locals) (r : document) : locals :=
  Locals r l.(state) l.(l_template) l.(l_comments) l.(l_formal)
         l.(l_actual) l.(actual_row) l.(stderr).

(** The scenario of the specification: four lines, each ended by a newline. *)
Definition scenario_text : str :=
  unlines [ "file " ++ quoted "a.db" ++ " {";
            " pattern { X, Y }" : str;
            " { " ++ quoted "1" ++ ", " ++ quoted "2" ++ " }";
            "}" : str ].

(** The rendering the specification gives for the scenario. *)
Definition scenario_spec_output : str :=
  unlines [ "file " ++ quoted "a.db" ++ " {";
            "    pattern { X, Y }" : str;
            "            { " ++ quoted "1" ++ ", " ++ quoted "2" ++ " }";
            "}" : str ].

(** The rendering the code gives for the scenario. *)
Definition scenario_code_output : str :=
  unlines [ "file " ++ quoted "a.db" ++ " {";
            "    pattern { X,    Y   }" : str;
            "            { " ++ quoted "1" ++ ",  " ++ quoted "2" ++ " }";
            "}" : str ].

(** A block whose row holds a bare value that ends with a double quote. *)
Definition half_quoted_text : str :=
  unlines [ "file " ++ quoted "a.db" ++ " {";
            " pattern { X }" : str;
            " { a" ++ [dquote] ++ " }";
            "}" : str ].

(** A formal list that opens with a comma. *)
Definition leading_comma_text : str :=
  unlines [ "file " ++ quoted "a.db" ++ " {";
            " pattern { , X }" : str;
            " { " ++ quoted "1" ++ " }";
            "}" : str ].

(** A formal list that ends with a stray comma. *)
Definition trailing_comma_text : str :=
  unlines [ "file " ++ quoted "a.db" ++ " {";
            " pattern { X, Y, }" : str;
            " { " ++ quoted "1" ++ ", " ++ quoted "2" ++ " }";
            "}" : str ].

(** A block as the parser leaves it for a template a.db with the one
    formal name X and no rows. *)
Definition small_block : substitution :=
  Substitution_dict (bare (quoted "a.db")) [] (bare ["X" : str]) [] None.

(** Some row of the block has not as many items as the formal row. *)
Definition mismatched (d : substitution) : Prop :=
  exists r, In (Row r) d.(actual)
            /\ length r.(item) <> length d.(formal).(item).

(** A block whose only row has one value for two formal names. *)
Definition short_row_text : str :=
  unlines [ "file " ++ quoted "a.db" ++ " {";
            " pattern { X, Y }" : str;
            " { " ++ quoted "1" ++ " }";
            "}" : str ].

(** The document with every value of every row passed through [quote_str]. *)
Definition quote_item (a : actual_item) : actual_item :=
  match a with
  | Comment_line s => Comment_line s
  | Row r => Row (With_comment (map quote_str r.(item)) r.(comment))
  end.

Definition quote_block (d : substitution) : substitution :=
  set_actual d (map quote_item d.(actual)).

Definition quote_doc_item (x : doc_item) : doc_item :=
  match x with
  | Line s => Line s
  | Substitution d => Substitution (quote_block d)
  end.

Definition quote_document (source : document) : document :=
  map quote_doc_item source.

(** A block whose row holds the bare values [1] and [2]. *)
Definition bare_values_text : str :=
  unlines [ "file " ++ quoted "a.db" ++ " {";
            " pattern { X, Y }" : str;
            " { 1, 2 }" : str;
            "}" : str ].

(** The block that [process_source] builds for [bare_values_text]. *)
Definition bare_values_block : substitution :=
  Substitution_dict (bare (quoted "a.db")) []
    (bare ["X" : str; "Y" : str])
    [Row (bare ["1" : str; "2" : str])] None.

(** ** Tokens without their positions *)

Definition kl (t : token) : Tokens.t * str := (t.(kind), t.(literal)).

(** A stream seen without positions and messages: the kinds and literals of
    its tokens, and whether it ends with an exception. *)
Definition plain_stream : Type := list (Tokens.t * str) * bool.

Definition plain (s : stream) : plain_stream :=
  (map kl (fst s), match snd s with Some _ => true | None => false end).

Definition pcons (x : Tokens.t * str) (p : plain_stream) : plain_stream :=
  (x :: fst p, snd p).

Definition pseq (a b : plain_stream) : plain_stream :=
  if snd a then a else (fst a ++ fst b, snd b).

(** The tokens of the rest [temp] of a line. *)
Definition lex (temp : str) : plain_stream :=
  plain (scan (length temp) [] 0 0 temp).

Definition tok_line (line : str) : plain_stream :=
  plain (fst (line_tokens [] 0 line)).

Definition tok_lines (lines : list str) : plain_stream :=
  plain (lines_tokens [] 0 0 lines).

(** The tokens of a text that starts at the start of a line. *)
Definition tok_text (text : str) : plain_stream := tok_lines (splitlines text).

(** The tokens of a text that starts inside a line whose earlier part has
    been consumed. *)
Definition cont (text : str) : plain_stream :=
  pseq (lex (lstrip (rstrip (hd [] (splitlines text)))))
       (tok_lines (tl (splitlines text))).

(** ** The shapes of the literals that [get_token] yields *)

Definition nolb (s : str) : bool := forallb (fun c => negb (is_linebreak c)) s.

Definition delimiter (c : ascii) : bool := existsb (ch_eqb c) (",{} " : string).

(** A text such as [get_token] cuts out for a name or a bare value. *)
Definition word (w : str) : bool :=
  match w with
  | [] => false
  | c :: _ =>
      negb (isspace c) && negb (ch_eqb c "#") && negb (ch_eqb c dquote)
      && negb (startswith w "file") && negb (startswith w "pattern")
      && forallb (fun a => negb (delimiter a)) w && nolb w
      && match rev w with d :: _ => negb (isspace d) | [] => false end
  end.

(** A value between double quotes, with none inside. *)
Definition quoted_value (v : str) : Prop :=
  exists body, v = quoted body /\ find dquote body = None /\ nolb body = true.

(** The literal of a comment token: a line that is blank or starts,
    after white space, with [#]. *)
Definition comment_literal (c : str) : Prop :=
  nolb c = true /\ rstrip c = c
  /\ (lstrip c = [] \/ startswith (lstrip c) "#" = true).

(** The literal of an end-of-line comment. *)
Definition eol_literal (c : str) : Prop :=
  nolb c = true /\ rstrip c = c /\ startswith c "#" = true.

Definition wf_token (t : token) : Prop :=
  match t.(kind) with
  | Tokens.comment => comment_literal t.(literal)
  | Tokens.eol_comment => eol_literal t.(literal)
  | Tokens.name => word t.(literal) = true /\ forallb name_char t.(literal) = true
  | Tokens.value =>
      quoted_value t.(literal)
      \/ (word t.(literal) = true /\ forallb name_char t.(literal) = false)
  | _ => t.(literal) = []
  end.

(** What may follow a word in a line: nothing, or a delimiter. *)
Definition follows_word (r : str) : Prop :=
  r = [] \/ exists d r', r = d :: r' /\ delimiter d = true.

(** The kind [get_token] gives to a word. *)
Definition word_kind (w : str) : Tokens.t :=
  if forallb name_char w then Tokens.name else Tokens.value.

(** ** The shape of a parsed document *)

Definition wf_name (n : str) : Prop :=
  word n = true /\ forallb name_char n = true.

(** A name or value of a row: a text that [get_token] reads as one token. *)
Definition wf_value (v : str) : Prop := quoted_value v \/ word v = true.

(** The literal of a value token. *)
Definition wf_template (t : str) : Prop :=
  quoted_value t \/ (word t = true /\ forallb name_char t = false).

Definition wf_comment (c : option str) : Prop :=
  match c with
  | None => True
  | Some c => eol_literal c
  end.

Definition wf_row (r : with_comment (list str)) : Prop :=
  r.(item) <> [] /\ Forall wf_value r.(item) /\ wf_comment r.(comment).

Definition wf_actual (a : actual_item) : Prop :=
  match a with
  | Comment_line c => comment_literal c
  | Row r => wf_row r
  end.

Definition wf_block (d : substitution) : Prop :=
  wf_template d.(template).(item) /\ wf_comment d.(template).(comment)
  /\ Forall comment_literal d.(comments)
  /\ d.(formal).(item) <> [] /\ Forall wf_name d.(formal).(item)
  /\ wf_comment d.(formal).(comment)
  /\ Forall wf_actual d.(actual)
  /\ wf_comment d.(eos_comment).

Definition wf_doc_item (x : doc_item) : Prop :=
  match x with
  | Line s => comment_literal s
  | Substitution d => wf_block d
  end.

Definition wf_document (source : document) : Prop := Forall wf_doc_item source.

(** The states in which the formal list is complete or has a name. *)
Definition has_name (s : States.t) : bool :=
  match s with
  | States.post_name | States.start_actual_first | States.start_actual_next
  | States.seek_value | States.post_value => true
  | _ => false
  end.

(** The states in which the template has been read. *)
Definition has_template (s : States.t) : bool :=
  match s with
  | States.seek_file | States.start1 => false
  | _ => true
  end.

(** What holds of the locals of [process_source] between two tokens. *)
Definition wf_locals (l : locals) : Prop :=
  wf_document l.(result)
  /\ (has_template l.(state) = true -> wf_template l.(l_template).(item))
  /\ wf_comment l.(l_template).(comment)
  /\ Forall comment_literal l.(l_comments)
  /\ (has_name l.(state) = true -> l.(l_formal).(item) <> [])
  /\ Forall wf_name l.(l_formal).(item)
  /\ wf_comment l.(l_formal).(comment)
  /\ Forall wf_actual l.(l_actual)
  /\ (l.(state) = States.post_value -> l.(actual_row) <> [])
  /\ Forall wf_value l.(actual_row).

(** ** Columns of the rendered rows *)

(** The column reached after [text], from column [c]: the number of
    characters written since the last newline. *)
Fixpoint column_from (c : nat) (text : str) : nat :=
  match text with
  | [] => c
  | a :: t => if ch_eqb a "010" then column_from 0 t else column_from (S c) t
  end.

(** What [generate_row] has written when it comes to put element [j]. *)
Definition row_text_before (j : nat) (it : list str) (widths : list nat)
    (prefix spaces : str) (newlines : list nat) : str :=
  prefix ++ " { "
  ++ fst (row_loop 0 (length it) (firstn j it) widths prefix spaces newlines).

(** The column at which element [j] of a row starts in its output line. *)
Definition start_column (j : nat) (it : list str) (widths : list nat)
    (prefix spaces : str) (newlines : list nat) : nat :=
  column_from 0 (row_text_before j it widths prefix spaces newlines).

(** The widths that [generate_substitution] computes for a block, when no
    row has the wrong length. *)
Definition block_widths (d : substitution) : option (list nat) :=
  match quote_rows (length d.(formal).(item)) d.(actual)
                   (map (@length ascii) d.(formal).(item)) with
  | (_, inr widths) => Some widths
  | (_, inl _) => None
  end.

(** The rows that [generate_substitution] renders: the formal row, and the
    actual rows as the first loop has left them. *)
Definition rendered_rows (d : substitution) : list (list str) :=
  d.(formal).(item)
  :: flat_map (fun a => match a with
                        | Comment_line _ => []
                        | Row r => [r.(item)]
                        end) (quote_block d).(actual).

(** The running [total] of the wrap-point loop when it comes to column
    [k], from [total] at the head of [widths]. *)
Fixpoint total_at (k total : nat) (widths : list nat) (spacing width : nat) : nat :=
  match k, widths with
  | S k', w :: ws =>
      let t := total + (w + spacing + 1) in
      total_at k' (if width <? t then 10 else t) ws spacing width
  | _, _ => total
  end.

(** Three formal names of twenty characters each. *)
Definition wide_text : str :=
  unlines [ "file " ++ quoted "a.db" ++ " {";
            " pattern { AAAAAAAAAAAAAAAAAAAA, BBBBBBBBBBBBBBBBBBBB, CCCCCCCCCCCCCCCCCCCC }" : str;
            "}" : str ].

Definition nolf (s : str) : bool := forallb (fun a => negb (ch_eqb a "010")) s.

(** The column after element [j], from the column [c] before it. *)
Definition next_column (c j number w lp spacing : nat) (newlines : list nat) : nat :=
  if mem j newlines && (j <? number - 1) then lp + 3
  else c + w + (if j <? number - 1 then 1 + spacing else 0).

(** The start column of element [j] in a row of [number] elements whose
    prefix is [lp] characters long. *)
Fixpoint column_of (j number : nat) (widths : list nat) (lp spacing : nat)
    (newlines : list nat) : nat :=
  match j with
  | 0 => lp + 3
  | S j' =>
      next_column (column_of j' number widths lp spacing newlines)
                  j' number (nth j' widths 0) lp spacing newlines
  end.

(** Every element of the row is at most as long as its column is wide. *)
Definition fits (it : list str) (widths : list nat) : Prop :=
  length it = length widths
  /\ forall k, length (nth k it []) <= nth k widths 0.

(** The block that [process_source] builds for the scenario. *)
Definition scenario_block : substitution :=
  Substitution_dict (bare (quoted "a.db")) []
    (bare ["X" : str; "Y" : str])
    [Row (bare [quoted "1"; quoted "2"])] None.

(** The block that [process_source] builds for [wide_text]. *)
Definition wide_block : substitution :=
  Substitution_dict (bare (quoted "a.db")) []
    (bare ["AAAAAAAAAAAAAAAAAAAA" : str; "BBBBBBBBBBBBBBBBBBBB" : str;
           "CCCCCCCCCCCCCCCCCCCC" : str])
    [] None.

(** Tokens put before a plain stream. *)
Definition pprepend (xs : list (Tokens.t * str)) (p : plain_stream) : plain_stream :=
  (xs ++ fst p, snd p).

(** ** The rendered text and its tokens *)

(** A comment line as [generate_substitution] writes it: a line that
    starts with a blank is stripped on the left and indented by [pad]. *)
Definition reindent (pad c : str) : str :=
  if startswith c " " then pad ++ lstrip c else c.

(** The text of one row. *)
Definition row_text (it : with_comment (list str)) (widths : list nat)
    (prefix spaces : str) (newlines : list nat) : str :=
  prefix ++ " { "
  ++ fst (row_loop 0 (length it.(item)) it.(item) widths prefix spaces newlines)
  ++ match it.(comment) with
     | None => " }" ++ nl
     | Some c => " }  " ++ c ++ nl
     end.

Definition actual_text (widths : list nat) (i s : str) (newlines : list nat)
    (a : actual_item) : str :=
  match a with
  | Comment_line row => reindent "            " row ++ nl
  | Row row => row_text row widths (i ++ "       ") s newlines
  end.

(** The text of one block, for the widths of the block. *)
Definition block_text (d : substitution) (widths : list nat)
    (indent spacing width : nat) : str :=
  let i := spaces_of indent in
  let s := spaces_of spacing in
  let newlines := newlines_of widths spacing width in
  ("file " ++ quote_str d.(template).(item)
   ++ match d.(template).(comment) with
      | Some c => " {  " ++ c
      | None => " {"
      end ++ nl)
  ++ flat_map (fun c => reindent "    " c ++ nl) d.(comments)
  ++ row_text d.(formal) widths (i ++ "pattern") s newlines
  ++ flat_map (actual_text widths i s newlines) (quote_block d).(actual)
  ++ match d.(eos_comment) with
     | None => "}" ++ nl
     | Some c => "}  " ++ c ++ nl
     end.

Definition item_text (indent spacing width : nat) (x : doc_item) : str :=
  match x with
  | Line s => strip s ++ nl
  | Substitution d =>
      match block_widths d with
      | Some widths => block_text d widths indent spacing width
      | None => []
      end
  end.

Definition document_text (source : document) (indent spacing width : nat) : str :=
  flat_map (item_text indent spacing width) source.

(** The kind [get_token] gives to a name or value as it is written. *)
Definition token_kind (v : str) : Tokens.t :=
  if startswith v [dquote] then Tokens.value else word_kind v.

Fixpoint values_tokens (it : list str) : list (Tokens.t * str) :=
  match it with
  | [] => []
  | v :: rest =>
      (token_kind v, v)
      :: match rest with
         | [] => []
         | _ :: _ => (Tokens.comma, []) :: values_tokens rest
         end
  end.

Definition comment_tokens (c : option str) : list (Tokens.t * str) :=
  match c with
  | None => []
  | Some c => [(Tokens.eol_comment, c)]
  end.

Definition row_tokens (r : with_comment (list str)) : list (Tokens.t * str) :=
  (Tokens.open_brace, []) :: values_tokens r.(item)
  ++ (Tokens.close_brace, []) :: comment_tokens r.(comment).

Definition actual_tokens (a : actual_item) : list (Tokens.t * str) :=
  match a with
  | Comment_line c => [(Tokens.comment, reindent "            " c)]
  | Row r => row_tokens r
  end.

(** The tokens of the text of a block. *)
Definition block_tokens (d : substitution) : list (Tokens.t * str) :=
  [(Tokens.file, []);
   (token_kind (quote_str d.(template).(item)), quote_str d.(template).(item));
   (Tokens.open_brace, [])]
  ++ comment_tokens d.(template).(comment)
  ++ map (fun c => (Tokens.comment, reindent "    " c)) d.(comments)
  ++ (Tokens.pattern, []) :: row_tokens d.(formal)
  ++ flat_map actual_tokens (quote_block d).(actual)
  ++ (Tokens.close_brace, []) :: comment_tokens d.(eos_comment).

Definition item_tokens (x : doc_item) : list (Tokens.t * str) :=
  match x with
  | Line s => [(Tokens.comment, strip s)]
  | Substitution d => block_tokens d
  end.

Definition document_tokens (source : document) : list (Tokens.t * str) :=
  flat_map item_tokens source.

(** The document that parsing the rendered text gives back. *)
Definition normal_actual (a : actual_item) : actual_item :=
  match a with
  | Comment_line c => Comment_line (reindent "            " c)
  | Row r => Row (With_comment (map quote_str r.(item)) r.(comment))
  end.

Definition normal_block (d : substitution) : substitution :=
  Substitution_dict
    (With_comment (quote_str d.(template).(item)) d.(template).(comment))
    (map (reindent "    ") d.(comments))
    d.(formal)
    (map normal_actual d.(actual))
    d.(eos_comment).

Definition normal_item (x : doc_item) : doc_item :=
  match x with
  | Line s => Line (strip s)
  | Substitution d => Substitution (normal_block d)
  end.

Definition normal_document (source : document) : document :=
  map normal_item source.

(** ** Values that can be quoted *)

(** A value that [quote_str] puts between quotes holds no quote. *)
Definition clean_value (v : str) : bool :=
  startswith v [dquote] || endswith_char v dquote
  || match find dquote v with None => true | Some _ => false end.

Definition clean_actual (a : actual_item) : bool :=
  match a with
  | Comment_line _ => true
  | Row r => forallb clean_value r.(item)
  end.

Definition clean_block (d : substitution) : bool :=
  clean_value d.(template).(item) && forallb clean_actual d.(actual).

Definition clean_doc_item (x : doc_item) : bool :=
  match x with
  | Line _ => true
  | Substitution d => clean_block d
  end.

Definition clean_document (source : document) : bool :=
  forallb clean_doc_item source.

(** What a rendered entry of [actual] has to satisfy. *)
Definition renders (widths : list nat) (a : actual_item) : Prop :=
  match a with
  | Comment_line c => comment_literal c
  | Row r =>
      r.(item) <> [] /\ Forall wf_value r.(item) /\ wf_comment r.(comment)
      /\ length r.(item) <= length widths
  end.

(** ** The parser on tokens without positions *)

(** One round of the loop when it neither warns nor leaves: the step does
    not look at the positions then. *)
Definition pstep (l : locals) (x : Tokens.t * str) : option locals :=
  match step [] l (Token (fst x) (snd x) 0 0) with
  | Next l' =>
      if length l'.(stderr) =? length l.(stderr) then Some l' else None
  | _ => None
  end.

Fixpoint psteps (l : locals) (xs : list (Tokens.t * str)) : option locals :=
  match xs with
  | [] => Some l
  | x :: xs' =>
      match pstep l x with
      | Some l' => psteps l' xs'
      | None => None
      end
  end.

(** The locals between two blocks, with no warning written. *)
Definition idle (res : document) : locals :=
  Locals res States.seek_file (bare []) [] (bare []) [] [] [].

(** An entry of [actual] as the parser reads it back. *)
Definition reparsed (a : actual_item) : actual_item :=
  match a with
  | Comment_line c => Comment_line (reindent "            " c)
  | Row r => Row r
  end.

Definition is_row (a : actual_item) : bool :=
  match a with
  | Comment_line _ => false
  | Row _ => true
  end.

(** The state after the entries [act] of [actual], from the state [s]. *)
Definition after_rows (s : States.t) (act : list actual_item) : States.t :=
  if existsb is_row act then States.start_actual_next else s.

(** A row holds a bare value with a double quote inside. *)
Definition embedded_quote_text : str :=
  unlines [ "file " ++ quoted "a.db" ++ " {";
            " pattern { X }" : str;
            " { a" ++ [dquote] ++ "b }";
            "}" : str ].

(** What the code writes for [embedded_quote_text]. *)
Definition embedded_quote_output : str :=
  unlines [ "file " ++ quoted "a.db" ++ " {";
            "    pattern { X     }" : str;
            "            { " ++ quoted ("a" ++ [dquote] ++ "b") ++ " }";
            "}" : str ].

(** The widths in the result of the first loop, if it raised nothing. *)
Definition widths_of (r : list actual_item * (exn + list nat)) : option (list nat) :=
  match r with
  | (_, inr widths) => Some widths
  | (_, inl _) => None
  end.

(** ** End-of-line comments in the streams of [get_token] *)

(** The kinds of the tokens that stand for text other than comments. *)
Definition ordinary (k : Tokens.t) : bool :=
  match k with
  | Tokens.comment | Tokens.eol_comment | Tokens.end_of_file => false
  | _ => true
  end.

(** Every end-of-line comment follows an ordinary token; [prev] tells
    whether the token before the list was ordinary. *)
Fixpoint eol_ok (prev : bool) (ts : list token) : Prop :=
  match ts with
  | [] => True
  | t :: ts' =>
      (t.(kind) = Tokens.eol_comment -> prev = true)
      /\ eol_ok (ordinary t.(kind)) ts'
  end.

(** What holds of the locals whatever the last token was. *)
Definition settled (l : locals) : Prop :=
  (l.(state) = States.start2 -> l.(l_template).(comment) = None)
  /\ (match l.(state) with
      | States.start1 | States.start2 | States.seek_pattern
      | States.start_formal | States.seek_name | States.post_name => True
      | _ => False
      end -> l.(l_formal).(comment) = None).

(** What holds of the locals after an ordinary token: the slot that an
    end-of-line comment would fill is there and empty. *)
Definition fresh (l : locals) : Prop :=
  match l.(state) with
  | States.seek_pattern => l.(l_template).(comment) = None
  | States.start_actual_first => l.(l_formal).(comment) = None
  | States.start_actual_next =>
      exists a row, l.(l_actual) = a ++ [Row (bare row)]
  | States.seek_file => exists r d, l.(result) = r ++ [Substitution d]
  | _ => True
  end.

(** A text with comments of every kind, bare values and stray commas. *)
Definition annotated_text : str :=
  unlines [ "# head" : str;
            "file a.db {  # template" : str;
            "  # about the block" : str;
            " pattern { X Y, }  # names" : str;
            "  # about the rows" : str;
            " { a" ++ [dquote] ++ ",, b#c }  # first";
            " { " ++ quoted "1, 2" ++ ", 3 }";
            "} # done" : str;
            "   # tail  " : str ].

(** A block whose closing brace has a comment behind it. *)
Definition closing_comment_text : str :=
  unlines [ "file " ++ quoted "a.db" ++ " {";
            " pattern { X }" : str;
            "} # end" : str ].

(** A row with a trailing comment of seventy characters. *)
Definition long_comment_text : str :=
  unlines [ "file " ++ quoted "a.db" ++ " {";
            " pattern { X }" : str;
            " { " ++ quoted "1"
            ++ " }  # 0123456789012345678901234567890123456789012345678901234567890123456789";
            "}" : str ].

(** What the code writes for [wide_text] with an indent of 4, a spacing of 2
    and a width of 60: the formal row is one line of 82 characters. *)
Definition wide_output : str :=
  unlines [ "file " ++ quoted "a.db" ++ " {";
            "    pattern { AAAAAAAAAAAAAAAAAAAA,  BBBBBBBBBBBBBBBBBBBB,  CCCCCCCCCCCCCCCCCCCC }" : str;
            "}" : str ].

(** ** Further notions *)

(** The text a token stands for in its line: the keyword or the punctuation
    mark, and the literal for the other kinds. *)
Definition surface (t : token) : str :=
  match t.(kind) with
  | Tokens.file => "file"
  | Tokens.pattern => "pattern"
  | Tokens.open_brace => "{"
  | Tokens.close_brace => "}"
  | Tokens.comma => ","
  | _ => t.(literal)
  end.

(** What [get_token] tells about the place of a token that it cut out of
    the rest of a line [rl]: the line number, and the column, counted from
    1, at which the text of the token starts. *)
Definition placed (rl : str) (n : nat) (t : token) : Prop :=
  t.(lineno) = n
  /\ t.(kind) <> Tokens.comment /\ t.(kind) <> Tokens.end_of_file
  /\ 1 <= t.(col)
  /\ startswith (skipn (t.(col) - 1) rl) (surface t) = true.

(** The same for a token of the line [line], a comment token included:
    [get_token] gives a comment token the column 0 and the line without its
    trailing white space. *)
Definition at_place (line : str) (t : token) : Prop :=
  match t.(kind) with
  | Tokens.comment => t.(col) = 0 /\ t.(literal) = rstrip line
  | _ => 1 <= t.(col)
         /\ startswith (skipn (t.(col) - 1) line) (surface t) = true
  end.

(** The message of the [ParseError] for a quoted value that is not closed. *)
Definition missing_quote (source_name : str) (n c : nat) : exn :=
  ParseError (located source_name n c ("value missing trailing " ++ [dquote])).

(** A text with a quoted value that is not closed in its line. *)
Definition open_quote_text : str :=
  unlines [ "file " ++ quoted "a.db" ++ " {";
            " pattern { X, Y }" : str;
            " { " ++ [dquote] ++ "A, B }";
            "}" : str ].

(** ** The braces *)

(** The states in which an opening brace starts the formal list or a row. *)
Definition before_brace (s : States.t) : bool :=
  match s with
  | States.start_formal | States.start_actual_first
  | States.start_actual_next => true
  | _ => false
  end.

(** The states of a block in which no name has been read. *)
Definition before_names (s : States.t) : bool :=
  match s with
  | States.start1 | States.start2 | States.seek_pattern
  | States.start_formal => true
  | _ => false
  end.

(** The formal list is empty as long as no name has been read. *)
Definition unnamed (l : locals) : Prop :=
  before_names l.(state) = true -> l.(l_formal).(item) = [].

(** The list that the parser is filling is still empty. *)
Definition opened (l : locals) : bool :=
  match l.(state) with
  | States.seek_name =>
      match l.(l_formal).(item) with [] => true | _ => false end
  | States.seek_value =>
      match l.(actual_row) with [] => true | _ => false end
  | _ => false
  end.

(** A comma or a closing brace. *)
Definition closes (k : Tokens.t) : bool :=
  match k with
  | Tokens.comma | Tokens.close_brace => true
  | _ => false
  end.

(** A block with an empty row. *)
Definition empty_row_text : str :=
  unlines [ "file " ++ quoted "a.db" ++ " {";
            " pattern { X }" : str;
            " { }" : str;
            "}" : str ].

(** ** Comment lines *)

(** The test of [get_token] for a line that is one comment token: the line
    is blank, or starts, after white space, with the hash sign. *)
Definition comment_line (line : str) : bool :=
  let temp := lstrip (rstrip line) in
  (length temp =? 0) || startswith temp "#".

(** ** The locals without the warnings *)

Definition forget (l : locals) : locals :=
  Locals l.(result) l.(state) l.(l_template) l.(l_comments) l.(l_formal)
         l.(l_actual) l.(actual_row) [].

(** The lists that the parser fills are not empty once an element has been
    read. *)
Definition filled (l : locals) : Prop :=
  (l.(state) = States.post_name -> l.(l_formal).(item) <> [])
  /\ (l.(state) = States.post_value -> l.(actual_row) <> []).

(** Two results that differ at most in the message of an exception. *)
Definition alike (a b : exn + document) : Prop :=
  match a, b with
  | inr d1, inr d2 => d1 = d2
  | inl _, inl _ => True
  | _, _ => False
  end.

(** The scenario with other blanks and line breaks. *)
Definition scenario_text_respaced : str :=
  unlines [ "file   " ++ quoted "a.db" : str;
            "{pattern{X,Y}" : str;
            "{" ++ quoted "1" ++ "," : str;
            quoted "2" ++ "}}" : str ].

(** ** Commas *)

(** The list that the parser is filling in the state [s]. *)
Definition filling (l : locals) : list str :=
  match l.(state) with
  | States.post_name | States.seek_name => l.(l_formal).(item)
  | _ => l.(actual_row)
  end.

(** The messages of the two warnings about commas, for the list of names
    ([names] is [true]) and for a row. *)
Definition missing_comma (names : bool) (last lit : str) : str :=
  (if names then "missing comma between macro names "
   else "missing comma between values ") ++ last ++ " and " ++ lit.

Definition extra_comma (names : bool) (last : str) : str :=
  (if names then "extra comma following macro name "
   else "extra comma following value ") ++ last ++ " removed".

Definition in_names (s : States.t) : bool :=
  match s with
  | States.post_name | States.seek_name => true
  | _ => false
  end.

(** The line that a warning about the token [tk] writes. *)
Definition warning_at (source_name : str) (tk : token) (msg : str) : str :=
  warning (located source_name tk.(lineno) tk.(col) msg).

(** The token that may follow an element of the list being filled. *)
Definition element (s : States.t) (k : Tokens.t) : bool :=
  match s, k with
  | States.post_name, Tokens.name => true
  | States.post_value, Tokens.name | States.post_value, Tokens.value => true
  | _, _ => false
  end.

(** The scenario with the commas left out, and with commas too many. *)
Definition scenario_without_commas : str :=
  unlines [ "file " ++ quoted "a.db" ++ " {";
            " pattern { X Y }" : str;
            " { " ++ quoted "1" ++ " " ++ quoted "2" ++ " }";
            "}" : str ].

Definition scenario_with_more_commas : str :=
  unlines [ "file " ++ quoted "a.db" ++ " {";
            " pattern { X,, Y, }" : str;
            " { " ++ quoted "1" ++ ", " ++ quoted "2" ++ ",, }";
            "}" : str ].

(** ** Lines of the output *)

(** The number of lines of a text that [print] wrote: the number of its
    newline characters. *)
Definition count_lines (text : str) : nat :=
  length (filter (fun a => ch_eqb a "010") text).

(** The [total] that the wrap-point loop reaches after the last column when
    it has marked no break. *)
Definition row_total (widths : list nat) (spacing : nat) : nat :=
  fold_left (fun total w => total + (w + spacing + 1)) widths 10.

(** A document with two blocks, the second of which has a row too short. *)
Definition second_block_short_text : str :=
  unlines [ "# head" : str;
            "file " ++ quoted "a.db" ++ " {";
            " pattern { X }" : str;
            " { 1 }" : str;
            "}" : str;
            "file " ++ quoted "b.db" ++ " {";
            " pattern { X, Y }" : str;
            " { 1 }" : str;
            "}" : str ].

(** ** Files *)

(** A directory with the file [a] and two backups of it. *)
Definition three_files : files :=
  fun p => if str_eqb p "a" then Some second_block_short_text
           else if str_eqb p "a.~" then Some ("one" : str)
           else if str_eqb p "a.1~" then Some ("two" : str)
           else None.

(** The events that are tracebacks. *)
Definition is_traceback (x : event) : bool :=
  match x with
  | Traceback _ => true
  | Warned _ => false
  end.

(** * Facts about the string primitives *)

Lemma ch_eqb_eq a b : ch_eqb a b = true <-> a = b.
Proof. apply Ascii.eqb_eq. Qed.

Lemma ch_eqb_refl a : ch_eqb a a = true.
Proof. apply Ascii.eqb_refl. Qed.

Lemma ch_eqb_neq a b : ch_eqb a b = false <-> a <> b.
Proof. apply Ascii.eqb_neq. Qed.

Lemma startswith_app p : forall s, startswith (p ++ s) p = true.
Proof.
  induction p as [|c p IH]; intros s; simpl; [reflexivity|].
  now rewrite ch_eqb_refl, IH.
Qed.

Lemma startswith_split : forall p s,
  startswith s p = true -> s = p ++ skipn (length p) s.
Proof.
  induction p as [|c p IH]; intros s H; simpl in *; [reflexivity|].
  destruct s as [|a s]; [discriminate|].
  apply andb_true_iff in H as [H1 H2]. apply ch_eqb_eq in H1. subst.
  simpl. f_equal. now apply IH.
Qed.

(** A prefix of a text starts with whatever the text starts with, as far
    as the prefix reaches; and the other way round. *)
Lemma startswith_prefix : forall p x y,
  startswith x p = true -> startswith (x ++ y) p = true.
Proof.
  induction p as [|c p IH]; intros x y H; simpl in *; [reflexivity|].
  destruct x as [|a x]; [discriminate|]. simpl.
  apply andb_true_iff in H as [H1 H2]. now rewrite H1, IH.
Qed.

Lemma lstrip_cons_nonspace c s : isspace c = false -> lstrip (c :: s) = c :: s.
Proof. intros H. simpl. now rewrite H. Qed.

Lemma lstrip_spaces n s : lstrip (spaces_of n ++ s) = lstrip s.
Proof. induction n as [|n IH]; simpl; auto. Qed.

Lemma lstrip_idem s : lstrip (lstrip s) = lstrip s.
Proof.
  induction s as [|c s IH]; simpl; [reflexivity|].
  destruct (isspace c) eqn:E; [exact IH|]. simpl. now rewrite E.
Qed.

Lemma lstrip_head s : match lstrip s with [] => True | c :: _ => isspace c = false end.
Proof.
  induction s as [|c s IH]; simpl; [exact I|].
  destruct (isspace c) eqn:E; [exact IH|exact E].
Qed.

Lemma lstrip_suffix s : exists ws, s = ws ++ lstrip s /\ forallb isspace ws = true.
Proof.
  induction s as [|c s (ws & E & H)]; simpl.
  - now exists [].
  - destruct (isspace c) eqn:Ec.
    + exists (c :: ws). simpl. rewrite Ec, H. split; [now f_equal|reflexivity].
    + now exists [].
Qed.

Lemma lstrip_all_space ws : forallb isspace ws = true -> lstrip ws = [].
Proof.
  induction ws as [|c ws IH]; simpl; [reflexivity|].
  intros H. apply andb_true_iff in H as [H1 H2]. rewrite H1. auto.
Qed.

Lemma lstrip_app_space ws s : forallb isspace ws = true -> lstrip (ws ++ s) = lstrip s.
Proof.
  induction ws as [|c ws IH]; simpl; [reflexivity|].
  intros H. apply andb_true_iff in H as [H1 H2]. rewrite H1. auto.
Qed.

Lemma rstrip_app x : forall y,
  rstrip (x ++ y) = match rstrip y with [] => rstrip x | _ => x ++ rstrip y end.
Proof.
  induction x as [|c x IH]; intros y; simpl.
  - now destruct (rstrip y).
  - rewrite IH. destruct (rstrip y) eqn:E; [reflexivity|].
    now destruct x.
Qed.

Lemma rstrip_single c : rstrip [c] = if isspace c then [] else [c].
Proof. reflexivity. Qed.

Lemma rstrip_all_space ws : forallb isspace ws = true -> rstrip ws = [].
Proof.
  induction ws as [|c ws IH]; simpl; [reflexivity|].
  intros H. apply andb_true_iff in H as [H1 H2]. now rewrite IH, H1.
Qed.

(** [rstrip] cuts a run of white space off the end. *)
Lemma rstrip_prefix s : exists ws, s = rstrip s ++ ws /\ forallb isspace ws = true.
Proof.
  induction s as [|c s (ws & E & H)]; simpl.
  - now exists [].
  - destruct (rstrip s) as [|d r] eqn:Er.
    + destruct (isspace c) eqn:Ec.
      * exists (c :: s). split; [reflexivity|]. simpl in E. subst ws.
        simpl. now rewrite Ec.
      * exists s. simpl in E. subst ws. now split.
    + exists ws. split; [|exact H]. simpl. f_equal. exact E.
Qed.

Lemma rstrip_last s :
  match rev (rstrip s) with [] => True | c :: _ => isspace c = false end.
Proof.
  induction s as [|c s IH]; simpl; [exact I|].
  destruct (rstrip s) as [|d r] eqn:Er.
  - destruct (isspace c) eqn:Ec; simpl; [exact I|exact Ec].
  - change (c :: d :: r) with ([c] ++ d :: r). rewrite rev_app_distr.
    destruct (rev (d :: r)) eqn:E; [|exact IH].
    apply (f_equal (@length _)) in E. rewrite length_rev in E. discriminate.
Qed.

(** A text whose last character is no white space is left alone. *)
Lemma rstrip_snoc x c : isspace c = false -> rstrip (x ++ [c]) = x ++ [c].
Proof. intros H. rewrite rstrip_app, rstrip_single, H. reflexivity. Qed.

Lemma rstrip_idem s : rstrip (rstrip s) = rstrip s.
Proof.
  pose proof (rstrip_last s) as H.
  destruct (rstrip s) as [|d r] eqn:E using rev_ind; [reflexivity|].
  rewrite rev_app_distr in H. simpl in H. now apply rstrip_snoc.
Qed.

(** After a text that [rstrip] leaves alone and that is not empty, [rstrip]
    works on what follows only. *)
Lemma rstrip_app_fixed x y :
  x <> [] -> rstrip x = x -> rstrip (x ++ y) = x ++ rstrip y.
Proof.
  intros Hne Hx. rewrite rstrip_app. destruct (rstrip y); [|reflexivity].
  now rewrite Hx, app_nil_r.
Qed.

Lemma rstrip_lstrip s : rstrip s = s -> rstrip (lstrip s) = lstrip s.
Proof.
  intros H. destruct (lstrip_suffix s) as (ws & E & Hws).
  remember (lstrip s) as t eqn:Et. clear Et. subst s.
  rewrite rstrip_app in H.
  destruct (rstrip t) as [|d r] eqn:Er.
  - rewrite rstrip_all_space in H by exact Hws.
    symmetry in H. apply app_eq_nil in H as [_ H]. now subst t.
  - now apply app_inv_head in H.
Qed.

Lemma rstrip_skipn n : forall s, rstrip s = s -> rstrip (skipn n s) = skipn n s.
Proof.
  intros s H. rewrite <- (firstn_skipn n s) in H.
  remember (firstn n s) as x eqn:Ex. remember (skipn n s) as y eqn:Ey.
  clear Ex Ey. rewrite rstrip_app in H.
  destruct (rstrip y) as [|d r] eqn:Er.
  - destruct (rstrip_prefix x) as (ws & E & Hws).
    rewrite E in H at 2. rewrite <- app_assoc in H.
    rewrite <- (app_nil_r (rstrip x)) in H at 1.
    apply app_inv_head in H. symmetry in H. apply app_eq_nil in H as [_ H].
    now rewrite H.
  - now apply app_inv_head in H.
Qed.

Lemma find_app_none c x y : find c x = None -> find c (x ++ y) = option_map (Nat.add (length x)) (find c y).
Proof.
  induction x as [|a x IH]; simpl.
  - intros _. now destruct (find c y).
  - destruct (ch_eqb a c); [discriminate|].
    destruct (find c x); [discriminate|]. intros _. rewrite IH by reflexivity.
    now destruct (find c y).
Qed.

Lemma find_none_forall c s : find c s = None <-> forallb (fun a => negb (ch_eqb a c)) s = true.
Proof.
  induction s as [|a s IH]; simpl; [tauto|].
  destruct (ch_eqb a c); simpl.
  - split; discriminate.
  - destruct (find c s); simpl; [split; [discriminate|]|tauto].
    intros H. apply IH in H. discriminate.
Qed.

Lemma find_some c : forall s i,
  find c s = Some i ->
  s = firstn i s ++ c :: skipn (S i) s /\ find c (firstn i s) = None /\ i < length s.
Proof.
  induction s as [|a s IH]; intros i; simpl; [discriminate|].
  destruct (ch_eqb a c) eqn:E.
  - intros H. inversion H; subst. apply ch_eqb_eq in E. subst.
    simpl. repeat split. lia.
  - destruct (find c s) as [k|] eqn:F; simpl; [|discriminate].
    intros H. inversion H; subst. destruct (IH k eq_refl) as (E1 & E2 & E3).
    simpl. rewrite E, E2. repeat split; [f_equal; exact E1|lia].
Qed.

Lemma find_or_len_le c s : find_or_len c s <= length s.
Proof.
  unfold find_or_len. destruct (find c s) eqn:E; [|lia].
  apply find_some in E. lia.
Qed.

Lemma forallb_firstn {A : Type} (P : A -> bool) n l :
  forallb P l = true -> forallb P (firstn n l) = true.
Proof.
  intros H. rewrite <- (firstn_skipn n l), forallb_app in H.
  now apply andb_true_iff in H as [H _].
Qed.

Lemma forallb_skipn {A : Type} (P : A -> bool) n l :
  forallb P l = true -> forallb P (skipn n l) = true.
Proof.
  intros H. rewrite <- (firstn_skipn n l), forallb_app in H.
  now apply andb_true_iff in H as [_ H].
Qed.

(** No [c] stands before the index [find_or_len c s]. *)
Lemma find_or_len_firstn c s n :
  n <= find_or_len c s -> find c (firstn n s) = None.
Proof.
  unfold find_or_len. destruct (find c s) as [i|] eqn:E; intros H.
  - destruct (find_some _ _ _ E) as (E1 & E2 & E3).
    apply find_none_forall. apply find_none_forall in E2.
    replace (firstn n s) with (firstn n (firstn i s)).
    + now apply forallb_firstn.
    + rewrite firstn_firstn. f_equal. lia.
  - apply find_none_forall. apply find_none_forall in E.
    now apply forallb_firstn.
Qed.

(** * The tokenizer *)

Lemma scan_0 source_name lineno size temp :
  scan 0 source_name lineno size temp = ([], None).
Proof. reflexivity. Qed.

Lemma scan_nil fuel source_name lineno size :
  scan fuel source_name lineno size [] = ([], None).
Proof. now destruct fuel. Qed.

(** One round of the loop. *)
Lemma scan_S fuel source_name lineno size c t :
  scan (S fuel) source_name lineno size (c :: t) =
  let temp := c :: t in
  let col := size - length temp in
  let continue_ temp := scan fuel source_name lineno size temp in
  if startswith temp "#" then
    yield (Token Tokens.eol_comment (rstrip temp) lineno col) ([], None)
  else if startswith temp "file" then
    yield (Token Tokens.file [] lineno col) (continue_ (lstrip (skipn 4 temp)))
  else if startswith temp "pattern" then
    yield (Token Tokens.pattern [] lineno col) (continue_ (lstrip (skipn 7 temp)))
  else if startswith temp "{" then
    yield (Token Tokens.open_brace [] lineno col) (continue_ (lstrip (skipn 1 temp)))
  else if startswith temp "}" then
    yield (Token Tokens.close_brace [] lineno col) (continue_ (lstrip (skipn 1 temp)))
  else if startswith temp "," then
    yield (Token Tokens.comma [] lineno col) (continue_ (lstrip (skipn 1 temp)))
  else if startswith temp [dquote] then
    match find dquote (skipn 1 temp) with
    | None =>
        ([], Some (ParseError (located source_name lineno col
                                 ("value missing trailing " ++ [dquote]))))
    | Some q1 =>
        let q := q1 + 1 + 1 in
        yield (Token Tokens.value (firstn q temp) lineno col)
              (continue_ (lstrip (skipn q temp)))
    end
  else
    let a := Nat.min (Nat.min (find_or_len "," temp) (find_or_len "{" temp))
                     (Nat.min (find_or_len "}" temp) (find_or_len " " temp)) in
    let text := rstrip (firstn a temp) in
    let tk := if forallb name_char text then Tokens.name else Tokens.value in
    yield (Token tk text lineno col) (continue_ (lstrip (skipn a temp))).
Proof. reflexivity. Qed.

Lemma plain_yield t s : plain (yield t s) = pcons (kl t) (plain s).
Proof. reflexivity. Qed.

(** The kinds and literals do not depend on the source name, the line
    number or the line size. *)
Lemma plain_scan : forall fuel source_name lineno size temp,
  plain (scan fuel source_name lineno size temp) = plain (scan fuel [] 0 0 temp).
Proof.
  induction fuel as [|fuel IH]; intros source_name lineno size temp;
    [reflexivity|].
  destruct temp as [|c t]; [reflexivity|].
  rewrite !scan_S. cbv zeta.
  repeat match goal with
         | |- context [if ?b then _ else _] => destruct b
         end; rewrite ?plain_yield; try (rewrite IH; reflexivity);
    try reflexivity.
  destruct (find dquote _); [|reflexivity].
  rewrite !plain_yield. now rewrite IH.
Qed.

Lemma length_lstrip s : length (lstrip s) <= length s.
Proof.
  induction s as [|c s IH]; simpl; [lia|].
  destruct (isspace c); simpl; lia.
Qed.

Lemma length_lstrip_skipn k s : 0 < k -> s <> [] -> length (lstrip (skipn k s)) < length s.
Proof.
  intros Hk Hs. pose proof (length_lstrip (skipn k s)) as H.
  rewrite length_skipn in H. destruct s as [|a s]; [congruence|].
  cbn [length] in *. lia.
Qed.

Lemma find_or_len_cons_pos d c t : ch_eqb c d = false -> 0 < find_or_len d (c :: t).
Proof.
  intros H. unfold find_or_len. simpl. rewrite H.
  destruct (find d t); simpl; lia.
Qed.

Lemma startswith_single c d t : startswith (c :: t) [d] = ch_eqb c d.
Proof. simpl. now rewrite andb_true_r. Qed.

Lemma space_isspace c : ch_eqb c " " = true -> isspace c = true.
Proof. intros H. apply ch_eqb_eq in H. now subst. Qed.

(** The bare branch cuts at least one character. *)
Lemma bare_cut_pos c t :
  isspace c = false ->
  startswith (c :: t) "{" = false ->
  startswith (c :: t) "}" = false ->
  startswith (c :: t) "," = false ->
  0 < Nat.min (Nat.min (find_or_len "," (c :: t)) (find_or_len "{" (c :: t)))
              (Nat.min (find_or_len "}" (c :: t)) (find_or_len " " (c :: t))).
Proof.
  intros Hs H1 H2 H3.
  change (startswith (c :: t) "{") with (startswith (c :: t) ["{"%char]) in H1.
  change (startswith (c :: t) "}") with (startswith (c :: t) ["}"%char]) in H2.
  change (startswith (c :: t) ",") with (startswith (c :: t) [","%char]) in H3.
  rewrite startswith_single in H1, H2, H3.
  assert (H4 : ch_eqb c " " = false).
  { destruct (ch_eqb c " ") eqn:E; [|reflexivity].
    apply space_isspace in E. congruence. }
  pose proof (find_or_len_cons_pos _ _ t H1).
  pose proof (find_or_len_cons_pos _ _ t H2).
  pose proof (find_or_len_cons_pos _ _ t H3).
  pose proof (find_or_len_cons_pos _ _ t H4).
  lia.
Qed.

Lemma lstrip_fixed_head c t : lstrip (c :: t) = c :: t -> isspace c = false.
Proof.
  simpl. destruct (isspace c) eqn:E; [|reflexivity].
  intros H. pose proof (length_lstrip t) as L. rewrite H in L. simpl in L. lia.
Qed.

(** [length temp] rounds are enough: more fuel changes nothing. *)
Lemma scan_fuel : forall f1 f2 source_name lineno size temp,
  length temp <= f1 -> length temp <= f2 -> lstrip temp = temp ->
  scan f1 source_name lineno size temp = scan f2 source_name lineno size temp.
Proof.
  induction f1 as [|f1 IH]; intros f2 source_name lineno size temp H1 H2 Hl.
  - destruct temp; [|simpl in H1; lia]. now rewrite !scan_nil.
  - destruct temp as [|c t]; [now rewrite !scan_nil|].
    destruct f2 as [|f2]; [simpl in H2; lia|].
    pose proof (lstrip_fixed_head _ _ Hl) as Hc.
    assert (Hrec : forall k, 0 < k ->
              scan f1 source_name lineno size (lstrip (skipn k (c :: t)))
              = scan f2 source_name lineno size (lstrip (skipn k (c :: t)))).
    { intros k Hk. pose proof (length_lstrip_skipn k (c :: t) Hk) as L.
      apply IH; try apply lstrip_idem;
        (assert (c :: t <> []) as Hne by discriminate; specialize (L Hne);
         cbn [length] in *; lia). }
    rewrite !scan_S. cbv zeta.
    destruct (startswith (c :: t) "#"); [reflexivity|].
    destruct (startswith (c :: t) "file"); [now rewrite Hrec by lia|].
    destruct (startswith (c :: t) "pattern"); [now rewrite Hrec by lia|].
    destruct (startswith (c :: t) "{") eqn:E1; [now rewrite Hrec by lia|].
    destruct (startswith (c :: t) "}") eqn:E2; [now rewrite Hrec by lia|].
    destruct (startswith (c :: t) ",") eqn:E3; [now rewrite Hrec by lia|].
    destruct (startswith (c :: t) [dquote]).
    + destruct (find dquote _); [|reflexivity]. now rewrite Hrec by lia.
    + rewrite Hrec; [reflexivity|]. now apply bare_cut_pos.
Qed.

(** ** The tokens of the rest of a line, without positions *)

Lemma lex_nil : lex [] = ([], false).
Proof. reflexivity. Qed.

Lemma lex_rec k c t :
  0 < k ->
  plain (scan (length t) [] 0 0 (lstrip (skipn k (c :: t))))
  = lex (lstrip (skipn k (c :: t))).
Proof.
  intros Hk. unfold lex. f_equal. apply scan_fuel.
  - pose proof (length_lstrip_skipn k (c :: t) Hk) as L.
    assert (c :: t <> []) as Hne by discriminate. specialize (L Hne).
    cbn [length] in L. lia.
  - lia.
  - apply lstrip_idem.
Qed.

(** One round of the loop, for a rest that starts with no white space. *)
Lemma lex_unfold c t :
  isspace c = false ->
  lex (c :: t) =
  let temp := c :: t in
  if startswith temp "#" then ([(Tokens.eol_comment, rstrip temp)], false)
  else if startswith temp "file" then
    pcons (Tokens.file, []) (lex (lstrip (skipn 4 temp)))
  else if startswith temp "pattern" then
    pcons (Tokens.pattern, []) (lex (lstrip (skipn 7 temp)))
  else if startswith temp "{" then
    pcons (Tokens.open_brace, []) (lex (lstrip (skipn 1 temp)))
  else if startswith temp "}" then
    pcons (Tokens.close_brace, []) (lex (lstrip (skipn 1 temp)))
  else if startswith temp "," then
    pcons (Tokens.comma, []) (lex (lstrip (skipn 1 temp)))
  else if startswith temp [dquote] then
    match find dquote t with
    | None => ([], true)
    | Some q1 =>
        pcons (Tokens.value, firstn (q1 + 1 + 1) temp)
              (lex (lstrip (skipn (q1 + 1 + 1) temp)))
    end
  else
    let a := Nat.min (Nat.min (find_or_len "," temp) (find_or_len "{" temp))
                     (Nat.min (find_or_len "}" temp) (find_or_len " " temp)) in
    let text := rstrip (firstn a temp) in
    let tk := if forallb name_char text then Tokens.name else Tokens.value in
    pcons (tk, text) (lex (lstrip (skipn a temp))).
Proof.
  intros Hc. unfold lex at 1. cbn [length]. rewrite scan_S. cbv zeta.
  destruct (startswith (c :: t) "#"); [reflexivity|].
  destruct (startswith (c :: t) "file");
    [rewrite plain_yield, lex_rec by lia; reflexivity|].
  destruct (startswith (c :: t) "pattern");
    [rewrite plain_yield, lex_rec by lia; reflexivity|].
  destruct (startswith (c :: t) "{") eqn:E1;
    [rewrite plain_yield, lex_rec by lia; reflexivity|].
  destruct (startswith (c :: t) "}") eqn:E2;
    [rewrite plain_yield, lex_rec by lia; reflexivity|].
  destruct (startswith (c :: t) ",") eqn:E3;
    [rewrite plain_yield, lex_rec by lia; reflexivity|].
  destruct (startswith (c :: t) [dquote]).
  - change (skipn 1 (c :: t)) with t.
    destruct (find dquote t); [|reflexivity].
    rewrite plain_yield, lex_rec by lia. reflexivity.
  - rewrite plain_yield, lex_rec; [reflexivity|]. now apply bare_cut_pos.
Qed.

Lemma lex_hash t : lex ("#"%char :: t) = ([(Tokens.eol_comment, rstrip ("#"%char :: t))], false).
Proof. now rewrite lex_unfold. Qed.

Lemma lex_file r : lex ("file" ++ r) = pcons (Tokens.file, []) (lex (lstrip r)).
Proof. cbn [list_ascii_of_string app]. now rewrite lex_unfold. Qed.

Lemma lex_pattern r : lex ("pattern" ++ r) = pcons (Tokens.pattern, []) (lex (lstrip r)).
Proof. cbn [list_ascii_of_string app]. now rewrite lex_unfold. Qed.

Lemma lex_open_brace r : lex ("{" ++ r) = pcons (Tokens.open_brace, []) (lex (lstrip r)).
Proof. cbn [list_ascii_of_string app]. now rewrite lex_unfold. Qed.

Lemma lex_close_brace r : lex ("}" ++ r) = pcons (Tokens.close_brace, []) (lex (lstrip r)).
Proof. cbn [list_ascii_of_string app]. now rewrite lex_unfold. Qed.

Lemma lex_comma r : lex ("," ++ r) = pcons (Tokens.comma, []) (lex (lstrip r)).
Proof. cbn [list_ascii_of_string app]. now rewrite lex_unfold. Qed.

Lemma firstn_app_exact {A : Type} (x y : list A) : firstn (length x) (x ++ y) = x.
Proof. rewrite firstn_app, Nat.sub_diag, firstn_all. simpl. apply app_nil_r. Qed.

Lemma skipn_app_exact {A : Type} (x y : list A) : skipn (length x) (x ++ y) = y.
Proof. rewrite skipn_app, Nat.sub_diag, skipn_all. reflexivity. Qed.

(** A value between double quotes is one token, whatever follows. *)
Lemma lex_quoted body r :
  find dquote body = None ->
  lex (quoted body ++ r) = pcons (Tokens.value, quoted body) (lex (lstrip r)).
Proof.
  intros H. unfold quoted. cbn [app]. rewrite lex_unfold by reflexivity.
  cbv zeta. cbn [startswith ch_eqb].
  change (Ascii.eqb dquote "#") with false.
  change (Ascii.eqb dquote "f") with false.
  change (Ascii.eqb dquote "p") with false.
  change (Ascii.eqb dquote "{") with false.
  change (Ascii.eqb dquote "}") with false.
  change (Ascii.eqb dquote ",") with false.
  rewrite Ascii.eqb_refl. cbn [andb].
  rewrite <- app_assoc. rewrite find_app_none by exact H.
  cbn [app find]. rewrite ch_eqb_refl. cbn [option_map].
  rewrite Nat.add_0_r.
  replace (dquote :: body ++ dquote :: r) with ((dquote :: body ++ [dquote]) ++ r)
    by (cbn [app]; rewrite <- app_assoc; reflexivity).
  replace (length body + 1 + 1) with (length (dquote :: body ++ [dquote]))
    by (cbn [length]; rewrite length_app; cbn [length]; lia).
  now rewrite firstn_app_exact, skipn_app_exact.
Qed.

(** ** Words *)

Lemma delimiter_cases d :
  delimiter d = true -> d = ","%char \/ d = "{"%char \/ d = "}"%char \/ d = " "%char.
Proof.
  unfold delimiter. cbn [list_ascii_of_string existsb].
  rewrite !orb_true_iff, !ch_eqb_eq. intuition discriminate.
Qed.

Lemma delimiter_false d :
  delimiter d = false ->
  ch_eqb d "," = false /\ ch_eqb d "{" = false /\ ch_eqb d "}" = false
  /\ ch_eqb d " " = false.
Proof.
  unfold delimiter. cbn [list_ascii_of_string existsb].
  rewrite !orb_false_iff. tauto.
Qed.

Lemma no_delimiter_find w d :
  forallb (fun a => negb (delimiter a)) w = true ->
  delimiter d = true -> find d w = None.
Proof.
  intros Hw Hd. apply find_none_forall.
  rewrite forallb_forall in *. intros a Ha. specialize (Hw a Ha).
  destruct (ch_eqb a d) eqn:E; [|reflexivity].
  apply ch_eqb_eq in E. subst. now rewrite Hd in Hw.
Qed.

Lemma startswith_app_short p : forall w r,
  startswith (w ++ r) p = true ->
  startswith w p = true \/ exists d r', r = d :: r' /\ In d p.
Proof.
  induction p as [|b p IH]; intros w r H; [now left|].
  destruct w as [|a w].
  - cbn [app] in H. destruct r as [|d r']; [discriminate|].
    simpl in H. apply andb_true_iff in H as [H _]. apply ch_eqb_eq in H. subst.
    right. exists b, r'. split; [reflexivity|now left].
  - simpl in H. apply andb_true_iff in H as [H1 H2].
    destruct (IH w r H2) as [Hw|(d & r' & E & Hin)].
    + left. simpl. now rewrite H1, Hw.
    + right. exists d, r'. split; [exact E|now right].
Qed.

Lemma rstrip_fixed w :
  match rev w with d :: _ => negb (isspace d) | [] => false end = true ->
  rstrip w = w.
Proof.
  destruct w as [|a w] using rev_ind; [discriminate|].
  rewrite rev_app_distr. simpl. intros H. apply negb_true_iff in H.
  now apply rstrip_snoc.
Qed.

Lemma word_cut w r :
  forallb (fun a => negb (delimiter a)) w = true ->
  follows_word r ->
  Nat.min (Nat.min (find_or_len "," (w ++ r)) (find_or_len "{" (w ++ r)))
          (Nat.min (find_or_len "}" (w ++ r)) (find_or_len " " (w ++ r)))
  = length w.
Proof.
  intros Hw Hr.
  assert (Hge : forall d, delimiter d = true ->
                 find_or_len d (w ++ r)
                 = length w + find_or_len d r).
  { intros d Hd. unfold find_or_len.
    rewrite find_app_none by now apply no_delimiter_find.
    destruct (find d r); simpl; [reflexivity|]. now rewrite length_app. }
  rewrite !Hge by reflexivity.
  destruct Hr as [-> | (d & r' & -> & Hd)].
  - unfold find_or_len. simpl. lia.
  - apply delimiter_cases in Hd.
    unfold find_or_len. cbn [find].
    destruct Hd as [-> | [-> | [-> | ->]]]; cbn [ch_eqb Ascii.eqb Bool.eqb];
      repeat match goal with
             | |- context [option_map S ?x] => destruct x; cbn [option_map]
             end; cbn [length]; lia.
Qed.

(** A word is one token when the line ends after it or a delimiter follows. *)
Lemma lex_word w r :
  word w = true -> follows_word r ->
  lex (w ++ r) = pcons (word_kind w, w) (lex (lstrip r)).
Proof.
  intros Hw Hr. destruct w as [|c w']; [discriminate|].
  unfold word in Hw. repeat (apply andb_true_iff in Hw as [Hw ?]).
  rewrite negb_true_iff in *.
  assert (Hc : delimiter c = false).
  { match goal with H : forallb _ (c :: w') = true |- _ =>
      simpl in H; apply andb_true_iff in H as [H _];
      now apply negb_true_iff in H end. }
  destruct (delimiter_false _ Hc) as (D1 & D2 & D3 & D4).
  assert (Hnot : forall p, startswith (c :: w') p = false ->
                   (forall d, In d p -> delimiter d = false) ->
                   startswith ((c :: w') ++ r) p = false).
  { intros p Hp Hd. destruct (startswith ((c :: w') ++ r) p) eqn:E; [|reflexivity].
    apply startswith_app_short in E as [E|(d & r' & -> & Hin)]; [congruence|].
    destruct Hr as [Hr|(d' & r'' & Hr & Hd')]; [discriminate|].
    inversion Hr; subst. rewrite (Hd _ Hin) in Hd'. discriminate. }
  cbn [app]. rewrite lex_unfold by assumption. cbv zeta.
  change (startswith (c :: w' ++ r) "#") with (ch_eqb c "#" && true).
  change (startswith (c :: w' ++ r) "{") with (ch_eqb c "{" && true).
  change (startswith (c :: w' ++ r) "}") with (ch_eqb c "}" && true).
  change (startswith (c :: w' ++ r) ",") with (ch_eqb c "," && true).
  change (startswith (c :: w' ++ r) [dquote]) with (ch_eqb c dquote && true).
  rewrite D1, D2, D3.
  match goal with H : ch_eqb c "#" = false |- _ => rewrite H end.
  match goal with H : ch_eqb c dquote = false |- _ => rewrite H end.
  cbn [andb].
  change (c :: w' ++ r) with ((c :: w') ++ r).
  rewrite (Hnot "file"), (Hnot "pattern"); try assumption;
    try (intros d Hd; cbn in Hd;
         repeat (destruct Hd as [<-|Hd]; [reflexivity|]); destruct Hd).
  rewrite word_cut by assumption.
  rewrite firstn_app_exact, skipn_app_exact, rstrip_fixed by assumption.
  reflexivity.
Qed.

(** ** The literals of the tokens *)

Lemma nolb_app x y : nolb (x ++ y) = nolb x && nolb y.
Proof. apply forallb_app. Qed.

Lemma nolb_lstrip s : nolb s = true -> nolb (lstrip s) = true.
Proof.
  intros H. destruct (lstrip_suffix s) as (ws & E & _).
  rewrite E, nolb_app in H. now apply andb_true_iff in H as [_ H].
Qed.

Lemma nolb_rstrip s : nolb s = true -> nolb (rstrip s) = true.
Proof.
  intros H. destruct (rstrip_prefix s) as (ws & E & _).
  rewrite E, nolb_app in H. now apply andb_true_iff in H as [H _].
Qed.

Lemma nolb_skipn n s : nolb s = true -> nolb (skipn n s) = true.
Proof. apply forallb_skipn. Qed.

Lemma nolb_firstn n s : nolb s = true -> nolb (firstn n s) = true.
Proof. apply forallb_firstn. Qed.

Lemma rstrip_cons_nonspace c s :
  isspace c = false -> exists s', rstrip (c :: s) = c :: s'.
Proof. intros H. simpl. rewrite H. destruct (rstrip s); eauto. Qed.

Lemma no_delimiter_of_finds x :
  find "," x = None -> find "{" x = None -> find "}" x = None ->
  find " " x = None ->
  forallb (fun a => negb (delimiter a)) x = true.
Proof.
  rewrite !find_none_forall, !forallb_forall. intros H1 H2 H3 H4 a Ha.
  specialize (H1 a Ha). specialize (H2 a Ha). specialize (H3 a Ha).
  specialize (H4 a Ha). unfold delimiter.
  cbn [list_ascii_of_string existsb].
  apply negb_true_iff in H1, H2, H3, H4. now rewrite H1, H2, H3, H4.
Qed.

Lemma startswith_false_prefix p x y :
  startswith (x ++ y) p = false -> startswith x p = false.
Proof.
  intros H. destruct (startswith x p) eqn:E; [|reflexivity].
  now rewrite (startswith_prefix _ _ y E) in H.
Qed.

(** What the bare branch cuts out is a word. *)
Lemma bare_text_word c t :
  let temp := c :: t in
  let a := Nat.min (Nat.min (find_or_len "," temp) (find_or_len "{" temp))
                   (Nat.min (find_or_len "}" temp) (find_or_len " " temp)) in
  isspace c = false -> nolb temp = true ->
  startswith temp "#" = false -> startswith temp "file" = false ->
  startswith temp "pattern" = false -> startswith temp "{" = false ->
  startswith temp "}" = false -> startswith temp "," = false ->
  startswith temp [dquote] = false ->
  word (rstrip (firstn a temp)) = true.
Proof.
  intros temp a Hc Hlb H1 H2 H3 H4 H5 H6 H7.
  assert (Ha : 0 < a) by now apply bare_cut_pos.
  destruct a as [|a'] eqn:Ea; [lia|].
  assert (Hdel : forallb (fun x => negb (delimiter x)) (firstn (S a') temp) = true).
  { apply no_delimiter_of_finds; apply find_or_len_firstn; fold temp; lia. }
  destruct (rstrip_prefix (firstn (S a') temp)) as (ws & E & Hws).
  assert (Etemp : temp = rstrip (firstn (S a') temp) ++ (ws ++ skipn (S a') temp)).
  { rewrite app_assoc, <- E. symmetry. apply firstn_skipn. }
  pose proof (rstrip_last (firstn (S a') temp)) as Hlast.
  assert (Hlbx : nolb (firstn (S a') temp) = true) by now apply nolb_firstn.
  rewrite E in Hdel. rewrite forallb_app in Hdel.
  apply andb_true_iff in Hdel as [Hdel _].
  apply nolb_rstrip in Hlbx.
  rewrite Etemp in H2, H3. apply startswith_false_prefix in H2, H3.
  unfold temp in *. cbn [firstn] in *.
  destruct (rstrip_cons_nonspace c (firstn a' t) Hc) as (s' & Es).
  rewrite Es in *. unfold word.
  change (startswith (c :: t) "#") with (ch_eqb c "#" && true) in H1.
  change (startswith (c :: t) [dquote]) with (ch_eqb c dquote && true) in H7.
  rewrite andb_true_r in H1, H7.
  rewrite Hc, H1, H7, H2, H3, Hdel, Hlbx. cbn [negb andb].
  destruct (rev (c :: s')) eqn:Er.
  - apply (f_equal (@length _)) in Er. rewrite length_rev in Er. discriminate.
  - now rewrite Hlast.
Qed.

Lemma quoted_cut t q1 :
  find dquote t = Some q1 ->
  firstn (q1 + 1 + 1) (dquote :: t) = quoted (firstn q1 t)
  /\ find dquote (firstn q1 t) = None.
Proof.
  intros H. destruct (find_some _ _ _ H) as (E & Hn & Hlt). split; [|exact Hn].
  replace (q1 + 1 + 1) with (S (S q1)) by lia. rewrite firstn_cons. unfold quoted.
  f_equal.
  assert (L : length (firstn q1 t) = q1) by (apply firstn_length_le; lia).
  remember (firstn q1 t) as b eqn:Eb. remember (skipn (S q1) t) as rest eqn:Erest.
  clear Eb Erest Hn H. subst t q1.
  replace (S (length b)) with (length b + 1) by lia.
  rewrite firstn_app_2. reflexivity.
Qed.

Lemma scan_wf : forall fuel source_name lineno size temp,
  nolb temp = true -> rstrip temp = temp -> lstrip temp = temp ->
  Forall wf_token (fst (scan fuel source_name lineno size temp)).
Proof.
  induction fuel as [|fuel IH]; intros source_name lineno size temp Hlb Hr Hl;
    [constructor|].
  destruct temp as [|c t]; [constructor|].
  pose proof (lstrip_fixed_head _ _ Hl) as Hc.
  assert (Hrec : forall k,
            Forall wf_token
              (fst (scan fuel source_name lineno size (lstrip (skipn k (c :: t)))))).
  { intros k. apply IH.
    - now apply nolb_lstrip, nolb_skipn.
    - now apply rstrip_lstrip, rstrip_skipn.
    - apply lstrip_idem. }
  rewrite scan_S. cbv zeta.
  destruct (startswith (c :: t) "#") eqn:E0.
  { constructor; [|constructor]. red. cbn [kind literal]. rewrite Hr.
    repeat split; auto. }
  destruct (startswith (c :: t) "file") eqn:E1;
    [constructor; [reflexivity|apply Hrec]|].
  destruct (startswith (c :: t) "pattern") eqn:E2;
    [constructor; [reflexivity|apply Hrec]|].
  destruct (startswith (c :: t) "{") eqn:E3;
    [constructor; [reflexivity|apply Hrec]|].
  destruct (startswith (c :: t) "}") eqn:E4;
    [constructor; [reflexivity|apply Hrec]|].
  destruct (startswith (c :: t) ",") eqn:E5;
    [constructor; [reflexivity|apply Hrec]|].
  destruct (startswith (c :: t) [dquote]) eqn:E6.
  - change (skipn 1 (c :: t)) with t.
    destruct (find dquote t) as [q1|] eqn:F; [|constructor].
    constructor; [|apply Hrec].
    rewrite startswith_single in E6. apply ch_eqb_eq in E6. subst c.
    destruct (quoted_cut _ _ F) as (Eq & Hn).
    red. cbn [kind literal]. left. exists (firstn q1 t). repeat split; auto.
    apply nolb_firstn. change (nolb ([dquote] ++ t) = true) in Hlb.
    rewrite nolb_app in Hlb. now apply andb_true_iff in Hlb as [_ Hlb].
  - constructor; [|apply Hrec].
    pose proof (bare_text_word c t Hc Hlb E0 E1 E2 E3 E4 E5 E6) as Hw.
    cbv zeta in Hw. red. cbn [kind literal].
    destruct (forallb name_char _) eqn:En; cbn [kind]; [now split|now right].
Qed.

(** ** Lines *)

Lemma splitlines_plain c t :
  is_linebreak c = false ->
  splitlines (c :: t)
  = match splitlines t with [] => [[c]] | l :: ls => (c :: l) :: ls end.
Proof. intros H. simpl. now rewrite H. Qed.

Lemma splitlines_break c t :
  is_linebreak c = true ->
  exists t', splitlines (c :: t) = [] :: splitlines t' /\ length t' <= length t.
Proof.
  intros H. simpl. rewrite H. destruct t as [|d t'].
  - exists []. split; [reflexivity|simpl; lia].
  - destruct (ch_eqb c "013" && ch_eqb d "010").
    + exists t'. split; [reflexivity|simpl; lia].
    + exists (d :: t'). split; [reflexivity|simpl; lia].
Qed.

Lemma splitlines_nl t : splitlines (nl ++ t) = [] :: splitlines t.
Proof. unfold nl. cbn [app]. simpl. destruct t; reflexivity. Qed.

Lemma splitlines_nolb : forall n s, length s <= n ->
  Forall (fun l => nolb l = true) (splitlines s).
Proof.
  induction n as [|n IH]; intros s Hn.
  - destruct s; [constructor|simpl in Hn; lia].
  - destruct s as [|c t]; [constructor|]. simpl in Hn.
    destruct (is_linebreak c) eqn:E.
    + destruct (splitlines_break c t E) as (t' & -> & L).
      constructor; [reflexivity|]. apply IH. lia.
    + rewrite splitlines_plain by exact E.
      assert (H : Forall (fun l => nolb l = true) (splitlines t)) by (apply IH; lia).
      destruct (splitlines t) as [|l ls].
      * constructor; [|constructor]. simpl. now rewrite E.
      * inversion H; subst. constructor; [|assumption]. simpl. now rewrite E.
Qed.

(** Before a text, a piece without line boundaries joins the first line. *)
Lemma splitlines_app x : forall t,
  nolb x = true ->
  splitlines (x ++ t)
  = match splitlines t with
    | [] => match x with [] => [] | _ => [x] end
    | l :: ls => (x ++ l) :: ls
    end.
Proof.
  induction x as [|c x IH]; intros t H.
  - simpl. now destruct (splitlines t).
  - simpl in H. apply andb_true_iff in H as [Hc Hx]. apply negb_true_iff in Hc.
    cbn [app]. rewrite splitlines_plain by exact Hc. rewrite IH by exact Hx.
    destruct (splitlines t); [now destruct x|reflexivity].
Qed.

Lemma first_line_app x t :
  nolb x = true ->
  hd [] (splitlines (x ++ t)) = x ++ hd [] (splitlines t).
Proof.
  intros H. rewrite splitlines_app by exact H.
  destruct (splitlines t); [|reflexivity].
  destruct x; simpl; [reflexivity|now rewrite app_nil_r].
Qed.

Lemma other_lines_app x t :
  nolb x = true ->
  tl (splitlines (x ++ t)) = tl (splitlines t).
Proof.
  intros H. rewrite splitlines_app by exact H.
  destruct (splitlines t); [now destruct x|reflexivity].
Qed.

Lemma line_tokens_wf source_name lineno line :
  nolb line = true ->
  Forall wf_token (fst (fst (line_tokens source_name lineno line))).
Proof.
  intros H. unfold line_tokens.
  destruct (_ || _) eqn:E; cbn [fst].
  - constructor; [|constructor]. red. cbn [kind literal].
    repeat split; [now apply nolb_rstrip|apply rstrip_idem|].
    apply orb_true_iff in E as [E|E]; [left|now right].
    apply Nat.eqb_eq in E. now destruct (lstrip (rstrip line)).
  - apply scan_wf.
    + now apply nolb_lstrip, nolb_rstrip.
    + apply rstrip_lstrip, rstrip_idem.
    + apply lstrip_idem.
Qed.

Lemma lines_tokens_wf : forall lines source_name lineno col0,
  Forall (fun l => nolb l = true) lines ->
  Forall wf_token (fst (lines_tokens source_name lineno col0 lines)).
Proof.
  induction lines as [|line lines IH]; intros source_name lineno col0 H.
  - constructor; [reflexivity|constructor].
  - inversion H; subst. simpl.
    pose proof (line_tokens_wf source_name (lineno + 1) line) as Hl.
    destruct (line_tokens source_name (lineno + 1) line) as [[ts [e|]] c];
      cbn [fst] in *; [now apply Hl|].
    apply Forall_app. split; [now apply Hl|now apply IH].
Qed.

(** Every token of [get_token] carries a literal of the shape of its kind. *)
Lemma get_token_wf source_name text :
  Forall wf_token (fst (get_token source_name text)).
Proof.
  apply lines_tokens_wf. apply (splitlines_nolb (length text)). lia.
Qed.

(** * Properties of the parser's transition table *)

Lemma steps_app source_name ts1 : forall l ts2,
  steps source_name l (ts1 ++ ts2) =
  match steps source_name l ts1 with
  | Some l' => steps source_name l' ts2
  | None => None
  end.
Proof.
  induction ts1 as [|tk ts1 IH]; intros l ts2; simpl; [reflexivity|].
  destruct (step source_name l tk); auto.
Qed.

Lemma run_steps source_name ts1 : forall l l' ts2 tail,
  steps source_name l ts1 = Some l' ->
  run source_name l (ts1 ++ ts2) tail = run source_name l' ts2 tail.
Proof.
  induction ts1 as [|tk ts1 IH]; intros l l' ts2 tail H; simpl in *.
  - now inversion H.
  - destruct (step source_name l tk); try discriminate. now apply IH.
Qed.

Lemma step_unenumerated source_name l tk :
  enumerated l.(state) tk.(kind) = false ->
  step source_name l tk = Raise (ParseError (unexpected source_name l.(state) tk)).
Proof.
  unfold step, unexpected.
  destruct (state l), (kind tk); simpl; intros H; try discriminate H; reflexivity.
Qed.

(** An enumerated pair never raises the error of the final [else]. *)
Lemma step_enumerated source_name l tk msg :
  enumerated l.(state) tk.(kind) = true ->
  step source_name l tk <> Raise (ParseError msg).
Proof.
  unfold step.
  destruct (state l), (kind tk); simpl; intros H; try discriminate H;
    repeat match goal with
           | |- context [match ?x with _ => _ end] => destruct x
           end; discriminate.
Qed.

(** C6.  For every token stream: when the loop of [process_source] has
    consumed the tokens [ts1] and the next token [tk] forms, with the state
    reached, a pair that the transition table does not enumerate, the call
    raises [ParseError] with the source name, the line and column of [tk]
    and the names of the state and of the token, whatever follows [tk]; the
    pair is not skipped. *)
Theorem C6_unenumerated_pair_raises_ParseError :
  forall source_name ts1 tk ts2 tail l,
    steps source_name initial ts1 = Some l ->
    enumerated l.(state) tk.(kind) = false ->
    run source_name initial (ts1 ++ tk :: ts2) tail =
    (l.(stderr),
     inl (ParseError
            (source_name ++ ":" ++ str_of_nat tk.(lineno) ++ ":"
             ++ str_of_nat tk.(col) ++ " "
             ++ "unexpected state/token combination: "
             ++ States.name_of l.(state) ++ "/" ++ Tokens.name_of tk.(kind)))).
Proof.
  intros source_name ts1 tk ts2 tail l Hsteps Hpair.
  rewrite (run_steps _ _ _ _ _ _ Hsteps). simpl.
  rewrite (step_unenumerated _ _ _ Hpair). reflexivity.
Qed.

Lemma C6_witness :
  let tk := Token Tokens.name "X" 1 1 in
  run "<stdin>" initial ([] ++ tk :: []) None =
  ([], inl (ParseError
              ("<stdin>:1:1 unexpected state/token combination: seek_file/name"
               : string))).
Proof.
  intro tk.
  exact (C6_unenumerated_pair_raises_ParseError
           "<stdin>" [] tk [] None initial eq_refl eq_refl).
Defined.

Lemma last_of_app {A : Type} (r : list A) (x : A) : last_of (r ++ [x]) = Some x.
Proof.
  unfold last_of. rewrite length_app. simpl.
  replace (length r + 1 - 1) with (length r) by lia.
  rewrite nth_error_app2 by lia. now rewrite Nat.sub_diag.
Qed.

Lemma last_of_nil {A : Type} : last_of (@nil A) = None.
Proof. reflexivity. Qed.

Lemma last_of_Some {A : Type} (l : list A) (x : A) :
  last_of l = Some x -> l = removelast l ++ [x].
Proof.
  destruct l as [|a l] using rev_ind; [discriminate|].
  rewrite last_of_app. intros H; inversion H; subst.
  now rewrite removelast_last.
Qed.

Lemma last_of_None {A : Type} (l : list A) : last_of l = None -> l = [].
Proof.
  destruct l as [|a l] using rev_ind; [reflexivity|].
  rewrite last_of_app. discriminate.
Qed.

(** A comment line at the end of the result makes the attachment fail with
    [TypeError]: a string supports no item assignment. *)
Lemma eol_comment_after_line source_name l tk r s :
  l.(state) = States.seek_file ->
  tk.(kind) = Tokens.eol_comment ->
  l.(result) = r ++ [Line s] ->
  step source_name l tk = Raise TypeError.
Proof.
  intros Hs Hk Hr. unfold step. rewrite Hs, Hk, Hr, last_of_app. reflexivity.
Qed.

(** In state [seek_file] an end-of-line comment becomes the [eos_comment]
    of the block that ends [result]. *)
Lemma eol_comment_attaches source_name l tk r d :
  l.(state) = States.seek_file ->
  tk.(kind) = Tokens.eol_comment ->
  l.(result) = r ++ [Substitution d] ->
  step source_name l tk =
  Next (set_result l
          (r ++ [Substitution (set_eos_comment d (Some tk.(literal)))])).
Proof.
  intros Hs Hk Hr. unfold step.
  rewrite Hs, Hk, Hr, last_of_app, removelast_last.
  unfold set_result, set_eos_comment. now rewrite Hs.
Qed.

(** With an empty [result] the index is out of range. *)
Lemma eol_comment_before_blocks source_name l tk :
  l.(state) = States.seek_file ->
  tk.(kind) = Tokens.eol_comment ->
  l.(result) = [] ->
  step source_name l tk = Raise IndexError.
Proof. intros Hs Hk Hr. unfold step. now rewrite Hs, Hk, Hr. Qed.

(** * The scenarios *)

(** C2, as the code behaves.  The four-line scenario, rendered with
    indent 4, spacing 2 and width 120, gives the four lines of
    [scenario_code_output]: the [file] line, the formal row
    [    pattern { X,    Y   }], the row of the quoted values 1 and 2 with
    two blanks between them, and the closing brace.  Two blanks follow each
    comma, and every name is padded to the width of its column. *)
Theorem C2_scenario_rendering :
  process "<stdin>" scenario_text 4 2 120 = ([], (scenario_code_output, None)).
Proof. vm_compute. reflexivity. Qed.

(** The rendering that the specification gives for the scenario is not the
    one the code produces. *)
Lemma C2_scenario_counterexample :
  fst (snd (process "<stdin>" scenario_text 4 2 120)) <> scenario_spec_output.
Proof. vm_compute. discriminate. Qed.

(** C3, at the failing input.  The bare value made of the letter a and a
    double quote ends with a double quote, so [quote_str] returns it
    unchanged and the row is written with the value as it is: the value
    gains no surrounding pair of quotes. *)
Theorem C3_half_quoted_value_left_bare :
  quote_str ("a" ++ [dquote]) = "a" ++ [dquote]
  /\ process "<stdin>" half_quoted_text 4 2 120 =
     ([], (unlines [ "file " ++ quoted "a.db" ++ " {";
                     "    pattern { X  }" : str;
                     "            { a" ++ [dquote] ++ " }";
                     "}" : str ], None)).
Proof. split; vm_compute; reflexivity. Qed.

(** C7, at the failing input.  A comma before the first macro name reaches
    [formal[last]] with [formal] empty: the call raises [IndexError] and
    writes no warning. *)
Theorem C7_leading_comma_raises_IndexError :
  process_source "<stdin>" leading_comma_text = ([], inl IndexError).
Proof. vm_compute. reflexivity. Qed.

(** The scenario of C7: a formal list that ends with a stray comma parses
    with one warning, and the formal names are [X] and [Y]. *)
Lemma trailing_comma_scenario :
  process_source "<stdin>" trailing_comma_text =
  ([warning ("<stdin>:2:18 extra comma following macro name Y removed" : string)],
   inr [Substitution
          (Substitution_dict (bare (quoted "a.db")) []
             (bare ["X" : str; "Y" : str])
             [Row (bare [quoted "1"; quoted "2"])] None)]).
Proof. vm_compute. reflexivity. Qed.

(** * Quoting and comma recovery, case by case *)

(** A value with no double quote at either end is put between quotes. *)
Lemma quote_str_bare v :
  startswith v [dquote] = false -> endswith_char v dquote = false ->
  quote_str v = quoted v.
Proof. intros H1 H2. unfold quote_str. now rewrite H1, H2. Qed.

(** A value with a double quote at one end or at both is left as it is. *)
Lemma quote_str_kept v :
  startswith v [dquote] = true \/ endswith_char v dquote = true ->
  quote_str v = v.
Proof.
  intros [H|H]; unfold quote_str; rewrite H; [reflexivity|].
  now rewrite andb_false_r.
Qed.

(** A comma where a name is expected is dropped with one warning when a
    name stands before it. *)
Lemma extra_comma_after_name source_name l tk names n :
  l.(state) = States.seek_name -> tk.(kind) = Tokens.comma ->
  l.(l_formal).(item) = names ++ [n] ->
  step source_name l tk
  = Next (warn source_name tk
            ("extra comma following macro name " ++ n ++ " removed")
            (with_state l States.seek_name)).
Proof.
  intros Hs Hk Hf. unfold step. now rewrite Hs, Hk, Hf, last_of_app.
Qed.

(** With no name before it, the same comma ends the call. *)
Lemma extra_comma_before_names source_name l tk :
  l.(state) = States.seek_name -> tk.(kind) = Tokens.comma ->
  l.(l_formal).(item) = [] ->
  step source_name l tk = Raise IndexError.
Proof.
  intros Hs Hk Hf. unfold step. now rewrite Hs, Hk, Hf.
Qed.

(** * The parser keeps its document well formed *)

Lemma last_of_Some_nonempty {A : Type} (l : list A) x : last_of l = Some x -> l <> [].
Proof. intros H E. subst. discriminate. Qed.

Lemma Forall_snoc {A : Type} (P : A -> Prop) l x :
  Forall P l -> P x -> Forall P (l ++ [x]).
Proof. intros H Hx. apply Forall_app. split; [exact H|now constructor]. Qed.

Lemma Forall_removelast {A : Type} (P : A -> Prop) l :
  Forall P l -> Forall P (removelast l).
Proof.
  intros H. destruct l as [|x l] using rev_ind; [constructor|].
  rewrite removelast_last. apply Forall_app in H. tauto.
Qed.

Lemma Forall_last_of {A : Type} (P : A -> Prop) l x :
  Forall P l -> last_of l = Some x -> P x.
Proof.
  intros H E. apply last_of_Some in E. rewrite E in H.
  apply Forall_app in H as [_ H]. now inversion H.
Qed.

Lemma app_nonempty {A : Type} (l : list A) x : l ++ [x] <> [].
Proof. now destruct l. Qed.

Lemma wf_initial : wf_locals initial.
Proof.
  unfold wf_locals, initial. simpl.
  repeat split; try constructor; try discriminate.
Qed.

Ltac wf_crush :=
  repeat match goal with
         | |- _ /\ _ => split
         | |- Forall _ (_ ++ [_]) => apply Forall_snoc
         | |- Forall _ (removelast _) => apply Forall_removelast
         | |- Forall _ [] => constructor
         | |- _ ++ [_] <> [] => apply app_nonempty
         | |- _ -> _ => intro
         | H : false = true |- _ => discriminate H
         | H : ?x = ?y |- _ => discriminate H
         | |- wf_comment None => exact I
         | |- True => exact I
         end; auto.

Lemma step_wf source_name l tk :
  wf_locals l -> wf_token tk ->
  forall l', step source_name l tk = Next l' \/ step source_name l tk = Break l' ->
             wf_locals l'.
Proof.
  intros (Hres & Htpl & Htc & Hcom & Hne & Hnames & Hfc & Hact & Hrow & Hvals) Htk l'.
  unfold wf_token in Htk. unfold step.
  destruct (state l) eqn:Es, (kind tk) eqn:Ek; cbn [has_name has_template] in *;
    intros [H|H]; try discriminate H;
    repeat match type of H with
           | context [match ?x with _ => _ end] => destruct x eqn:?; try discriminate H
           end;
    inversion H; subst; clear H; unfold wf_locals, wf_document in *;
    cbn [result state l_template l_comments l_formal l_actual actual_row stderr
         item comment warn with_state has_name has_template bare];
    try rewrite Es;
    cbn [has_name has_template].
  all: wf_crush.
  all: try (eapply last_of_Some_nonempty; eassumption).
  all: try (red; tauto).
  all: try (now left).
  all: try (now right).
  all: try match goal with
           | Hl : last_of ?r = Some ?x, Hf : Forall _ ?r |- _ =>
               pose proof (Forall_last_of _ _ _ Hf Hl) as Hlast;
               pose proof (last_of_Some_nonempty _ _ Hl) as Hnonempty
           end.
  all: cbn [wf_doc_item wf_actual] in *; unfold wf_block, wf_row, bare in *;
    cbn [template comments formal actual eos_comment item comment] in *.
  all: try specialize (Htpl eq_refl); try specialize (Hne eq_refl);
    try specialize (Hrow eq_refl).
  all: unfold eol_literal in *; repeat split; try exact I; try tauto.
Qed.

Lemma run_wf source_name : forall ts l tail err source,
  wf_locals l -> Forall wf_token ts ->
  run source_name l ts tail = (err, inr source) ->
  wf_document source.
Proof.
  induction ts as [|tk ts IH]; intros l tail err source Hl Hts; simpl.
  - destruct tail; intros H; inversion H; subst. apply Hl.
  - inversion Hts; subst.
    destruct (step source_name l tk) as [l'|l'|e] eqn:E.
    + apply IH; [|assumption]. eapply step_wf; eauto.
    + intros H. inversion H; subst.
      assert (Hl' : wf_locals l') by (eapply step_wf; eauto). apply Hl'.
    + discriminate.
Qed.

(** A document that [process_source] returns is well formed. *)
Lemma process_source_wf source_name text err source :
  process_source source_name text = (err, inr source) -> wf_document source.
Proof.
  unfold process_source, process_tokens. apply run_wf.
  - apply wf_initial.
  - apply get_token_wf.
Qed.

(** * The first loop of [generate_substitution] *)

Lemma quote_row_ok : forall row widths,
  length row = length widths ->
  exists widths',
    quote_row row widths = (map quote_str row, inr widths')
    /\ length widths' = length widths.
Proof.
  induction row as [|v row IH]; intros [|w ws] H; simpl in H; try discriminate.
  - exists []. now simpl.
  - injection H as H. destruct (IH ws H) as (ws' & E & L).
    simpl. rewrite E. eexists. split; [reflexivity|]. simpl. now rewrite L.
Qed.

Lemma quote_rows_ok : forall act number widths,
  length widths = number ->
  (forall r, In (Row r) act -> length r.(item) = number) ->
  exists widths',
    quote_rows number act widths = (map quote_item act, inr widths')
    /\ length widths' = number.
Proof.
  induction act as [|a act IH]; intros number widths Hw Hall.
  - exists widths. now simpl.
  - destruct a as [s|r].
    + destruct (IH number widths Hw) as (w' & E & L).
      { intros r Hr. apply Hall. now right. }
      simpl. rewrite E. now exists w'.
    + assert (Hr : length r.(item) = number) by (apply Hall; now left).
      simpl. rewrite Hr, Nat.eqb_refl. simpl.
      destruct (quote_row_ok r.(item) widths) as (w1 & E1 & L1); [congruence|].
      rewrite E1.
      destruct (IH number w1) as (w' & E & L); [congruence| |].
      { intros r' Hr'. apply Hall. now right. }
      rewrite E. now exists w'.
Qed.

Lemma quote_rows_mismatch : forall act number widths,
  length widths = number ->
  (exists r, In (Row r) act /\ length r.(item) <> number) ->
  exists pre row c post,
    act = pre ++ Row (With_comment row c) :: post
    /\ (forall r, In (Row r) pre -> length r.(item) = number)
    /\ length row <> number
    /\ snd (quote_rows number act widths)
       = inl (ValueError row (length row) number).
Proof.
  induction act as [|a act IH]; intros number widths Hw (r & Hin & Hne).
  - destruct Hin.
  - destruct a as [s|r0].
    + destruct Hin as [Hin|Hin]; [discriminate|].
      destruct (IH number widths Hw) as (pre & row & c & post & E & Hpre & Hrow & Hq).
      { now exists r. }
      exists (Comment_line s :: pre), row, c, post. repeat split; auto.
      * simpl. now rewrite E.
      * intros r' [Hr'|Hr']; [discriminate|now apply Hpre].
      * simpl. destruct (quote_rows number act widths). exact Hq.
    + destruct (Nat.eq_dec (length r0.(item)) number) as [Heq|Hneq].
      * destruct Hin as [Hin|Hin]; [congruence|].
        destruct (quote_row_ok r0.(item) widths) as (w1 & E1 & L1); [congruence|].
        destruct (IH number w1) as (pre & row & c & post & E & Hpre & Hrow & Hq);
          [congruence| now exists r |].
        exists (Row r0 :: pre), row, c, post. repeat split; auto.
        -- simpl. now rewrite E.
        -- intros r' [Hr'|Hr']; [now inversion Hr'; subst|now apply Hpre].
        -- simpl. rewrite Heq, Nat.eqb_refl. simpl. rewrite E1.
           destruct (quote_rows number act w1). exact Hq.
      * exists [], r0.(item), r0.(comment), act. repeat split; auto.
        -- now destruct r0.
        -- intros r' [].
        -- simpl. apply Nat.eqb_neq in Hneq. now rewrite Hneq.
Qed.

(** The loop of [process_source] raises what [step] or the tokenizer
    raises, and neither raises [ValueError]. *)
Lemma step_no_ValueError source_name l tk row n number :
  step source_name l tk <> Raise (ValueError row n number).
Proof.
  unfold step.
  destruct (state l), (kind tk);
    repeat match goal with
           | |- context [match ?x with _ => _ end] => destruct x
           end; discriminate.
Qed.

Lemma scan_tail_ParseError : forall fuel source_name lineno size temp e,
  snd (scan fuel source_name lineno size temp) = Some e ->
  exists msg, e = ParseError msg.
Proof.
  induction fuel as [|fuel IH]; intros source_name lineno size temp e.
  - simpl. discriminate.
  - destruct temp as [|c temp]; [simpl; discriminate|].
    cbn -[startswith find find_or_len rstrip lstrip firstn skipn].
    repeat match goal with
           | |- context [if ?b then _ else _] => destruct b
           end; simpl; try discriminate; try apply IH.
    destruct (find dquote _); simpl; [apply IH|].
    intros H. inversion H. eauto.
Qed.

Lemma lines_tokens_tail_ParseError : forall lines source_name lineno col0 e,
  snd (lines_tokens source_name lineno col0 lines) = Some e ->
  exists msg, e = ParseError msg.
Proof.
  induction lines as [|line lines IH]; intros source_name lineno col0 e.
  - simpl. discriminate.
  - simpl. unfold line_tokens.
    destruct (_ || _); simpl.
    + apply IH.
    + destruct (scan _ _ _ _ _) as [ts [e'|]] eqn:E; simpl.
      * intros H. inversion H; subst.
        eapply scan_tail_ParseError. rewrite E. reflexivity.
      * apply IH.
Qed.

Lemma run_no_ValueError source_name : forall ts l tail err row n number,
  (forall e, tail = Some e -> exists msg, e = ParseError msg) ->
  run source_name l ts tail <> (err, inl (ValueError row n number)).
Proof.
  induction ts as [|tk ts IH]; intros l tail err row n number Htail; simpl.
  - destruct tail as [e|]; [|discriminate].
    destruct (Htail e eq_refl) as [msg ->]. discriminate.
  - destruct (step source_name l tk) eqn:E; try discriminate.
    + now apply IH.
    + intros H. inversion H; subst. now apply step_no_ValueError in E.
Qed.

Lemma process_source_no_ValueError source_name text err row n number :
  process_source source_name text <> (err, inl (ValueError row n number)).
Proof.
  unfold process_source, process_tokens, get_token.
  apply run_no_ValueError. apply lines_tokens_tail_ParseError.
Qed.

(** C8.  A block in which some row has not as many items as the formal row
    is not rendered: [generate_substitution] raises [ValueError] carrying the
    first such row, its number of items and the number expected, and writes
    nothing.  The parser does not make the comparison: [process_source]
    never raises this error, and it accepts a text with such a block. *)
Theorem C8_row_length_mismatch :
  (forall d indent spacing width,
      mismatched d ->
      exists pre row c post,
        d.(actual) = pre ++ Row (With_comment row c) :: post
        /\ (forall r, In (Row r) pre ->
                      length r.(item) = length d.(formal).(item))
        /\ length row <> length d.(formal).(item)
        /\ snd (generate_substitution d indent spacing width)
           = ([], Some (ValueError row (length row)
                                   (length d.(formal).(item)))))
  /\ (forall source_name text err row n number,
         process_source source_name text
         <> (err, inl (ValueError row n number)))
  /\ (exists d, process_source "<stdin>" short_row_text
                = ([], inr [Substitution d])
                /\ mismatched d).
Proof.
  split; [|split].
  - intros d indent spacing width Hm.
    destruct (quote_rows_mismatch d.(actual) (length d.(formal).(item))
                (map (@length ascii) d.(formal).(item)))
      as (pre & row & c & post & E & Hpre & Hrow & Hq).
    { apply length_map. }
    { exact Hm. }
    exists pre, row, c, post. repeat split; auto.
    unfold generate_substitution.
    destruct (quote_rows _ _ _) as [a' r]. simpl in Hq. subst r. reflexivity.
  - intros. apply process_source_no_ValueError.
  - eexists. split; [vm_compute; reflexivity|].
    eexists. split; [left; reflexivity|]. simpl. lia.
Qed.

Lemma C8_witness :
  exists d,
    process_source "<stdin>" short_row_text = ([], inr [Substitution d])
    /\ snd (generate_substitution d 4 2 120)
       = ([], Some (ValueError [quoted "1"] 1 2)).
Proof.
  destruct C8_row_length_mismatch as (Hrender & _ & _).
  eexists. split; [vm_compute; reflexivity|].
  match goal with
  | |- snd (generate_substitution ?d _ _ _) = _ =>
      destruct (Hrender d 4 2 120) as (pre & row & c & post & E & Hpre & Hrow & Hq)
  end.
  - eexists. split; [left; reflexivity|]. simpl. lia.
  - destruct pre as [|x [|y pre]]; simpl in E; inversion E; subst.
    exact Hq.
Defined.

(** * What rendering does to the document *)

Lemma quote_row_inr : forall row widths row' widths',
  quote_row row widths = (row', inr widths') -> row' = map quote_str row.
Proof.
  induction row as [|v row IH]; intros widths row' widths'; simpl.
  - intros H. now inversion H.
  - destruct widths as [|w ws]; [discriminate|].
    destruct (quote_row row ws) as [rest' r] eqn:E.
    destruct r as [e|ws']; intros H; inversion H; subst.
    f_equal. eapply IH. exact E.
Qed.

Lemma quote_rows_inr : forall act number widths act' widths',
  quote_rows number act widths = (act', inr widths') ->
  act' = map quote_item act.
Proof.
  induction act as [|a act IH]; intros number widths act' widths'; simpl.
  - intros H. now inversion H.
  - destruct a as [s|r].
    + destruct (quote_rows number act widths) as [rest' r] eqn:E.
      intros H. inversion H; subst. simpl. f_equal. eapply IH. exact E.
    + destruct (negb _); [discriminate|].
      destruct (quote_row r.(item) widths) as [row' [e|w1]] eqn:E1; [discriminate|].
      destruct (quote_rows number act w1) as [rest' r'] eqn:E.
      intros H. inversion H; subst. simpl.
      rewrite (quote_row_inr _ _ _ _ E1). f_equal. eapply IH. exact E.
Qed.

Lemma then_None a b o :
  then_ a b = (o, None) ->
  exists o1 o2, a = (o1, None) /\ b = (o2, None) /\ o = o1 ++ o2.
Proof.
  destruct a as [o1 [e|]], b as [o2 e2]; simpl; intros H; inversion H; subst.
  now exists o1, o2.
Qed.

Lemma generate_substitution_returns d indent spacing width d' out :
  generate_substitution d indent spacing width = (d', (out, None)) ->
  d' = quote_block d.
Proof.
  unfold generate_substitution, quote_block.
  destruct (quote_rows _ _ _) as [act' [e|widths]] eqn:E.
  - intros H. inversion H.
  - intros H. inversion H; subst. f_equal. eapply quote_rows_inr. exact E.
Qed.

(** C9, as the code behaves.  Rendering rewrites the rows it is given:
    when [generate] returns, every value of every actual row has been
    replaced by its [quote_str], in place; the templates, the block
    comments, the formal rows, the comment lines and all trailing comments
    are as they were. *)
Theorem C9_generate_quotes_rows_in_place :
  forall source indent spacing width source' out,
    generate source indent spacing width = (source', (out, None)) ->
    source' = quote_document source.
Proof.
  induction source as [|x source IH]; intros indent spacing width source' out; simpl.
  - intros H. now inversion H.
  - destruct x as [s|d].
    + destruct (generate source indent spacing width) as [rest' w] eqn:E.
      intros H. inversion H; subst.
      destruct w as [o [e|]]; [discriminate|].
      f_equal. eapply IH. exact E.
    + destruct (generate_substitution d indent spacing width)
        as [d' [o [e|]]] eqn:Ed; [intros H; inversion H|].
      destruct (generate source indent spacing width) as [rest' w] eqn:E.
      intros H. inversion H; subst.
      destruct w as [o' [e|]]; [discriminate|].
      rewrite (generate_substitution_returns _ _ _ _ _ _ Ed).
      simpl. f_equal. eapply IH. exact E.
Qed.

Lemma C9_witness :
  fst (generate [Substitution bare_values_block] 4 2 120)
  = [Substitution
       (Substitution_dict (bare (quoted "a.db")) []
          (bare ["X" : str; "Y" : str])
          [Row (bare [quoted "1"; quoted "2"])] None)].
Proof.
  apply (C9_generate_quotes_rows_in_place [Substitution bare_values_block]
           4 2 120 _
           (fst (snd (generate [Substitution bare_values_block] 4 2 120)))).
  vm_compute. reflexivity.
Defined.

(** The document is not left as it was: the bare values [1] and [2] of the
    parsed row are quoted in the document once [generate] has returned. *)
Lemma C9_counterexample :
  process_source "<stdin>" bare_values_text
  = ([], inr [Substitution bare_values_block])
  /\ snd (snd (generate [Substitution bare_values_block] 4 2 120)) = None
  /\ fst (generate [Substitution bare_values_block] 4 2 120)
     <> [Substitution bare_values_block].
Proof.
  split; [vm_compute; reflexivity|]. split; vm_compute; [reflexivity|].
  discriminate.
Qed.

(** * End-of-line comments always find their slot *)

Lemma eol_ok_weaken ts : forall p, eol_ok false ts -> eol_ok p ts.
Proof.
  destruct ts as [|t ts]; intros p; cbn [eol_ok]; [auto|].
  intros [H1 H2]. split; [|exact H2]. intros Hk. now apply H1 in Hk.
Qed.

Lemma eol_ok_app ts1 : forall p ts2,
  eol_ok p ts1 -> eol_ok false ts2 -> eol_ok p (ts1 ++ ts2).
Proof.
  induction ts1 as [|t ts1 IH]; intros p ts2 H1 H2; cbn [app].
  - now apply eol_ok_weaken.
  - cbn [eol_ok] in *. destruct H1 as [Ha Hb]. split; [exact Ha|now apply IH].
Qed.

(** In the tokens of a line an end-of-line comment comes first only when
    the rest of the line starts with [#]. *)
Lemma scan_eol_ok : forall fuel source_name lineno size temp p,
  p = true \/ startswith temp "#" = false ->
  eol_ok p (fst (scan fuel source_name lineno size temp)).
Proof.
  induction fuel as [|fuel IH]; intros source_name lineno size temp p Hp;
    [exact I|].
  destruct temp as [|c t]; [exact I|].
  rewrite scan_S. cbv zeta.
  destruct (startswith (c :: t) "#") eqn:E0.
  { cbn [yield fst eol_ok kind]. split; [|exact I].
    intros _. destruct Hp as [Hp|Hp]; [exact Hp|discriminate]. }
  repeat match goal with
         | |- context [if ?b then _ else _] => destruct b
         | |- context [match find ?a ?b with _ => _ end] => destruct (find a b)
         end;
    cbn [yield fst eol_ok kind]; try exact I;
    (split; [discriminate|apply IH; now left]).
Qed.

Lemma line_tokens_eol_ok source_name lineno line :
  eol_ok false (fst (fst (line_tokens source_name lineno line))).
Proof.
  unfold line_tokens.
  destruct (_ || _) eqn:E; cbn [fst].
  - cbn [eol_ok kind]. split; [discriminate|exact I].
  - apply scan_eol_ok. right. now apply orb_false_iff in E as [_ E].
Qed.

Lemma lines_tokens_eol_ok : forall lines source_name lineno col0,
  eol_ok false (fst (lines_tokens source_name lineno col0 lines)).
Proof.
  induction lines as [|line lines IH]; intros source_name lineno col0.
  - cbn [lines_tokens fst eol_ok kind]. split; [discriminate|exact I].
  - cbn [lines_tokens].
    pose proof (line_tokens_eol_ok source_name (lineno + 1) line) as Hl.
    destruct (line_tokens source_name (lineno + 1) line) as [[ts [e|]] c];
      cbn [fst] in *; [exact Hl|].
    apply eol_ok_app; [exact Hl|apply IH].
Qed.

Lemma get_token_eol_ok source_name text :
  eol_ok false (fst (get_token source_name text)).
Proof. apply lines_tokens_eol_ok. Qed.

Lemma settled_initial : settled initial.
Proof. split; [discriminate|reflexivity]. Qed.

(** One round keeps the locals settled, and leaves them fresh after an
    ordinary token. *)
Lemma step_settled source_name l tk l' :
  settled l -> step source_name l tk = Next l' ->
  settled l' /\ (ordinary tk.(kind) = true -> fresh l').
Proof.
  intros [S1 S2]. unfold step, settled, fresh.
  destruct (state l) eqn:Es, (kind tk) eqn:Ek; try discriminate;
    repeat match goal with
           | |- context [match last_of ?x with _ => _ end] =>
               destruct (last_of x) as [[]|]; try discriminate
           | |- context [match comment ?x with _ => _ end] =>
               destruct (comment x) eqn:?; try discriminate
           | |- context [match ?r with {| item := _; comment := _ |} => _ end] =>
               destruct r as [? []]; try discriminate
           end;
    intros H; inversion H; subst; clear H;
    cbn [state l_template l_formal l_actual result comment item warn
         with_state ordinary bare];
    rewrite ?Es; cbn [ordinary];
    (split; [split|]); try discriminate; try tauto; try reflexivity;
    intros _; eauto.
Qed.

(** With a settled and, after an ordinary token, fresh state, an
    end-of-line comment raises nothing. *)
Lemma step_eol_comment source_name l tk :
  fresh l -> tk.(kind) = Tokens.eol_comment ->
  enumerated l.(state) tk.(kind) = true ->
  exists l', step source_name l tk = Next l'.
Proof.
  unfold fresh, step. intros Hf Hk. rewrite Hk.
  destruct (state l); try discriminate; intros _.
  - destruct Hf as (r & d & ->). rewrite last_of_app. eauto.
  - rewrite Hf. eauto.
  - rewrite Hf. eauto.
  - destruct Hf as (a & row & ->). rewrite last_of_app. unfold bare. eauto.
Qed.

Lemma step_nested_only_eol source_name l tk :
  step source_name l tk = Raise NestedComment ->
  tk.(kind) = Tokens.eol_comment /\ enumerated l.(state) tk.(kind) = true.
Proof.
  unfold step.
  destruct (state l), (kind tk); try discriminate;
    repeat match goal with
           | |- context [match last_of ?x with _ => _ end] =>
               destruct (last_of x) as [[]|]; try discriminate
           | |- context [match comment ?x with _ => _ end] =>
               destruct (comment x); try discriminate
           | |- context [match ?r with {| item := _; comment := _ |} => _ end] =>
               destruct r as [? []]; try discriminate
           end; now split.
Qed.

(** The invariant along a stream in which every end-of-line comment
    follows an ordinary token. *)
Lemma steps_fresh source_name : forall ts1 rest l p l',
  settled l -> (p = true -> fresh l) -> eol_ok p (ts1 ++ rest) ->
  steps source_name l ts1 = Some l' ->
  settled l' /\ exists p', (p' = true -> fresh l') /\ eol_ok p' rest.
Proof.
  induction ts1 as [|tk ts1 IH]; intros rest l p l' Hs Hf Hok; cbn [steps app].
  - intros H. inversion H; subst. split; [exact Hs|]. now exists p.
  - cbn [app eol_ok] in Hok. destruct Hok as [_ Hok].
    destruct (step source_name l tk) as [l1| |] eqn:E; try discriminate.
    destruct (step_settled _ _ _ _ Hs E) as [Hs1 Hf1].
    apply (IH rest l1 (ordinary tk.(kind))); auto.
Qed.

(** The loop never comes to wrap a value a second time. *)
Lemma run_not_nested source_name : forall ts l p tail err,
  settled l -> (p = true -> fresh l) -> eol_ok p ts ->
  tail <> Some NestedComment ->
  run source_name l ts tail <> (err, inl NestedComment).
Proof.
  induction ts as [|tk ts IH]; intros l p tail err Hs Hf Hok Htail; cbn [run].
  - destruct tail as [e|]; [|discriminate].
    intros H. inversion H; subst. now apply Htail.
  - cbn [eol_ok] in Hok. destruct Hok as [Hp Hok].
    destruct (step source_name l tk) as [l1|l1|e] eqn:E.
    + destruct (step_settled _ _ _ _ Hs E) as [Hs1 Hf1].
      apply (IH l1 (ordinary tk.(kind))); auto.
    + discriminate.
    + intros H. inversion H; subst.
      destruct (step_nested_only_eol _ _ _ E) as [Hk Hen].
      destruct (step_eol_comment source_name l tk (Hf (Hp Hk)) Hk Hen)
        as (l' & E').
      congruence.
Qed.

(** Whatever the text, [process_source] does not meet the case that the
    document type leaves out. *)
Lemma process_source_not_nested source_name text err :
  process_source source_name text <> (err, inl NestedComment).
Proof.
  unfold process_source, process_tokens.
  apply (run_not_nested source_name _ initial false).
  - apply settled_initial.
  - discriminate.
  - apply get_token_eol_ok.
  - intros H.
    destruct (lines_tokens_tail_ParseError _ _ _ _ _ H) as (msg & Hm).
    discriminate.
Qed.

(** Whatever the text, when the loop of [process_source] comes to an
    end-of-line comment in state [seek_file], [result] ends with a block:
    the comment follows the closing brace of that block on its line. *)
Lemma seek_file_eol_comment_after_block source_name text ts1 tk ts2 l :
  fst (get_token source_name text) = ts1 ++ tk :: ts2 ->
  steps source_name initial ts1 = Some l ->
  l.(state) = States.seek_file ->
  tk.(kind) = Tokens.eol_comment ->
  exists r d, l.(result) = r ++ [Substitution d].
Proof.
  intros Hts Hsteps Hstate Hk.
  pose proof (get_token_eol_ok source_name text) as Hok. rewrite Hts in Hok.
  destruct (steps_fresh source_name ts1 (tk :: ts2) initial false l
              settled_initial ltac:(discriminate) Hok Hsteps)
    as (_ & p' & Hf & Hok').
  cbn [eol_ok] in Hok'. destruct Hok' as [Hp _].
  specialize (Hf (Hp Hk)). unfold fresh in Hf. now rewrite Hstate in Hf.
Qed.

(** C10.  Whatever the text, when [process_source] consumes an
    end-of-line-comment token in state [seek_file], the last item of
    [result] is a block, the most recently completed one, and the comment
    text becomes its [eos_comment].  The code does not check that there is
    such a block: with an empty [result] the index [result[last]] is out of
    range and the step raises [IndexError], which is no [ParseError]. *)
Theorem C10_eol_comment_in_seek_file :
  (forall source_name text ts1 tk ts2 l,
      fst (get_token source_name text) = ts1 ++ tk :: ts2 ->
      steps source_name initial ts1 = Some l ->
      l.(state) = States.seek_file ->
      tk.(kind) = Tokens.eol_comment ->
      exists r d,
        l.(result) = r ++ [Substitution d]
        /\ step source_name l tk =
           Next (set_result l
                   (r ++ [Substitution
                            (set_eos_comment d (Some tk.(literal)))])))
  /\ (forall source_name l tk,
         l.(state) = States.seek_file ->
         tk.(kind) = Tokens.eol_comment ->
         l.(result) = [] ->
         step source_name l tk = Raise IndexError
         /\ forall msg, step source_name l tk <> Raise (ParseError msg)).
Proof.
  split.
  - intros source_name text ts1 tk ts2 l Hts Hsteps Hs Hk.
    destruct (seek_file_eol_comment_after_block _ _ _ _ _ _ Hts Hsteps Hs Hk)
      as (r & d & Hr).
    exists r, d. split; [exact Hr|now apply eol_comment_attaches].
  - intros source_name l tk Hs Hk Hr.
    rewrite (eol_comment_before_blocks _ _ _ Hs Hk Hr).
    split; [reflexivity|discriminate].
Qed.

Lemma C10_witness :
  let ts := fst (get_token "<stdin>" closing_comment_text) in
  let tk := Token Tokens.eol_comment "# end" 3 3 in
  (exists r d,
      result (set_result initial [Substitution small_block])
      = r ++ [Substitution d]
      /\ step "<stdin>" (set_result initial [Substitution small_block]) tk
         = Next (set_result (set_result initial [Substitution small_block])
                   (r ++ [Substitution (set_eos_comment d (Some ("# end" : str)))])))
  /\ step "<stdin>" initial tk = Raise IndexError.
Proof.
  intros ts tk. destruct C10_eol_comment_in_seek_file as [Hattach Hempty].
  split.
  - apply (Hattach "<stdin>" closing_comment_text (firstn 8 ts) tk (skipn 9 ts)).
    + vm_compute. reflexivity.
    + vm_compute. reflexivity.
    + reflexivity.
    + reflexivity.
  - apply (Hempty "<stdin>" initial tk); reflexivity.
Defined.

(** * The columns of a rendered row *)

Lemma then_wrote a b : then_ (wrote a) b = (a ++ fst b, snd b).
Proof. reflexivity. Qed.

Lemma row_loop_app x : forall j number y widths prefix spaces newlines,
  row_loop j number (x ++ y) widths prefix spaces newlines
  = then_ (row_loop j number x widths prefix spaces newlines)
          (row_loop (j + length x) number y widths prefix spaces newlines).
Proof.
  induction x as [|v x IH]; intros j number y widths prefix spaces newlines.
  - simpl. rewrite Nat.add_0_r.
    now destruct (row_loop j number y widths prefix spaces newlines).
  - cbn [app row_loop length]. destruct (nth_error widths j) as [w|]; [|reflexivity].
    rewrite IH, !then_wrote. replace (j + S (length x)) with (S j + length x) by lia.
    destruct (row_loop (S j) number x widths prefix spaces newlines) as [o [e|]];
      simpl; [reflexivity|].
    now rewrite app_assoc.
Qed.

(** With a width for every element, the loop raises nothing. *)
Lemma row_loop_ok x : forall j number widths prefix spaces newlines,
  j + length x <= length widths ->
  snd (row_loop j number x widths prefix spaces newlines) = None.
Proof.
  induction x as [|v x IH]; intros j number widths prefix spaces newlines H;
    [reflexivity|].
  cbn [row_loop length] in *.
  destruct (nth_error widths j) as [w|] eqn:E.
  - rewrite then_wrote. cbn [snd]. apply IH. lia.
  - apply nth_error_None in E. lia.
Qed.

Lemma column_from_app x : forall c y,
  column_from c (x ++ y) = column_from (column_from c x) y.
Proof.
  induction x as [|a x IH]; intros c y; simpl; [reflexivity|].
  destruct (ch_eqb a "010"); apply IH.
Qed.

Lemma column_from_nolf x : forall c, nolf x = true -> column_from c x = c + length x.
Proof.
  induction x as [|a x IH]; intros c H; simpl in *; [lia|].
  apply andb_true_iff in H as [H1 H2]. apply negb_true_iff in H1.
  rewrite H1, IH by exact H2. lia.
Qed.

Lemma column_from_nl c x : column_from c (nl ++ x) = column_from 0 x.
Proof. reflexivity. Qed.

Lemma nolf_spaces n : nolf (spaces_of n) = true.
Proof. induction n; simpl; auto. Qed.

Lemma length_spaces n : length (spaces_of n) = n.
Proof. apply repeat_length. Qed.

Lemma nolb_nolf x : nolb x = true -> nolf x = true.
Proof.
  unfold nolb, nolf. rewrite !forallb_forall. intros H a Ha.
  specialize (H a Ha). destruct (ch_eqb a "010") eqn:E; [|reflexivity].
  apply ch_eqb_eq in E. now subst.
Qed.

Lemma nolf_app x y : nolf (x ++ y) = nolf x && nolf y.
Proof. apply forallb_app. Qed.

(** The column after one element. *)
Lemma column_row_element c j number name w prefix spacing newlines :
  nolf name = true -> length name <= w ->
  column_from c (row_element j number name w prefix (spaces_of spacing) newlines)
  = next_column c j number w (length prefix) spacing newlines.
Proof.
  intros Hn Hw. unfold row_element, next_column.
  rewrite !column_from_app, (column_from_nolf name) by exact Hn.
  destruct (j <? number - 1) eqn:Ej.
  - cbn [list_ascii_of_string app column_from ch_eqb Ascii.eqb Bool.eqb].
    rewrite (column_from_nolf (spaces_of spacing)) by apply nolf_spaces.
    rewrite length_spaces.
    destruct (mem j newlines); cbn [andb].
    + rewrite column_from_nl, column_from_app.
      rewrite (column_from_nolf (spaces_of _)) by apply nolf_spaces.
      rewrite length_spaces. cbn. lia.
    + rewrite column_from_nolf by apply nolf_spaces. rewrite length_spaces. lia.
  - rewrite andb_false_r. cbn [app column_from].
    rewrite column_from_nolf by apply nolf_spaces. rewrite length_spaces. lia.
Qed.

Lemma firstn_S_nth {A : Type} (d : A) j : forall l,
  j < length l -> firstn (S j) l = firstn j l ++ [nth j l d].
Proof.
  induction j as [|j IH]; intros [|a l] H; simpl in H; try lia.
  - reflexivity.
  - rewrite firstn_cons, IH by lia. reflexivity.
Qed.

Lemma row_text_before_S j it widths prefix spaces newlines :
  j < length it -> length it <= length widths ->
  row_text_before (S j) it widths prefix spaces newlines
  = row_text_before j it widths prefix spaces newlines
    ++ row_element j (length it) (nth j it []) (nth j widths 0)
                   prefix spaces newlines.
Proof.
  intros Hj Hw. unfold row_text_before.
  rewrite (firstn_S_nth ([] : str) j it Hj), row_loop_app.
  assert (L : length (firstn j it) = j) by (apply firstn_length_le; lia).
  pose proof (row_loop_ok (firstn j it) 0 (length it) widths prefix spaces newlines)
    as Hok.
  destruct (row_loop 0 (length it) (firstn j it) widths prefix spaces newlines)
    as [o [e|]]; [cbn [snd] in Hok; rewrite L in Hok; discriminate Hok; lia|].
  cbn [then_ fst]. rewrite L. cbn [row_loop Nat.add].
  destruct (nth_error widths j) as [w|] eqn:E;
    [|apply nth_error_None in E; lia].
  rewrite (nth_error_nth _ _ 0 E). cbn. rewrite app_nil_r, <- !app_assoc.
  reflexivity.
Qed.

(** The start columns of a row as a function of the widths alone. *)
Lemma start_column_eq it widths prefix spacing newlines : forall j,
  j <= length it -> fits it widths -> nolf prefix = true ->
  (forall k, nolf (nth k it []) = true) ->
  start_column j it widths prefix (spaces_of spacing) newlines
  = column_of j (length it) widths (length prefix) spacing newlines.
Proof.
  intros j Hj (Hlen & Hfit) Hp Hnl. induction j as [|j IH].
  - unfold start_column, row_text_before. cbn [firstn row_loop wrote fst].
    rewrite app_nil_r, column_from_nolf.
    + rewrite length_app. cbn. lia.
    + rewrite nolf_app, Hp. reflexivity.
  - unfold start_column in *. rewrite row_text_before_S by lia.
    rewrite column_from_app, IH by lia.
    cbn [column_of]. apply column_row_element; auto.
Qed.

(** ** The widths of a block *)

Lemma quote_row_fits : forall row widths,
  length row = length widths ->
  exists widths',
    quote_row row widths = (map quote_str row, inr widths')
    /\ length widths' = length widths
    /\ (forall k, nth k widths 0 <= nth k widths' 0)
    /\ (forall k, length (nth k (map quote_str row) []) <= nth k widths' 0).
Proof.
  induction row as [|v row IH]; intros [|w ws] H; simpl in H; try discriminate.
  - exists []. repeat split; auto. intros [|k]; simpl; lia.
  - injection H as H. destruct (IH ws H) as (ws' & E & L & Hm & Hf).
    simpl. rewrite E. eexists. split; [reflexivity|]. simpl.
    repeat split; [now rewrite L| |]; intros [|k]; auto; lia.
Qed.

Lemma quote_rows_fits : forall act number widths act' widths',
  length widths = number ->
  quote_rows number act widths = (act', inr widths') ->
  length widths' = number
  /\ (forall k, nth k widths 0 <= nth k widths' 0)
  /\ (forall r, In (Row r) act -> fits (map quote_str r.(item)) widths').
Proof.
  induction act as [|a act IH]; intros number widths act' widths' Hw; simpl.
  - intros H. inversion H. subst act' widths'.
    split; [auto|split; [auto|]]. intros r [].
  - destruct a as [s|r].
    + destruct (quote_rows number act widths) as [rest' res] eqn:E.
      intros H. inversion H. subst act' res.
      destruct (IH _ _ _ _ Hw E) as (L & Hm & Hf). split; [auto|split; [auto|]].
      intros r0 [Hr|Hr]; [discriminate|now apply Hf].
    + destruct (length r.(item) =? number) eqn:En; [|discriminate].
      apply Nat.eqb_eq in En. cbn [negb].
      destruct (quote_row_fits r.(item) widths) as (w1 & E1 & L1 & Hm1 & Hf1);
        [congruence|].
      rewrite E1.
      destruct (quote_rows number act w1) as [rest' res] eqn:E.
      intros H. inversion H. subst act' res.
      destruct (IH _ _ _ _ (eq_trans L1 Hw) E) as (L & Hm & Hf).
      split; [auto|split].
      * intros k. specialize (Hm1 k). specialize (Hm k). lia.
      * intros r' [Hr|Hr]; [|now apply Hf].
        inversion Hr; subst r'. split.
        -- rewrite length_map. congruence.
        -- intros k. specialize (Hf1 k). specialize (Hm k). lia.
Qed.

Lemma rows_of_quote_block d it :
  In it (rendered_rows d) ->
  it = d.(formal).(item)
  \/ exists r, In (Row r) d.(actual) /\ it = map quote_str r.(item).
Proof.
  unfold rendered_rows, quote_block. cbn [actual set_actual].
  intros [H|H]; [now left|right].
  apply in_flat_map in H as (a & Ha & Hit).
  apply in_map_iff in Ha as (a0 & <- & Ha0).
  destruct a0 as [s|r]; simpl in Hit; [destruct Hit|].
  destruct Hit as [<-|[]]. now exists r.
Qed.

(** Every rendered row of a block fits the widths of the block. *)
Lemma block_widths_fits d widths it :
  block_widths d = Some widths -> In it (rendered_rows d) -> fits it widths.
Proof.
  unfold block_widths.
  destruct (quote_rows _ _ _) as [act' [e|w]] eqn:E; [discriminate|].
  intros H Hit. inversion H; subst.
  destruct (quote_rows_fits _ _ _ _ _ (length_map _ _) E) as (L & Hm & Hf).
  apply rows_of_quote_block in Hit as [->|(r & Hr & ->)]; [|now apply Hf].
  split; [now rewrite L|].
  intros k. specialize (Hm k).
  destruct (Nat.lt_ge_cases k (length d.(formal).(item))) as [Hk|Hk].
  - rewrite (nth_indep _ 0 (length (@nil ascii))) in Hm
      by (rewrite length_map; exact Hk).
    now rewrite map_nth in Hm.
  - rewrite (nth_overflow d.(formal).(item)) by exact Hk. simpl. lia.
Qed.

(** What [generate_substitution] writes, in terms of the widths of the block. *)
Lemma generate_substitution_layout d indent spacing width widths :
  block_widths d = Some widths ->
  generate_substitution d indent spacing width
  = (quote_block d,
     let newlines := newlines_of widths spacing width in
     then_ (wrote ("file " ++ quote_str d.(template).(item)
                   ++ match d.(template).(comment) with
                      | Some c => " {  " ++ c
                      | None => " {"
                      end ++ nl))
     (then_ (wrote (put_comments d.(comments)))
     (then_ (generate_row d.(formal) widths (spaces_of indent ++ "pattern")
                          (spaces_of spacing) newlines)
     (then_ (put_actual (quote_block d).(actual) widths (spaces_of indent)
                        (spaces_of spacing) newlines)
            (wrote (match d.(eos_comment) with
                    | None => "}" ++ nl
                    | Some c => "}  " ++ c ++ nl
                    end)))))).
Proof.
  unfold block_widths, generate_substitution, quote_block.
  destruct (quote_rows _ _ _) as [act' [e|w]] eqn:E; [discriminate|].
  intros H. inversion H; subst.
  now rewrite (quote_rows_inr _ _ _ _ _ E).
Qed.

(** The text of a row starts with [row_text_before j] and goes on with
    element [j]. *)
Lemma generate_row_text j it c widths prefix spaces newlines :
  j < length it -> length it <= length widths ->
  exists rest,
    fst (generate_row (With_comment it c) widths prefix spaces newlines)
    = row_text_before j it widths prefix spaces newlines ++ nth j it [] ++ rest.
Proof.
  intros Hj Hw. unfold generate_row, row_text_before. cbn [item comment].
  rewrite then_wrote. cbn [fst].
  replace (row_loop 0 (length it) it widths prefix spaces newlines)
    with (row_loop 0 (length it) (firstn j it ++ skipn j it) widths prefix
            spaces newlines) by now rewrite firstn_skipn.
  rewrite row_loop_app.
  assert (L : length (firstn j it) = j) by (apply firstn_length_le; lia).
  pose proof (row_loop_ok (firstn j it) 0 (length it) widths prefix spaces newlines)
    as Hok.
  destruct (row_loop 0 (length it) (firstn j it) widths prefix spaces newlines)
    as [o [e|]]; [cbn [snd] in Hok; rewrite L in Hok; discriminate Hok; lia|].
  rewrite L. cbn [Nat.add].
  assert (Hs : skipn j it = nth j it [] :: skipn (S j) it).
  { clear -Hj. revert it Hj. induction j as [|j IH]; intros [|a it] Hj;
      simpl in Hj; try lia; [reflexivity|]. simpl. apply IH. lia. }
  rewrite Hs. cbn [row_loop].
  destruct (nth_error widths j) as [w|] eqn:E;
    [|apply nth_error_None in E; lia].
  unfold row_element.
  destruct (row_loop (S j) _ _ _ _ _ _) as [o2 e2].
  destruct e2 as [e2|]; eexists; unfold then_, wrote; cbn [fst snd];
    rewrite <- ?app_assoc; cbn [list_ascii_of_string app];
    rewrite <- ?app_assoc; reflexivity.
Qed.

Lemma word_nolb w : word w = true -> nolb w = true.
Proof.
  destruct w as [|c w]; [discriminate|]. unfold word.
  intros H. repeat (apply andb_true_iff in H as [H ?]). assumption.
Qed.

Lemma quoted_nolb body : nolb body = true -> nolb (quoted body) = true.
Proof.
  intros H. unfold quoted. change (dquote :: body ++ [dquote]) with ([dquote] ++ body ++ [dquote]).
  rewrite !nolb_app, H. reflexivity.
Qed.

Lemma wf_value_nolb v : wf_value v -> nolb v = true.
Proof.
  intros [(body & -> & _ & H)|H]; [now apply quoted_nolb|now apply word_nolb].
Qed.

Lemma quote_str_nolb v : nolb v = true -> nolb (quote_str v) = true.
Proof.
  intros H. unfold quote_str. destruct (_ && _); [|exact H].
  now apply quoted_nolb.
Qed.

Lemma wf_block_in source d :
  wf_document source -> In (Substitution d) source -> wf_block d.
Proof.
  intros H Hin. unfold wf_document in H. rewrite Forall_forall in H.
  exact (H _ Hin).
Qed.

Lemma nth_nolf (l : list str) :
  Forall (fun v => nolb v = true) l -> forall k, nolf (nth k l []) = true.
Proof.
  intros H k. destruct (Nat.lt_ge_cases k (length l)) as [Hk|Hk].
  - rewrite Forall_forall in H. apply nolb_nolf, H, nth_In, Hk.
  - now rewrite nth_overflow.
Qed.

(** No value of a rendered row of a well-formed block holds a newline. *)
Lemma rendered_rows_nolb d it :
  wf_block d -> In it (rendered_rows d) -> Forall (fun v => nolb v = true) it.
Proof.
  intros (_ & _ & _ & _ & Hnames & _ & Hact & _) Hit.
  apply rows_of_quote_block in Hit as [->|(r & Hr & ->)].
  - eapply Forall_impl; [|exact Hnames]. intros n [Hn _]. now apply word_nolb.
  - rewrite Forall_forall in Hact. specialize (Hact _ Hr) as (_ & Hv & _).
    apply Forall_map. eapply Forall_impl; [|exact Hv].
    intros v Hv'. now apply quote_str_nolb, wf_value_nolb.
Qed.

Lemma row_in_rendered d r :
  In (Row r) (quote_block d).(actual) -> In r.(item) (rendered_rows d).
Proof.
  intros H. right. apply in_flat_map. exists (Row r). split; [exact H|now left].
Qed.

(** The start column of every element of every rendered row of a block. *)
Lemma rendered_start_column d widths it prefix indent spacing newlines j :
  wf_block d -> block_widths d = Some widths -> In it (rendered_rows d) ->
  length prefix = indent + 7 -> nolf prefix = true ->
  j <= length it ->
  start_column j it widths prefix (spaces_of spacing) newlines
  = column_of j (length d.(formal).(item)) widths (indent + 7) spacing newlines.
Proof.
  intros Hwf Hw Hit Hlp Hp Hj.
  pose proof (block_widths_fits _ _ _ Hw Hit) as Hfit.
  pose proof (block_widths_fits _ _ _ Hw (or_introl eq_refl)) as Hfit0.
  rewrite start_column_eq; auto.
  - rewrite Hlp. f_equal. destruct Hfit, Hfit0. congruence.
  - apply nth_nolf. eapply rendered_rows_nolb; eauto.
Qed.

Lemma prefix_pattern indent :
  length (spaces_of indent ++ "pattern") = indent + 7
  /\ nolf (spaces_of indent ++ "pattern") = true.
Proof.
  rewrite length_app, length_spaces, nolf_app, nolf_spaces. now split.
Qed.

Lemma prefix_blank indent :
  length (spaces_of indent ++ "       ") = indent + 7
  /\ nolf (spaces_of indent ++ "       ") = true.
Proof.
  rewrite length_app, length_spaces, nolf_app, nolf_spaces. now split.
Qed.

(** C5.  In every block that [process_source] has parsed and that
    [generate_substitution] renders (the first loop yields the widths), the
    value in position [j] starts at the same column in the formal row and
    in every actual row, wherever the row is wrapped. *)
Theorem C5_columns_aligned :
  forall source_name text err source d indent spacing width widths,
    process_source source_name text = (err, inr source) ->
    In (Substitution d) source ->
    block_widths d = Some widths ->
    forall r j,
      In (Row r) (quote_block d).(actual) ->
      j < length d.(formal).(item) ->
      start_column j r.(item) widths (spaces_of indent ++ "       ")
                   (spaces_of spacing) (newlines_of widths spacing width)
      = start_column j d.(formal).(item) widths (spaces_of indent ++ "pattern")
                     (spaces_of spacing) (newlines_of widths spacing width).
Proof.
  intros source_name text err source d indent spacing width widths
         Hparse Hin Hw r j Hr Hj.
  assert (Hwf : wf_block d).
  { eapply wf_block_in; [eapply process_source_wf; eauto|exact Hin]. }
  pose proof (row_in_rendered _ _ Hr) as Hrow.
  pose proof (block_widths_fits _ _ _ Hw Hrow) as [L1 _].
  pose proof (block_widths_fits _ _ _ Hw (or_introl eq_refl)) as [L0 _].
  destruct (prefix_pattern indent) as [P1 P2].
  destruct (prefix_blank indent) as [B1 B2].
  rewrite (rendered_start_column d widths r.(item) _ indent); auto; [|lia].
  rewrite (rendered_start_column d widths d.(formal).(item) _ indent); auto;
    [now left|lia].
Qed.

Lemma C5_witness :
  start_column 1 [quoted "1"; quoted "2"] [3; 3] (spaces_of 4 ++ "       ")
               (spaces_of 2) (newlines_of [3; 3] 2 120)
  = start_column 1 ["X" : str; "Y" : str] [3; 3] (spaces_of 4 ++ "pattern")
                 (spaces_of 2) (newlines_of [3; 3] 2 120).
Proof.
  apply (C5_columns_aligned "<stdin>" scenario_text [] [Substitution scenario_block]
           scenario_block 4 2 120 [3; 3]
           eq_refl (or_introl eq_refl) eq_refl
           (bare [quoted "1"; quoted "2"]) 1 (or_introl eq_refl)).
  simpl. lia.
Defined.

(** ** The wrap points and the width budget *)

Lemma mem_cons j k l : mem j (k :: l) = (j =? k) || mem j l.
Proof. reflexivity. Qed.

Lemma newlines_from_lower : forall widths j0 total spacing width i,
  i < j0 -> mem i (newlines_from j0 total widths spacing width) = false.
Proof.
  induction widths as [|w ws IH]; intros j0 total spacing width i H;
    [reflexivity|].
  cbn [newlines_from]. destruct (width <? _).
  - rewrite mem_cons, IH by lia.
    replace (i =? j0) with false by (symmetry; apply Nat.eqb_neq; lia).
    reflexivity.
  - apply IH. lia.
Qed.

(** Column [k] is a wrap point when the running total, with the column
    added, exceeds [width]. *)
Lemma mem_newlines_from : forall widths j0 total spacing width k,
  k < length widths ->
  mem (j0 + k) (newlines_from j0 total widths spacing width)
  = (width <? total_at k total widths spacing width
              + (nth k widths 0 + spacing + 1)).
Proof.
  induction widths as [|w ws IH]; intros j0 total spacing width k H;
    [simpl in H; lia|].
  cbn [newlines_from]. destruct k as [|k].
  - rewrite Nat.add_0_r. cbn [total_at nth].
    destruct (width <? total + (w + spacing + 1)) eqn:E.
    + now rewrite mem_cons, Nat.eqb_refl.
    + apply newlines_from_lower. lia.
  - cbn [total_at nth]. simpl in H.
    replace (j0 + S k) with (S j0 + k) by lia.
    destruct (width <? total + (w + spacing + 1)) eqn:E.
    + rewrite mem_cons, IH by lia.
      replace (S j0 + k =? j0) with false by (symmetry; apply Nat.eqb_neq; lia).
      reflexivity.
    + apply IH. lia.
Qed.

Lemma total_at_S : forall widths k total spacing width,
  k < length widths ->
  total_at (S k) total widths spacing width
  = let t := total_at k total widths spacing width
             + (nth k widths 0 + spacing + 1) in
    if width <? t then 10 else t.
Proof.
  induction widths as [|w ws IH]; intros k total spacing width H;
    [simpl in H; lia|].
  destruct k as [|k]; [reflexivity|].
  simpl in H. change (total_at (S (S k)) total (w :: ws) spacing width)
    with (total_at (S k)
            (if width <? total + (w + spacing + 1) then 10
             else total + (w + spacing + 1)) ws spacing width).
  rewrite IH by lia. reflexivity.
Qed.

Lemma total_at_bound widths spacing width : forall k,
  k <= length widths ->
  total_at k 10 widths spacing width <= Nat.max 10 width.
Proof.
  induction k as [|k IH]; intros H; [cbn [total_at]; lia|].
  rewrite total_at_S by lia. cbv zeta.
  destruct (width <? _) eqn:E; [lia|]. apply Nat.ltb_ge in E. lia.
Qed.

(** The start column of an element is the running total of the wrap-point
    loop, moved right by [indent]. *)
Lemma column_of_total widths indent spacing width number : forall j,
  j < number -> number <= length widths ->
  column_of j number widths (indent + 7) spacing (newlines_of widths spacing width)
  = indent + total_at j 10 widths spacing width.
Proof.
  induction j as [|j IH]; intros Hj Hn.
  - cbn [column_of total_at]. lia.
  - cbn [column_of]. rewrite IH by lia. rewrite total_at_S by lia.
    unfold next_column, newlines_of.
    pose proof (mem_newlines_from widths 0 10 spacing width j) as Hm.
    cbn [Nat.add] in Hm. rewrite Hm by lia.
    replace (j <? number - 1) with true by (symmetry; apply Nat.ltb_lt; lia).
    cbv zeta. destruct (width <? _); cbn [andb]; lia.
Qed.

(** In every block that [process_source] has parsed and that is rendered
    with a width of at least 10, each value of the formal row and of every
    actual row starts at most [indent + width] columns into its output
    line. *)
Lemma values_start_within_budget :
  forall source_name text err source d indent spacing width widths,
    process_source source_name text = (err, inr source) ->
    In (Substitution d) source ->
    block_widths d = Some widths ->
    10 <= width ->
    forall it prefix j,
      In it (rendered_rows d) ->
      prefix = spaces_of indent ++ "pattern"
      \/ prefix = spaces_of indent ++ "       " ->
      j < length it ->
      start_column j it widths prefix (spaces_of spacing)
                   (newlines_of widths spacing width)
      <= indent + width.
Proof.
  intros source_name text err source d indent spacing width widths
         Hparse Hin Hw Hwidth it prefix j Hit Hprefix Hj.
  assert (Hwf : wf_block d).
  { eapply wf_block_in; [eapply process_source_wf; eauto|exact Hin]. }
  pose proof (block_widths_fits _ _ _ Hw Hit) as [L1 _].
  pose proof (block_widths_fits _ _ _ Hw (or_introl eq_refl)) as [L0 _].
  assert (Hp : length prefix = indent + 7 /\ nolf prefix = true).
  { destruct Hprefix as [->| ->]; [apply prefix_pattern|apply prefix_blank]. }
  destruct Hp as [P1 P2].
  rewrite (rendered_start_column d widths it prefix indent); auto; [|lia].
  rewrite column_of_total by lia.
  pose proof (total_at_bound widths spacing width j). lia.
Qed.

(** C4.  The width is not kept.  With three formal names of twenty
    characters each, an indent of 4, a spacing of 2 and a width of 60, the
    widths of the columns are 20 each, and the wrap-point loop marks its one
    break after the last column, the one with which the running total
    exceeds the width; [generate_row] breaks a line after no last column.
    So the formal row is written on one line of 82 characters, though no
    name and no value is longer than the width. *)
Theorem C4_row_exceeds_width :
  process_source "<stdin>" wide_text = ([], inr [Substitution wide_block])
  /\ block_widths wide_block = Some [20; 20; 20]
  /\ newlines_of [20; 20; 20] 2 60 = [2]
  /\ process "<stdin>" wide_text 4 2 60 = ([], (wide_output, None))
  /\ (exists line, nth_error (splitlines wide_output) 1 = Some line
                   /\ length line = 82)
  /\ Forall (fun v => length v <= 60)
            (wide_block.(template).(item)
             :: concat (rendered_rows wide_block)).
Proof.
  split; [vm_compute; reflexivity|].
  split; [vm_compute; reflexivity|].
  split; [vm_compute; reflexivity|].
  split; [vm_compute; reflexivity|].
  split; [eexists; split; vm_compute; reflexivity|].
  repeat constructor.
Qed.

(** Trailing comments are appended to a row as they are: a row of one
    short value with a comment of seventy characters is written on one line
    of 93 characters. *)
Lemma trailing_comment_is_not_wrapped :
  exists out line,
    process "<stdin>" long_comment_text 4 2 60 = ([], (out, None))
    /\ In line (splitlines out)
    /\ 60 < length line.
Proof.
  eexists. eexists. split; [vm_compute; reflexivity|].
  split; [apply (nth_error_In _ 2); vm_compute; reflexivity|].
  vm_compute; lia.
Qed.

(** * The tokens of a text, piece by piece *)

Lemma pseq_pcons x a b : pseq (pcons x a) b = pcons x (pseq a b).
Proof. destruct a as [ta [|]]; reflexivity. Qed.

Lemma pseq_nil b : pseq ([], false) b = b.
Proof. now destruct b. Qed.

Lemma pprepend_nil p : pprepend [] p = p.
Proof. now destruct p. Qed.

Lemma pprepend_cons x xs p : pprepend (x :: xs) p = pcons x (pprepend xs p).
Proof. reflexivity. Qed.

Lemma pprepend_app xs ys p : pprepend (xs ++ ys) p = pprepend xs (pprepend ys p).
Proof. unfold pprepend. cbn [fst snd]. now rewrite app_assoc. Qed.

Lemma tok_line_eq source_name lineno line :
  plain (fst (line_tokens source_name lineno line)) = tok_line line.
Proof.
  unfold tok_line, line_tokens.
  destruct (_ || _); cbn [fst]; [reflexivity|].
  rewrite plain_scan. symmetry. apply plain_scan.
Qed.

Lemma plain_lines_tokens_cons source_name lineno col0 line rest :
  plain (lines_tokens source_name lineno col0 (line :: rest))
  = pseq (plain (fst (line_tokens source_name (lineno + 1) line)))
         (plain (lines_tokens source_name (lineno + 1)
                   (snd (line_tokens source_name (lineno + 1) line)) rest)).
Proof.
  cbn [lines_tokens].
  destruct (line_tokens source_name (lineno + 1) line) as [[ts [e|]] c'];
    cbn [fst snd]; [reflexivity|].
  unfold pseq, plain. cbn [fst snd]. now rewrite map_app.
Qed.

Lemma plain_lines_tokens_indep : forall lines n l c n' l' c',
  plain (lines_tokens n l c lines) = plain (lines_tokens n' l' c' lines).
Proof.
  induction lines as [|line rest IH]; intros n l c n' l' c'; [reflexivity|].
  rewrite !plain_lines_tokens_cons, !tok_line_eq. f_equal. apply IH.
Qed.

Lemma plain_lines_tokens lines source_name lineno col0 :
  plain (lines_tokens source_name lineno col0 lines) = tok_lines lines.
Proof. apply plain_lines_tokens_indep. Qed.

Lemma tok_lines_nil : tok_lines [] = ([(Tokens.end_of_file, [])], false).
Proof. reflexivity. Qed.

Lemma tok_lines_cons line rest :
  tok_lines (line :: rest) = pseq (tok_line line) (tok_lines rest).
Proof.
  unfold tok_lines at 1. rewrite plain_lines_tokens_cons, tok_line_eq.
  f_equal. apply plain_lines_tokens.
Qed.

Lemma plain_get_token source_name text :
  plain (get_token source_name text) = tok_text text.
Proof. apply plain_lines_tokens. Qed.

Lemma tok_line_comment line :
  lstrip (rstrip line) = [] \/ startswith (lstrip (rstrip line)) "#" = true ->
  tok_line line = ([(Tokens.comment, rstrip line)], false).
Proof.
  intros H. unfold tok_line, line_tokens.
  destruct H as [H|H]; rewrite H; [reflexivity|].
  now rewrite orb_true_r.
Qed.

Lemma tok_line_scan line c t :
  lstrip (rstrip line) = c :: t -> ch_eqb c "#" = false ->
  tok_line line = lex (c :: t).
Proof.
  intros H Hc. unfold tok_line, line_tokens. rewrite H.
  cbn [length Nat.eqb orb list_ascii_of_string].
  rewrite startswith_single, Hc. cbn [fst]. unfold lex. apply plain_scan.
Qed.

(** ** Continuing inside a line *)

Lemma isspace_linebreak c : isspace c = false -> is_linebreak c = false.
Proof.
  unfold isspace, is_linebreak. cbv zeta.
  destruct (10 <=? code c) eqn:E1, (code c <=? 13) eqn:E2,
           (28 <=? code c) eqn:E3, (code c <=? 30) eqn:E4,
           (code c =? 133) eqn:E5; cbn [andb orb]; try reflexivity;
    intros H; exfalso;
    repeat match goal with
           | H : (_ <=? _) = true |- _ => apply Nat.leb_le in H
           | H : (_ <=? _) = false |- _ => apply Nat.leb_gt in H
           | H : (_ =? _) = true |- _ => apply Nat.eqb_eq in H
           | H : (_ =? _) = false |- _ => apply Nat.eqb_neq in H
           | H : _ || _ = false |- _ => apply orb_false_iff in H as [? ?]
           | H : _ && _ = false |- _ => apply andb_false_iff in H as [?|?]
           end; lia.
Qed.

Lemma nolb_spaces n : nolb (spaces_of n) = true.
Proof. induction n; simpl; auto. Qed.

Lemma isspace_spaces n : forallb isspace (spaces_of n) = true.
Proof. induction n; simpl; auto. Qed.

Lemma rstrip_spaces_app n f :
  lstrip (rstrip (spaces_of n ++ f)) = lstrip (rstrip f).
Proof.
  rewrite rstrip_app. destruct (rstrip f) eqn:E.
  - rewrite rstrip_all_space by apply isspace_spaces. reflexivity.
  - apply lstrip_spaces.
Qed.

(** K1: blanks are skipped. *)
Lemma cont_spaces n text : cont (spaces_of n ++ text) = cont text.
Proof.
  unfold cont.
  rewrite first_line_app, other_lines_app by apply nolb_spaces.
  now rewrite rstrip_spaces_app.
Qed.

(** K2: a piece [x] that the tokenizer reads as one token, whatever stands
    behind it among the texts that satisfy [P]. *)
Lemma cont_token (P : str -> Prop) x tok text :
  nolb x = true -> x <> [] -> rstrip x = x -> lstrip x = x ->
  (forall r, P r -> lex (x ++ r) = pcons tok (lex (lstrip r))) ->
  P (rstrip (hd [] (splitlines text))) ->
  cont (x ++ text) = pcons tok (cont text).
Proof.
  intros Hlb Hne Hr Hl Hlex HP. unfold cont.
  rewrite first_line_app, other_lines_app by exact Hlb.
  rewrite rstrip_app_fixed by assumption.
  assert (Hl' : forall y, lstrip (x ++ y) = x ++ y).
  { intros y. destruct x as [|c x']; [congruence|].
    pose proof (lstrip_fixed_head _ _ Hl) as Hc. cbn [app].
    now apply lstrip_cons_nonspace. }
  rewrite Hl', Hlex by exact HP. now rewrite pseq_pcons.
Qed.

Lemma cont_file text : cont ("file" ++ text) = pcons (Tokens.file, []) (cont text).
Proof.
  apply (cont_token (fun _ => True)); try reflexivity; try discriminate; auto.
  intros r _. apply lex_file.
Qed.

Lemma cont_pattern text :
  cont ("pattern" ++ text) = pcons (Tokens.pattern, []) (cont text).
Proof.
  apply (cont_token (fun _ => True)); try reflexivity; try discriminate; auto.
  intros r _. apply lex_pattern.
Qed.

Lemma cont_open_brace text :
  cont ("{" ++ text) = pcons (Tokens.open_brace, []) (cont text).
Proof.
  apply (cont_token (fun _ => True)); try reflexivity; try discriminate; auto.
  intros r _. apply lex_open_brace.
Qed.

Lemma cont_close_brace text :
  cont ("}" ++ text) = pcons (Tokens.close_brace, []) (cont text).
Proof.
  apply (cont_token (fun _ => True)); try reflexivity; try discriminate; auto.
  intros r _. apply lex_close_brace.
Qed.

Lemma cont_comma text :
  cont ("," ++ text) = pcons (Tokens.comma, []) (cont text).
Proof.
  apply (cont_token (fun _ => True)); try reflexivity; try discriminate; auto.
  intros r _. apply lex_comma.
Qed.

Lemma cont_quoted body text :
  find dquote body = None -> nolb body = true ->
  cont (quoted body ++ text) = pcons (Tokens.value, quoted body) (cont text).
Proof.
  intros Hf Hlb.
  apply (cont_token (fun _ => True)).
  - now apply quoted_nolb.
  - discriminate.
  - unfold quoted.
    change (dquote :: body ++ [dquote]) with ((dquote :: body) ++ [dquote]).
    now apply rstrip_snoc.
  - reflexivity.
  - intros r _. now apply lex_quoted.
  - exact I.
Qed.

Lemma word_fixed w :
  word w = true -> w <> [] /\ rstrip w = w /\ lstrip w = w.
Proof.
  destruct w as [|c w']; [discriminate|]. unfold word.
  intros H. repeat (apply andb_true_iff in H as [H ?]).
  split; [discriminate|]. split; [now apply rstrip_fixed|].
  apply lstrip_cons_nonspace. now apply negb_true_iff.
Qed.

Lemma follows_word_delimiter d text :
  delimiter d = true ->
  follows_word (rstrip (hd [] (splitlines (d :: text)))).
Proof.
  intros Hd.
  assert (Hlb : nolb [d] = true).
  { apply delimiter_cases in Hd as [-> | [-> | [-> | ->]]]; reflexivity. }
  change (d :: text) with ([d] ++ text). rewrite first_line_app by exact Hlb.
  cbn [app]. simpl rstrip.
  destruct (rstrip (hd [] (splitlines text))).
  - destruct (isspace d); [now left|right; eauto].
  - right. eauto.
Qed.

(** A word is one token when a delimiter stands behind it. *)
Lemma cont_word w d text :
  word w = true -> delimiter d = true ->
  cont (w ++ d :: text) = pcons (word_kind w, w) (cont (d :: text)).
Proof.
  intros Hw Hd. destruct (word_fixed w Hw) as (Hne & Hr & Hl).
  apply (cont_token follows_word).
  - now apply word_nolb.
  - exact Hne.
  - exact Hr.
  - exact Hl.
  - intros r Hfr. now apply lex_word.
  - now apply follows_word_delimiter.
Qed.

(** K3: at a newline the next line starts. *)
Lemma cont_nl text : cont (nl ++ text) = tok_text text.
Proof.
  unfold cont, tok_text. rewrite splitlines_nl. cbn [hd tl rstrip lstrip].
  rewrite lex_nil. apply pseq_nil.
Qed.

(** K4: a line that starts, after blanks, with a character that is neither
    white space nor [#] is scanned from that character. *)
Lemma tok_line_spaces n c f :
  isspace c = false -> ch_eqb c "#" = false ->
  tok_line (spaces_of n ++ c :: f) = lex (lstrip (rstrip (c :: f))).
Proof.
  intros Hc Hh. destruct (rstrip_cons_nonspace c f Hc) as (s' & Es).
  rewrite Es, lstrip_cons_nonspace by exact Hc.
  apply tok_line_scan; [|exact Hh].
  rewrite rstrip_spaces_app, Es. now apply lstrip_cons_nonspace.
Qed.

Lemma tok_text_line n c text :
  isspace c = false -> ch_eqb c "#" = false ->
  tok_text (spaces_of n ++ c :: text) = cont (c :: text).
Proof.
  intros Hc Hh. unfold tok_text, cont.
  rewrite splitlines_app by apply nolb_spaces.
  rewrite splitlines_plain by now apply isspace_linebreak.
  destruct (splitlines text) as [|l ls]; cbn [hd tl];
    rewrite tok_lines_cons, tok_line_spaces by assumption; reflexivity.
Qed.

(** K5: a comment line. *)
Lemma tok_text_comment line text :
  nolb line = true ->
  lstrip (rstrip line) = [] \/ startswith (lstrip (rstrip line)) "#" = true ->
  tok_text (line ++ nl ++ text) = pcons (Tokens.comment, rstrip line) (tok_text text).
Proof.
  intros Hlb Hc. unfold tok_text.
  rewrite splitlines_app, splitlines_nl by exact Hlb.
  rewrite app_nil_r, tok_lines_cons, tok_line_comment by exact Hc.
  reflexivity.
Qed.

(** K6: an end-of-line comment closes the line. *)
Lemma cont_eol c text :
  eol_literal c ->
  cont (c ++ nl ++ text) = pcons (Tokens.eol_comment, c) (tok_text text).
Proof.
  intros (Hlb & Hr & Hs). unfold cont, tok_text.
  rewrite splitlines_app, splitlines_nl by exact Hlb.
  cbn [hd tl]. rewrite app_nil_r, Hr.
  destruct c as [|h t]; [discriminate|].
  change (startswith (h :: t) "#") with (ch_eqb h "#" && true) in Hs.
  rewrite andb_true_r in Hs. apply ch_eqb_eq in Hs. subst h.
  rewrite lstrip_cons_nonspace by reflexivity.
  rewrite lex_hash, Hr. reflexivity.
Qed.

Lemma tok_text_nil : tok_text [] = ([(Tokens.end_of_file, [])], false).
Proof. reflexivity. Qed.

(** * The text that rendering writes *)

Lemma generate_row_ok it widths prefix spaces newlines :
  length it.(item) <= length widths ->
  generate_row it widths prefix spaces newlines
  = (row_text it widths prefix spaces newlines, None).
Proof.
  intros H. unfold generate_row, row_text.
  pose proof (row_loop_ok it.(item) 0 (length it.(item)) widths prefix spaces
                newlines H) as Hok.
  destruct (row_loop 0 _ _ _ _ _ _) as [o e]. cbn [snd] in Hok. subst e.
  unfold then_, wrote. cbn [fst snd]. rewrite <- !app_assoc.
  now destruct it.(comment).
Qed.

Lemma put_actual_ok act widths i s newlines :
  (forall r, In (Row r) act -> length r.(item) <= length widths) ->
  put_actual act widths i s newlines
  = (flat_map (actual_text widths i s newlines) act, None).
Proof.
  induction act as [|a act IH]; intros H; [reflexivity|].
  assert (Hrest : forall r, In (Row r) act -> length r.(item) <= length widths)
    by (intros r Hr; apply H; now right).
  destruct a as [c|r]; cbn [put_actual flat_map actual_text].
  - rewrite (IH Hrest). reflexivity.
  - rewrite generate_row_ok by (apply H; now left).
    rewrite (IH Hrest). reflexivity.
Qed.

Lemma generate_substitution_ok d indent spacing width widths :
  block_widths d = Some widths ->
  generate_substitution d indent spacing width
  = (quote_block d, (block_text d widths indent spacing width, None)).
Proof.
  intros Hw. rewrite (generate_substitution_layout _ _ _ _ _ Hw). f_equal.
  cbv zeta.
  rewrite generate_row_ok.
  2:{ destruct (block_widths_fits _ _ _ Hw (or_introl eq_refl)) as [L _]. lia. }
  rewrite put_actual_ok.
  2:{ intros r Hr.
      destruct (block_widths_fits _ _ _ Hw (row_in_rendered _ _ Hr)) as [L _].
      lia. }
  unfold then_, wrote, block_text, put_comments. cbn [fst snd].
  rewrite <- !app_assoc. reflexivity.
Qed.

Lemma generate_substitution_None d indent spacing width d' out :
  generate_substitution d indent spacing width = (d', (out, None)) ->
  exists widths, block_widths d = Some widths.
Proof.
  unfold generate_substitution, block_widths.
  destruct (quote_rows _ _ _) as [act' [e|w]]; [discriminate|]. eauto.
Qed.

(** What [generate] writes when it returns. *)
Lemma generate_text : forall source indent spacing width source' out,
  generate source indent spacing width = (source', (out, None)) ->
  out = document_text source indent spacing width
  /\ forall d, In (Substitution d) source ->
               exists widths, block_widths d = Some widths.
Proof.
  induction source as [|x source IH]; intros indent spacing width source' out;
    cbn [generate].
  - intros H. inversion H. split; [reflexivity|]. intros d [].
  - destruct x as [s|d].
    + destruct (generate source indent spacing width) as [rest' [o e]] eqn:E.
      unfold then_, wrote. cbn [fst snd]. intros H. inversion H; subst.
      destruct (IH _ _ _ _ _ E) as (-> & Hw).
      split; [reflexivity|]. intros d [Hd|Hd]; [discriminate|auto].
    + destruct (generate_substitution d indent spacing width)
        as [d' [o [e|]]] eqn:Ed; [intros H; inversion H|].
      destruct (generate source indent spacing width) as [rest' [o' e']] eqn:E.
      unfold then_, wrote. cbn [fst snd]. intros H. inversion H; subst.
      destruct (IH _ _ _ _ _ E) as (-> & Hw).
      destruct (generate_substitution_None _ _ _ _ _ _ Ed) as (widths & Hd).
      rewrite (generate_substitution_ok _ _ _ _ _ Hd) in Ed.
      inversion Ed; subst. split.
      * unfold document_text. cbn [flat_map item_text]. now rewrite Hd.
      * intros d0 [Hd0|Hd0]; [inversion Hd0; subst; eauto|auto].
Qed.

(** And the other way round: a document whose blocks all have widths is
    rendered in full. *)
Lemma generate_ok : forall source indent spacing width,
  (forall d, In (Substitution d) source ->
             exists widths, block_widths d = Some widths) ->
  snd (generate source indent spacing width)
  = (document_text source indent spacing width, None).
Proof.
  induction source as [|x source IH]; intros indent spacing width H;
    [reflexivity|].
  assert (Hrest : forall d, In (Substitution d) source ->
                            exists widths, block_widths d = Some widths)
    by (intros d Hd; apply H; now right).
  specialize (IH indent spacing width Hrest).
  destruct x as [s|d]; cbn [generate].
  - destruct (generate source indent spacing width) as [rest' [o e]].
    cbn [snd] in *. inversion IH; subst. reflexivity.
  - destruct (H d (or_introl eq_refl)) as (widths & Hd).
    rewrite (generate_substitution_ok _ _ _ _ _ Hd).
    destruct (generate source indent spacing width) as [rest' [o e]].
    cbn [snd] in *. inversion IH; subst.
    unfold document_text. cbn [flat_map item_text]. now rewrite Hd.
Qed.

(** * The tokens of the rendered text *)

Lemma wf_value_head v :
  wf_value v ->
  exists c t, v = c :: t /\ isspace c = false /\ ch_eqb c "#" = false.
Proof.
  intros [(body & -> & _)|H].
  - exists dquote, (body ++ [dquote]). now split.
  - destruct v as [|c t]; [discriminate|]. exists c, t.
    unfold word in H. repeat (apply andb_true_iff in H as [H ?]).
    rewrite negb_true_iff in *. now split.
Qed.

Lemma word_not_quoted w : word w = true -> startswith w [dquote] = false.
Proof.
  destruct w as [|c t]; [discriminate|]. unfold word.
  intros H. repeat (apply andb_true_iff in H as [H ?]).
  rewrite negb_true_iff in *. now rewrite startswith_single.
Qed.

(** A name or a value is one token when a delimiter stands behind it. *)
Lemma cont_value v d text :
  wf_value v -> delimiter d = true ->
  cont (v ++ d :: text) = pcons (token_kind v, v) (cont (d :: text)).
Proof.
  intros [(body & -> & Hf & Hlb)|Hw] Hd.
  - now apply cont_quoted.
  - unfold token_kind. rewrite word_not_quoted by exact Hw.
    now apply cont_word.
Qed.

Lemma tok_text_indent n x c x' :
  x = c :: x' -> isspace c = false -> ch_eqb c "#" = false ->
  tok_text (spaces_of n ++ x) = cont x.
Proof. intros -> Hc Hh. now apply tok_text_line. Qed.

Lemma spaces_add a b : spaces_of a ++ spaces_of b = spaces_of (a + b).
Proof. unfold spaces_of. now rewrite repeat_app. Qed.

Lemma spaces_snoc g x : spaces_of g ++ " "%char :: x = " "%char :: spaces_of g ++ x.
Proof.
  change (" "%char :: x) with (spaces_of 1 ++ x).
  change (" "%char :: spaces_of g ++ x) with (spaces_of (1 + g) ++ x).
  rewrite app_assoc, spaces_add. f_equal. f_equal. lia.
Qed.

Lemma row_element_last j number v w prefix spaces newlines :
  (j <? number - 1) = false ->
  row_element j number v w prefix spaces newlines
  = v ++ spaces_of (w - length v).
Proof.
  intros H. unfold row_element. rewrite H, andb_false_r. reflexivity.
Qed.

Lemma row_element_mid j number v w prefix spaces newlines :
  (j <? number - 1) = true ->
  row_element j number v w prefix spaces newlines
  = v ++ "," ++ spaces
    ++ (if mem j newlines then nl ++ spaces_of (length prefix) ++ spaces_of 3
        else spaces_of (w - length v)).
Proof.
  intros H. unfold row_element. rewrite H, andb_true_r.
  now rewrite <- app_assoc.
Qed.

Lemma row_loop_cons j number v rest widths prefix spaces newlines w :
  nth_error widths j = Some w ->
  fst (row_loop j number (v :: rest) widths prefix spaces newlines)
  = row_element j number v w prefix spaces newlines
    ++ fst (row_loop (S j) number rest widths prefix spaces newlines).
Proof. intros H. cbn [row_loop]. rewrite H. reflexivity. Qed.

Lemma row_loop_head j number v rest widths prefix spaces newlines y :
  wf_value v -> j < length widths ->
  exists c x', fst (row_loop j number (v :: rest) widths prefix spaces newlines) ++ y
               = c :: x'
               /\ isspace c = false /\ ch_eqb c "#" = false.
Proof.
  intros Hv Hj. destruct (wf_value_head v Hv) as (c & t & -> & Hc & Hh).
  destruct (nth_error widths j) as [w|] eqn:E;
    [|apply nth_error_None in E; lia].
  rewrite (row_loop_cons _ _ _ _ _ _ _ _ w E). unfold row_element.
  cbn [app]. eauto.
Qed.

(** The elements of a row, from element [j] on, up to the closing brace. *)
Lemma cont_row_loop : forall items j number widths prefix spacing newlines z,
  items <> [] -> Forall wf_value items ->
  j + length items = number -> number <= length widths ->
  cont (fst (row_loop j number items widths prefix (spaces_of spacing) newlines)
        ++ " }" ++ z)
  = pprepend (values_tokens items) (pcons (Tokens.close_brace, []) (cont z)).
Proof.
  induction items as [|v rest IH];
    intros j number widths prefix spacing newlines z Hne Hall Hlen Hw;
    [congruence|].
  subst number.
  inversion Hall as [|? ? Hv Hrest]; subst.
  destruct (nth_error widths j) as [w|] eqn:E;
    [|apply nth_error_None in E; cbn [length] in Hw; lia].
  rewrite (row_loop_cons _ _ _ _ _ _ _ _ w E).
  destruct rest as [|v' rest'].
  - (* the last element *)
    cbn [row_loop wrote fst].
    rewrite row_element_last by (apply Nat.ltb_ge; cbn [length]; lia).
    rewrite app_nil_r, <- app_assoc.
    cbn [list_ascii_of_string app]. rewrite spaces_snoc.
    rewrite cont_value by (auto; reflexivity).
    change (" "%char :: spaces_of (w - length v) ++ "}"%char :: z)
      with (spaces_of (S (w - length v)) ++ "}" ++ z).
    rewrite cont_spaces, cont_close_brace. reflexivity.
  - (* an element followed by others *)
    rewrite row_element_mid by (apply Nat.ltb_lt; cbn [length]; lia).
    rewrite <- !app_assoc. cbn [list_ascii_of_string app].
    rewrite cont_value by (auto; reflexivity).
    change (","%char :: spaces_of spacing ++ ?x) with ("," ++ spaces_of spacing ++ x).
    rewrite cont_comma, cont_spaces.
    assert (Hnext :
      cont (fst (row_loop (S j) (j + length (v :: v' :: rest')) (v' :: rest')
                   widths prefix (spaces_of spacing) newlines) ++ " }" ++ z)
      = pprepend (values_tokens (v' :: rest'))
                 (pcons (Tokens.close_brace, []) (cont z))).
    { apply IH; auto; try discriminate; cbn [length] in *; lia. }
    cbn [values_tokens] in *. rewrite !pprepend_cons.
    f_equal. f_equal.
    destruct (mem j newlines).
    + rewrite <- !app_assoc, cont_nl.
      rewrite app_assoc, spaces_add.
      inversion Hrest as [|? ? Hv' _]; subst.
      destruct (row_loop_head (S j) (j + length (v :: v' :: rest')) v' rest'
                  widths prefix (spaces_of spacing) newlines (" }" ++ z) Hv')
        as (c & x' & Ex & Hc & Hh); [cbn [length] in *; lia|].
      rewrite (tok_text_indent _ _ c x' Ex Hc Hh). exact Hnext.
    + rewrite cont_spaces. exact Hnext.
Qed.

(** What follows the closing brace of a row or of a block. *)
Lemma cont_tail c text :
  wf_comment c ->
  cont (match c with
        | None => nl ++ text
        | Some c => "  " ++ c ++ nl ++ text
        end)
  = pprepend (comment_tokens c) (tok_text text).
Proof.
  intros H. destruct c as [c|]; cbn [comment_tokens].
  - change ("  " ++ c ++ nl ++ text) with (spaces_of 2 ++ c ++ nl ++ text).
    rewrite cont_spaces, cont_eol by exact H. reflexivity.
  - rewrite cont_nl. now rewrite pprepend_nil.
Qed.

Lemma row_end_app (c : option str) text :
  match c with
  | None => " }" ++ nl
  | Some c => " }  " ++ c ++ nl
  end ++ text
  = " }" ++ match c with
            | None => nl ++ text
            | Some c => "  " ++ c ++ nl ++ text
            end.
Proof.
  destruct c as [c|]; cbn [list_ascii_of_string app];
    rewrite <- ?app_assoc; reflexivity.
Qed.

(** A row, from its opening brace. *)
Lemma cont_row r widths prefix spacing newlines text :
  r.(item) <> [] -> Forall wf_value r.(item) -> wf_comment r.(comment) ->
  length r.(item) <= length widths ->
  cont ("{ "
        ++ fst (row_loop 0 (length r.(item)) r.(item) widths prefix
                         (spaces_of spacing) newlines)
        ++ match r.(comment) with
           | None => " }" ++ nl
           | Some c => " }  " ++ c ++ nl
           end ++ text)
  = pprepend (row_tokens r) (tok_text text).
Proof.
  intros Hne Hall Hc Hw.
  change ("{ " ++ ?x) with ("{" ++ spaces_of 1 ++ x).
  rewrite cont_open_brace, cont_spaces, row_end_app.
  rewrite cont_row_loop by (auto; lia).
  rewrite cont_tail by exact Hc.
  unfold row_tokens. rewrite pprepend_cons. f_equal.
  rewrite pprepend_app, pprepend_cons. reflexivity.
Qed.

(** An actual row, from the start of its line. *)
Lemma tok_text_row r widths indent spacing newlines text :
  r.(item) <> [] -> Forall wf_value r.(item) -> wf_comment r.(comment) ->
  length r.(item) <= length widths ->
  tok_text (row_text r widths (spaces_of indent ++ "       ")
                     (spaces_of spacing) newlines ++ text)
  = pprepend (row_tokens r) (tok_text text).
Proof.
  intros Hne Hall Hc Hw. unfold row_text.
  rewrite <- !app_assoc.
  change ("       " ++ " { " ++ ?x) with (spaces_of 8 ++ "{ " ++ x).
  rewrite app_assoc, spaces_add.
  cbn [list_ascii_of_string app].
  rewrite tok_text_line by reflexivity.
  now apply cont_row.
Qed.

(** The formal row, from the start of its line. *)
Lemma tok_text_formal r widths indent spacing newlines text :
  r.(item) <> [] -> Forall wf_value r.(item) -> wf_comment r.(comment) ->
  length r.(item) <= length widths ->
  tok_text (row_text r widths (spaces_of indent ++ "pattern")
                     (spaces_of spacing) newlines ++ text)
  = pprepend ((Tokens.pattern, []) :: row_tokens r) (tok_text text).
Proof.
  intros Hne Hall Hc Hw. unfold row_text.
  rewrite <- !app_assoc.
  cbn [list_ascii_of_string app].
  rewrite tok_text_line by reflexivity.
  change ("p"%char :: "a"%char :: "t"%char :: "t"%char :: "e"%char
          :: "r"%char :: "n"%char :: " "%char :: ?x)
    with ("pattern" ++ spaces_of 1 ++ x).
  rewrite cont_pattern, cont_spaces, pprepend_cons. f_equal.
  now apply cont_row.
Qed.

(** ** Comment lines *)

Lemma tok_text_comment_literal line text :
  comment_literal line ->
  tok_text (line ++ nl ++ text) = pcons (Tokens.comment, line) (tok_text text).
Proof.
  intros (Hlb & Hr & Hc).
  rewrite tok_text_comment; [now rewrite Hr|exact Hlb|now rewrite Hr].
Qed.

Lemma comment_literal_strip s : comment_literal s -> comment_literal (strip s).
Proof.
  intros (Hlb & Hr & Hc). unfold strip. rewrite Hr.
  repeat split.
  - now apply nolb_lstrip.
  - now apply rstrip_lstrip.
  - now rewrite lstrip_idem.
Qed.

Lemma comment_literal_reindent n c :
  comment_literal c -> comment_literal (reindent (spaces_of n) c).
Proof.
  intros (Hlb & Hr & Hc). unfold reindent.
  destruct (startswith c " ") eqn:E; [|now repeat split].
  assert (Hl : rstrip (lstrip c) = lstrip c) by now apply rstrip_lstrip.
  assert (Hne : lstrip c <> []).
  { intros E0. destruct (lstrip_suffix c) as (ws & Ec & Hws).
    rewrite E0, app_nil_r in Ec. subst ws.
    rewrite (rstrip_all_space c Hws) in Hr. subst c. discriminate. }
  repeat split.
  - rewrite nolb_app, nolb_spaces. now apply nolb_lstrip.
  - rewrite rstrip_app, Hl. destruct (lstrip c); [congruence|reflexivity].
  - rewrite lstrip_spaces, lstrip_idem. destruct Hc; [congruence|now right].
Qed.

(** ** Blocks *)

Lemma endswith_quoted body : endswith_char (quoted body) dquote = true.
Proof.
  unfold endswith_char, quoted.
  change (dquote :: body ++ [dquote]) with ((dquote :: body) ++ [dquote]).
  rewrite rev_app_distr. apply ch_eqb_refl.
Qed.

(** A well-formed value that can be quoted is written as one token. *)
Lemma quote_str_wf_value v :
  wf_value v -> clean_value v = true -> wf_value (quote_str v).
Proof.
  intros Hv Hc. unfold quote_str.
  destruct (startswith v [dquote]) eqn:E1; [exact Hv|].
  destruct (endswith_char v dquote) eqn:E2; [exact Hv|].
  cbn [negb andb]. left. exists v. split; [reflexivity|].
  unfold clean_value in Hc. rewrite E1, E2 in Hc. cbn [orb] in Hc.
  destruct (find dquote v); [discriminate|].
  split; [reflexivity|now apply wf_value_nolb].
Qed.

Lemma wf_template_value t : wf_template t -> wf_value t.
Proof. intros [H|[H _]]; [now left|now right]. Qed.

Lemma wf_name_value n : wf_name n -> wf_value n.
Proof. intros [H _]. now right. Qed.

(** The comment lines between the opening brace and [pattern]. *)
Lemma tok_text_comments comments text :
  Forall comment_literal comments ->
  tok_text (flat_map (fun c => reindent "    " c ++ nl) comments ++ text)
  = pprepend (map (fun c => (Tokens.comment, reindent "    " c)) comments)
             (tok_text text).
Proof.
  induction 1 as [|c comments Hc _ IH]; cbn [flat_map map].
  - now rewrite pprepend_nil.
  - rewrite <- !app_assoc.
    rewrite tok_text_comment_literal
      by (change ("    " : str) with (spaces_of 4);
          now apply comment_literal_reindent).
    now rewrite IH.
Qed.

Lemma tok_text_actual widths indent spacing newlines act text :
  Forall (renders widths) act ->
  tok_text (flat_map (actual_text widths (spaces_of indent) (spaces_of spacing)
                        newlines) act ++ text)
  = pprepend (flat_map actual_tokens act) (tok_text text).
Proof.
  induction 1 as [|a act Ha _ IH]; cbn [flat_map].
  - now rewrite pprepend_nil.
  - rewrite <- !app_assoc, pprepend_app. destruct a as [c|r]; cbn [actual_text actual_tokens].
    + rewrite <- !app_assoc.
      rewrite tok_text_comment_literal
        by (change ("            " : str) with (spaces_of 12);
            now apply comment_literal_reindent).
      now rewrite IH.
    + destruct Ha as (H1 & H2 & H3 & H4).
      rewrite tok_text_row by assumption. now rewrite IH.
Qed.

Lemma map_nonempty {A B : Type} (f : A -> B) l : l <> [] -> map f l <> [].
Proof. now destruct l. Qed.

(** The rows of a well-formed block that can be quoted are rendered as
    tokens. *)
Lemma quote_block_renders d widths :
  wf_block d -> clean_block d = true -> block_widths d = Some widths ->
  Forall (renders widths) (quote_block d).(actual).
Proof.
  intros (_ & _ & _ & _ & _ & _ & Hact & _) Hclean Hw.
  unfold clean_block in Hclean. apply andb_true_iff in Hclean as [_ Hclean].
  rewrite forallb_forall in Hclean. rewrite Forall_forall in Hact.
  apply Forall_forall. intros a Ha.
  pose proof Ha as Ha'.
  unfold quote_block in Ha. cbn [actual set_actual] in Ha.
  apply in_map_iff in Ha as (a0 & <- & Ha0).
  specialize (Hact _ Ha0). specialize (Hclean _ Ha0).
  destruct a0 as [c|r]; cbn [quote_item renders]; [exact Hact|].
  destruct Hact as (Hne & Hv & Hc). cbn [item comment].
  split; [now apply map_nonempty|]. split; [|split; [exact Hc|]].
  - cbn [clean_actual] in Hclean. rewrite forallb_forall in Hclean.
    rewrite Forall_forall in Hv. apply Forall_forall. intros v Hin.
    apply in_map_iff in Hin as (v0 & <- & Hv0).
    apply quote_str_wf_value; auto.
  - destruct (block_widths_fits _ _ _ Hw (row_in_rendered _ _ Ha')) as [L _].
    cbn [item quote_item] in L. lia.
Qed.

Lemma block_end_app (c : option str) text :
  match c with
  | None => "}" ++ nl
  | Some c => "}  " ++ c ++ nl
  end ++ text
  = "}" ++ match c with
           | None => nl ++ text
           | Some c => "  " ++ c ++ nl ++ text
           end.
Proof.
  destruct c as [c|]; cbn [list_ascii_of_string app];
    rewrite <- ?app_assoc; reflexivity.
Qed.

Lemma file_line_app t (c : option str) text :
  "file " ++ t ++ match c with
                  | Some c => " {  " ++ c
                  | None => " {"
                  end ++ nl ++ text
  = "file" ++ spaces_of 1 ++ t
    ++ " "%char :: spaces_of 0
    ++ "{" ++ match c with
              | None => nl ++ text
              | Some c => "  " ++ c ++ nl ++ text
              end.
Proof.
  destruct c as [c|]; cbn [list_ascii_of_string app spaces_of repeat];
    rewrite <- ?app_assoc; cbn [app]; rewrite <- ?app_assoc; reflexivity.
Qed.

(** The tokens of the text of a block. *)
Lemma tok_text_block d widths indent spacing width text :
  wf_block d -> clean_block d = true -> block_widths d = Some widths ->
  tok_text (block_text d widths indent spacing width ++ text)
  = pprepend (block_tokens d) (tok_text text).
Proof.
  intros Hwf Hclean Hw.
  pose proof (quote_block_renders _ _ Hwf Hclean Hw) as Hrows.
  destruct Hwf as (Ht & Htc & Hcom & Hne & Hnames & Hfc & Hact & Heos).
  assert (Hqt : wf_value (quote_str d.(template).(item))).
  { apply quote_str_wf_value; [now apply wf_template_value|].
    unfold clean_block in Hclean. now apply andb_true_iff in Hclean as [H _]. }
  unfold block_text. cbv zeta. rewrite <- !app_assoc.
  rewrite file_line_app.
  change ("file" ++ ?x) with (spaces_of 0 ++ "f"%char :: "ile" ++ x).
  rewrite tok_text_line by reflexivity.
  change ("f"%char :: "ile" ++ ?x) with ("file" ++ x).
  rewrite cont_file, cont_spaces, cont_value by (auto; reflexivity).
  change (" "%char :: spaces_of 0 ++ ?x) with (spaces_of 1 ++ x).
  rewrite cont_spaces, cont_open_brace, cont_tail by exact Htc.
  rewrite tok_text_comments by exact Hcom.
  rewrite tok_text_formal; auto.
  2:{ eapply Forall_impl; [|exact Hnames]. apply wf_name_value. }
  2:{ destruct (block_widths_fits _ _ _ Hw (or_introl eq_refl)) as [L _]. lia. }
  rewrite tok_text_actual by exact Hrows.
  rewrite block_end_app.
  change ("}" ++ ?x) with (spaces_of 0 ++ "}"%char :: x).
  rewrite tok_text_line by reflexivity.
  change ("}"%char :: ?x) with ("}" ++ x).
  rewrite cont_close_brace, cont_tail by exact Heos.
  unfold block_tokens. cbn [app].
  repeat (rewrite pprepend_cons || rewrite pprepend_app). reflexivity.
Qed.

(** ** Documents *)

Lemma tok_text_document indent spacing width : forall source text,
  wf_document source -> clean_document source = true ->
  (forall d, In (Substitution d) source ->
             exists widths, block_widths d = Some widths) ->
  tok_text (document_text source indent spacing width ++ text)
  = pprepend (document_tokens source) (tok_text text).
Proof.
  induction source as [|x source IH]; intros text Hwf Hclean Hw.
  - now rewrite pprepend_nil.
  - inversion Hwf as [|? ? Hx Hrest]; subst.
    cbn [clean_document forallb] in Hclean.
    apply andb_true_iff in Hclean as [Hcx Hcrest].
    assert (Hw' : forall d, In (Substitution d) source ->
                            exists widths, block_widths d = Some widths)
      by (intros d Hd; apply Hw; now right).
    unfold document_text, document_tokens. cbn [flat_map].
    rewrite <- app_assoc, pprepend_app.
    fold (document_text source indent spacing width).
    fold (document_tokens source).
    destruct x as [s|d]; cbn [item_text item_tokens].
    + rewrite <- app_assoc.
      rewrite tok_text_comment_literal by now apply comment_literal_strip.
      now rewrite IH.
    + destruct (Hw d (or_introl eq_refl)) as (widths & Hd). rewrite Hd.
      rewrite tok_text_block by assumption. now rewrite IH.
Qed.

(** * Parsing the rendered text *)

Lemma eqb_succ_false n : (n + 1 =? n) = false.
Proof. apply Nat.eqb_neq. lia. Qed.

(** When [pstep] goes on, so does [step], at any position and for any
    source name. *)
Lemma step_pstep source_name l tk l' :
  pstep l (kl tk) = Some l' -> step source_name l tk = Next l'.
Proof.
  unfold pstep, step, kl. destruct tk as [k lit ln c].
  cbn [fst snd kind literal lineno col].
  destruct (state l), k; try discriminate;
    repeat match goal with
           | |- context [match last_of ?x with _ => _ end] =>
               destruct (last_of x) as [[]|]
           | |- context [match comment ?x with _ => _ end] =>
               destruct (comment x)
           | |- context [match ?r with {| item := _; comment := _ |} => _ end] =>
               destruct r as [? []]
           end;
    try discriminate;
    cbn [stderr warn with_state];
    rewrite ?length_app, ?eqb_succ_false, ?Nat.eqb_refl;
    cbn [length]; rewrite ?eqb_succ_false;
    try discriminate;
    intros H; inversion H; reflexivity.
Qed.

Lemma steps_psteps source_name : forall ts l l',
  psteps l (map kl ts) = Some l' -> steps source_name l ts = Some l'.
Proof.
  induction ts as [|tk ts IH]; intros l l'; cbn [map psteps steps]; [auto|].
  destruct (pstep l (kl tk)) as [l1|] eqn:E; [|discriminate].
  rewrite (step_pstep source_name _ _ _ E). apply IH.
Qed.

Lemma psteps_app xs : forall l ys,
  psteps l (xs ++ ys)
  = match psteps l xs with
    | Some l' => psteps l' ys
    | None => None
    end.
Proof.
  induction xs as [|x xs IH]; intros l ys; cbn [app psteps]; [reflexivity|].
  destruct (pstep l x); auto.
Qed.

Lemma psteps_cons l x xs l1 :
  pstep l x = Some l1 -> psteps l (x :: xs) = psteps l1 xs.
Proof. intros H. cbn [psteps]. now rewrite H. Qed.

(** The names of the formal row. *)
Lemma psteps_names : forall names acc res T C A R,
  names <> [] ->
  Forall (fun n => token_kind n = Tokens.name) names ->
  psteps (Locals res States.seek_name T C (bare acc) A R [])
         (values_tokens names)
  = Some (Locals res States.post_name T C (bare (acc ++ names)) A R []).
Proof.
  induction names as [|n rest IH]; intros acc res T C A R Hne Hall;
    [congruence|].
  inversion Hall as [|? ? Hn Hrest]; subst.
  cbn [values_tokens]. rewrite Hn.
  destruct rest as [|n' rest'].
  - reflexivity.
  - rewrite (psteps_cons _ _ _
               (Locals res States.post_name T C (bare (acc ++ [n])) A R []))
      by reflexivity.
    rewrite (psteps_cons _ _ _
               (Locals res States.seek_name T C (bare (acc ++ [n])) A R []))
      by reflexivity.
    rewrite IH by (auto; discriminate).
    now rewrite <- app_assoc.
Qed.

Lemma token_kind_cases v :
  token_kind v = Tokens.value \/ token_kind v = Tokens.name.
Proof.
  unfold token_kind, word_kind.
  destruct (startswith v [dquote]); [now left|].
  destruct (forallb name_char v); [now right|now left].
Qed.

(** The values of an actual row. *)
Lemma psteps_values : forall vs acc res T C F A,
  vs <> [] ->
  psteps (Locals res States.seek_value T C F A acc []) (values_tokens vs)
  = Some (Locals res States.post_value T C F A (acc ++ vs) []).
Proof.
  induction vs as [|v rest IH]; intros acc res T C F A Hne; [congruence|].
  cbn [values_tokens].
  assert (H1 : pstep (Locals res States.seek_value T C F A acc [])
                     (token_kind v, v)
               = Some (Locals res States.post_value T C F A (acc ++ [v]) [])).
  { destruct (token_kind_cases v) as [-> | ->]; reflexivity. }
  rewrite (psteps_cons _ _ _ _ H1).
  destruct rest as [|v' rest'].
  - reflexivity.
  - rewrite (psteps_cons _ _ _
               (Locals res States.seek_value T C F A (acc ++ [v]) []))
      by reflexivity.
    rewrite IH by discriminate.
    now rewrite <- app_assoc.
Qed.

(** One row: from [start_actual_first] or [start_actual_next] to
    [start_actual_next], with the row added to [actual]. *)
Lemma psteps_row r s res T C F A :
  s = States.start_actual_first \/ s = States.start_actual_next ->
  r.(item) <> [] ->
  psteps (Locals res s T C F A [] []) (row_tokens r)
  = Some (Locals res States.start_actual_next T C F (A ++ [Row r]) [] []).
Proof.
  intros Hs Hne. unfold row_tokens.
  assert (H1 : pstep (Locals res s T C F A [] []) (Tokens.open_brace, [])
               = Some (Locals res States.seek_value T C F A [] [])).
  { destruct Hs as [-> | ->]; reflexivity. }
  rewrite (psteps_cons _ _ _ _ H1), psteps_app, psteps_values by exact Hne.
  cbn [app].
  rewrite (psteps_cons _ _ _
             (Locals res States.start_actual_next T C F
                     (A ++ [Row (bare r.(item))]) [] []))
    by reflexivity.
  destruct r as [it [c|]]; cbn [comment_tokens item comment].
  - cbn [psteps]. unfold pstep. cbn [fst snd step state kind l_actual].
    rewrite last_of_app. unfold bare. cbn [stderr length Nat.eqb].
    rewrite removelast_last. reflexivity.
  - reflexivity.
Qed.

(** The entries of [actual], rows and comment lines. *)
Lemma psteps_actual : forall act s res T C F A,
  s = States.start_actual_first \/ s = States.start_actual_next ->
  (forall r, In (Row r) act -> r.(item) <> []) ->
  psteps (Locals res s T C F A [] []) (flat_map actual_tokens act)
  = Some (Locals res (after_rows s act) T C F (A ++ map reparsed act) [] []).
Proof.
  induction act as [|a act IH]; intros s res T C F A Hs Hne.
  - cbn. now rewrite app_nil_r.
  - assert (Hne' : forall r, In (Row r) act -> r.(item) <> [])
      by (intros r Hr; apply Hne; now right).
    cbn [flat_map map]. rewrite psteps_app.
    destruct a as [c|r]; cbn [actual_tokens reparsed].
    + assert (H1 : psteps (Locals res s T C F A [] [])
                     [(Tokens.comment, reindent "            " c)]
                   = Some (Locals res s T C F
                             (A ++ [Comment_line (reindent "            " c)])
                             [] [])).
      { destruct Hs as [-> | ->]; reflexivity. }
      rewrite H1, IH by assumption.
      unfold after_rows. cbn [existsb is_row orb].
      now rewrite <- app_assoc.
    + rewrite psteps_row by (auto; apply Hne; now left).
      rewrite IH by (auto; now right).
      unfold after_rows. cbn [existsb is_row orb].
      replace (if existsb is_row act then States.start_actual_next
               else States.start_actual_next) with States.start_actual_next
        by now destruct (existsb is_row act).
      now rewrite <- app_assoc.
Qed.

Lemma psteps_comments (f : str -> str) : forall cs res T C F A R,
  psteps (Locals res States.seek_pattern T C F A R [])
         (map (fun c => (Tokens.comment, f c)) cs)
  = Some (Locals res States.seek_pattern T (C ++ map f cs) F A R []).
Proof.
  induction cs as [|c cs IH]; intros res T C F A R; cbn [map].
  - cbn. now rewrite app_nil_r.
  - rewrite (psteps_cons _ _ _
               (Locals res States.seek_pattern T (C ++ [f c]) F A R []))
      by reflexivity.
    rewrite IH. now rewrite <- app_assoc.
Qed.

Lemma map_reparsed_quote act :
  map reparsed (map quote_item act) = map normal_actual act.
Proof.
  rewrite map_map. apply map_ext. now intros [c|r].
Qed.

(** One block: from between two blocks to between two blocks, with the
    block added to [result]. *)
Lemma psteps_block d res :
  token_kind (quote_str d.(template).(item)) = Tokens.value ->
  d.(formal).(item) <> [] ->
  Forall (fun n => token_kind n = Tokens.name) d.(formal).(item) ->
  (forall r, In (Row r) (quote_block d).(actual) -> r.(item) <> []) ->
  psteps (idle res) (block_tokens d)
  = Some (idle (res ++ [Substitution (normal_block d)])).
Proof.
  intros Hqt Hne Hnames Hrows. unfold block_tokens, idle.
  destruct d as [[t tc] cs [names fc] act eos].
  cbn [template comments formal actual eos_comment item comment] in *.
  rewrite Hqt. cbn [app].
  set (qt := quote_str t).
  rewrite (psteps_cons _ _ _
             (Locals res States.start1 (bare []) [] (bare []) [] [] []))
    by reflexivity.
  rewrite (psteps_cons _ _ _
             (Locals res States.start2 (bare qt) [] (bare []) [] [] []))
    by reflexivity.
  rewrite (psteps_cons _ _ _
             (Locals res States.seek_pattern (bare qt) [] (bare []) [] [] []))
    by reflexivity.
  rewrite psteps_app.
  assert (H1 : psteps (Locals res States.seek_pattern (bare qt) [] (bare []) [] [] [])
                 (comment_tokens tc)
               = Some (Locals res States.seek_pattern (With_comment qt tc) []
                              (bare []) [] [] [])).
  { destruct tc; reflexivity. }
  rewrite H1, psteps_app, psteps_comments. cbn [app].
  rewrite (psteps_cons _ _ _
             (Locals res States.start_formal (With_comment qt tc)
                     (map (reindent "    ") cs) (bare []) [] [] []))
    by reflexivity.
  unfold row_tokens at 1. cbn [item comment app].
  rewrite (psteps_cons _ _ _
             (Locals res States.seek_name (With_comment qt tc)
                     (map (reindent "    ") cs) (bare []) [] [] []))
    by reflexivity.
  rewrite <- app_assoc, psteps_app, psteps_names by assumption.
  cbn [app].
  rewrite (psteps_cons _ _ _
             (Locals res States.start_actual_first (With_comment qt tc)
                     (map (reindent "    ") cs) (bare names) [] [] []))
    by reflexivity.
  rewrite psteps_app.
  assert (H2 : psteps (Locals res States.start_actual_first (With_comment qt tc)
                         (map (reindent "    ") cs) (bare names) [] [] [])
                 (comment_tokens fc)
               = Some (Locals res States.start_actual_first (With_comment qt tc)
                         (map (reindent "    ") cs) (With_comment names fc)
                         [] [] [])).
  { destruct fc; reflexivity. }
  rewrite H2, psteps_app, psteps_actual by (auto; now left).
  unfold quote_block, after_rows. cbn [actual set_actual app].
  rewrite map_reparsed_quote.
  set (d' := Substitution_dict (With_comment qt tc) (map (reindent "    ") cs)
               (With_comment names fc) (map normal_actual act) None).
  rewrite (psteps_cons _ _ _ (idle (res ++ [Substitution d'])))
    by (destruct (existsb is_row _); reflexivity).
  destruct eos as [c|]; cbn [comment_tokens]; [|reflexivity].
  cbn [psteps]. unfold pstep, idle.
  cbn [fst snd step state kind result]. rewrite last_of_app.
  cbn [stderr length Nat.eqb]. rewrite removelast_last. reflexivity.
Qed.

Lemma template_kind t :
  wf_template t -> token_kind (quote_str t) = Tokens.value.
Proof.
  intros Ht. unfold quote_str.
  destruct (startswith t [dquote]) eqn:E1; cbn [negb andb].
  - unfold token_kind. now rewrite E1.
  - destruct (endswith_char t dquote) eqn:E2; cbn [negb]; [|reflexivity].
    unfold token_kind. rewrite E1. unfold word_kind.
    destruct Ht as [(body & -> & _)|[_ ->]]; [discriminate E1|reflexivity].
Qed.

Lemma name_kind n : wf_name n -> token_kind n = Tokens.name.
Proof.
  intros [Hw Hn]. unfold token_kind, word_kind.
  now rewrite word_not_quoted, Hn.
Qed.

Lemma quote_block_rows_nonempty d r :
  wf_block d -> In (Row r) (quote_block d).(actual) -> r.(item) <> [].
Proof.
  intros (_ & _ & _ & _ & _ & _ & Hact & _) Hr.
  unfold quote_block in Hr. cbn [actual set_actual] in Hr.
  apply in_map_iff in Hr as (a & Ea & Ha).
  rewrite Forall_forall in Hact. specialize (Hact _ Ha).
  destruct a as [c|r0]; [discriminate|].
  inversion Ea; subst. cbn [item]. apply map_nonempty. apply Hact.
Qed.

(** The tokens of a rendered document lead the parser from an empty
    result to the normal form of the document, without a warning. *)
Lemma psteps_document : forall source res,
  wf_document source ->
  psteps (idle res) (document_tokens source)
  = Some (idle (res ++ normal_document source)).
Proof.
  induction source as [|x source IH]; intros res Hwf.
  - cbn. now rewrite app_nil_r.
  - inversion Hwf as [|? ? Hx Hrest]; subst.
    unfold document_tokens, normal_document. cbn [flat_map map].
    fold (document_tokens source). fold (normal_document source).
    rewrite psteps_app.
    replace (res ++ normal_item x :: normal_document source)
      with ((res ++ [normal_item x]) ++ normal_document source)
      by now rewrite <- app_assoc.
    destruct x as [s|d]; cbn [item_tokens normal_item].
    + rewrite (psteps_cons _ _ _ (idle (res ++ [Line (strip s)])))
        by reflexivity.
      cbn [psteps]. now apply IH.
    + rewrite psteps_block.
      * now apply IH.
      * apply template_kind, Hx.
      * apply Hx.
      * eapply Forall_impl; [|apply Hx]. apply name_kind.
      * intros r. now apply quote_block_rows_nonempty.
Qed.

(** The loop of [process_source] over a stream whose tokens are those of
    a rendered document. *)
Lemma run_document_tokens source_name source ts :
  wf_document source ->
  map kl ts = document_tokens source ++ [(Tokens.end_of_file, [])] ->
  run source_name initial ts None = ([], inr (normal_document source)).
Proof.
  intros Hwf Hts.
  apply map_eq_app in Hts as (ts1 & ts2 & -> & H1 & H2).
  destruct ts2 as [|tk [|? ?]]; try discriminate.
  inversion H2 as [Hk]. clear H2.
  pose proof (psteps_document source [] Hwf) as Hp.
  rewrite <- H1 in Hp. apply (steps_psteps source_name) in Hp.
  rewrite (run_steps _ _ _ _ _ _ Hp). cbn [run app].
  unfold step, idle. cbn [state].
  unfold kl in Hk. inversion Hk as [[Hkind Hlit]]. rewrite Hkind.
  reflexivity.
Qed.

(** * Rendering the normal form *)

Lemma quote_str_idem v : quote_str (quote_str v) = quote_str v.
Proof.
  unfold quote_str.
  destruct (startswith v [dquote]) eqn:E1, (endswith_char v dquote) eqn:E2;
    cbn [negb andb]; rewrite ?E1, ?E2; reflexivity.
Qed.

Lemma quote_row_idem : forall row widths,
  snd (quote_row (map quote_str row) widths) = snd (quote_row row widths).
Proof.
  induction row as [|v row IH]; intros widths; cbn [map quote_row];
    [reflexivity|].
  rewrite quote_str_idem. destruct widths as [|w ws]; [reflexivity|].
  specialize (IH ws).
  destruct (quote_row (map quote_str row) ws) as [r1 e1].
  destruct (quote_row row ws) as [r2 e2].
  cbn [snd] in *. now subst.
Qed.

Lemma widths_of_comment c rest r :
  widths_of (let (rest', r') := (rest, r) in (Comment_line c :: rest', r'))
  = widths_of (rest, r).
Proof. reflexivity. Qed.

Lemma quote_rows_normal : forall act number widths,
  widths_of (quote_rows number (map normal_actual act) widths)
  = widths_of (quote_rows number act widths).
Proof.
  induction act as [|a act IH]; intros number widths; cbn [map quote_rows];
    [reflexivity|].
  destruct a as [c|r]; cbn [normal_actual quote_rows].
  - specialize (IH number widths).
    destruct (quote_rows number (map normal_actual act) widths) as [a1 e1].
    destruct (quote_rows number act widths) as [a2 e2]. exact IH.
  - cbn [item comment]. rewrite length_map.
    destruct (negb (length r.(item) =? number)); [reflexivity|].
    pose proof (quote_row_idem r.(item) widths) as Hrow.
    destruct (quote_row (map quote_str r.(item)) widths) as [r1 [e1|w1]];
      destruct (quote_row r.(item) widths) as [r2 [e2|w2]];
      cbn [snd] in *; try discriminate; inversion Hrow; subst;
      [reflexivity|].
    specialize (IH number w2).
    destruct (quote_rows number (map normal_actual act) w2) as [a1 e1].
    destruct (quote_rows number act w2) as [a2 e2]. exact IH.
Qed.

Lemma block_widths_eq d :
  block_widths d
  = widths_of (quote_rows (length d.(formal).(item)) d.(actual)
                          (map (@length ascii) d.(formal).(item))).
Proof.
  unfold block_widths, widths_of.
  now destruct (quote_rows _ _ _) as [a [e|w]].
Qed.

Lemma block_widths_normal d : block_widths (normal_block d) = block_widths d.
Proof.
  rewrite !block_widths_eq. unfold normal_block.
  cbn [formal actual item]. apply quote_rows_normal.
Qed.

Lemma startswith_spaces n x : startswith (spaces_of (S n) ++ x) " " = true.
Proof. reflexivity. Qed.

Lemma reindent_idem n c :
  reindent (spaces_of (S n)) (reindent (spaces_of (S n)) c)
  = reindent (spaces_of (S n)) c.
Proof.
  unfold reindent. destruct (startswith c " ") eqn:E.
  - rewrite startswith_spaces, lstrip_spaces, lstrip_idem. reflexivity.
  - now rewrite E.
Qed.

Lemma strip_idem s : strip (strip s) = strip s.
Proof.
  unfold strip. rewrite (rstrip_lstrip (rstrip s)) by apply rstrip_idem.
  apply lstrip_idem.
Qed.

Lemma flat_map_map {A B C : Type} (f : A -> B) (g : B -> list C) l :
  flat_map g (map f l) = flat_map (fun x => g (f x)) l.
Proof. induction l as [|x l IH]; simpl; [reflexivity|now rewrite IH]. Qed.

Lemma map_quote_str_idem l : map quote_str (map quote_str l) = map quote_str l.
Proof.
  induction l as [|v l IH]; cbn [map]; [reflexivity|].
  now rewrite quote_str_idem, IH.
Qed.

Lemma actual_text_normal widths i s newlines a :
  actual_text widths i s newlines (quote_item (normal_actual a))
  = actual_text widths i s newlines (quote_item a).
Proof.
  destruct a as [c|r]; cbn [normal_actual quote_item actual_text item comment].
  - change ("            " : str) with (spaces_of 12). now rewrite reindent_idem.
  - now rewrite map_quote_str_idem.
Qed.

(** The normal form of a block is rendered as the block is. *)
Lemma block_text_normal d widths indent spacing width :
  block_text (normal_block d) widths indent spacing width
  = block_text d widths indent spacing width.
Proof.
  unfold block_text, normal_block, quote_block.
  cbn [template comments formal actual eos_comment item comment set_actual].
  cbv zeta. rewrite quote_str_idem. f_equal. f_equal; [|f_equal; f_equal].
  - rewrite flat_map_map. apply flat_map_ext. intros c.
    change ("    " : str) with (spaces_of 4). now rewrite reindent_idem.
  - rewrite !flat_map_map. apply flat_map_ext. intros a.
    apply actual_text_normal.
Qed.

Lemma document_text_normal indent spacing width : forall source,
  document_text (normal_document source) indent spacing width
  = document_text source indent spacing width.
Proof.
  unfold document_text, normal_document. intros source.
  rewrite flat_map_map. apply flat_map_ext. intros [s|d];
    cbn [normal_item item_text].
  - now rewrite strip_idem.
  - rewrite block_widths_normal. destruct (block_widths d); [|reflexivity].
    apply block_text_normal.
Qed.

Lemma normal_document_widths source :
  (forall d, In (Substitution d) source ->
             exists widths, block_widths d = Some widths) ->
  forall d, In (Substitution d) (normal_document source) ->
            exists widths, block_widths d = Some widths.
Proof.
  intros H d Hd. unfold normal_document in Hd.
  apply in_map_iff in Hd as (x & Ex & Hx).
  destruct x as [s|d0]; [discriminate|]. inversion Ex; subst.
  rewrite block_widths_normal. now apply H.
Qed.

(** * Rendering is idempotent on values that can be quoted *)

(** C1, as the code behaves.  Let a text be parsed and rendered without
    error, and let every template and every actual-row value of the parsed
    document that has no double quote at either end have none inside.
    Then parsing and rendering the output again, with the same indent,
    spacing and width, writes the same output, with no warning. *)
Theorem C1_rendering_is_a_fixed_point :
  forall source_name text indent spacing width err source out,
    process_source source_name text = (err, inr source) ->
    snd (generate source indent spacing width) = (out, None) ->
    clean_document source = true ->
    forall source_name',
      process source_name' out indent spacing width = ([], (out, None)).
Proof.
  intros source_name text indent spacing width err source out
         Hparse Hgen Hclean source_name'.
  pose proof (process_source_wf _ _ _ _ Hparse) as Hwf.
  destruct (generate source indent spacing width) as [source' w] eqn:Eg.
  cbn [snd] in Hgen. subst w.
  destruct (generate_text _ _ _ _ _ _ Eg) as (Eout & Hwidths).
  assert (Htok : plain (get_token source_name' out)
                 = (document_tokens source ++ [(Tokens.end_of_file, [])], false)).
  { rewrite plain_get_token, Eout.
    rewrite <- (app_nil_r (document_text source indent spacing width)).
    rewrite tok_text_document by assumption. reflexivity. }
  unfold plain in Htok. inversion Htok as [[Hts Htail]].
  destruct (snd (get_token source_name' out)) as [e|] eqn:Et; [discriminate|].
  unfold process, process_source, process_tokens. rewrite Et.
  rewrite (run_document_tokens source_name' source _ Hwf Hts).
  rewrite generate_ok by now apply normal_document_widths.
  now rewrite document_text_normal, Eout.
Qed.

Lemma C1_witness :
  exists out,
    snd (process "<stdin>" annotated_text 4 2 120) = (out, None)
    /\ process "<stdout>" out 4 2 120 = ([], (out, None)).
Proof.
  eexists. split; [vm_compute; reflexivity|].
  eapply (C1_rendering_is_a_fixed_point "<stdin>" annotated_text 4 2 120).
  - vm_compute. reflexivity.
  - vm_compute. reflexivity.
  - vm_compute. reflexivity.
Defined.

(** The bare value of [embedded_quote_text] has a double quote between the
    letters a and b and none at its ends: it is written between two more
    quotes, and read back as two values, the quoted letter a and the letter
    b with a quote behind it.  So the second rendering raises [ValueError]
    where the first one wrote the block. *)
Lemma C1_counterexample :
  process "<stdin>" embedded_quote_text 4 2 120
  = ([], (embedded_quote_output, None))
  /\ snd (process "<stdin>" embedded_quote_output 4 2 120)
     = ([], Some (ValueError [quoted "a"; "b" ++ [dquote]] 2 1)).
Proof. split; vm_compute; reflexivity. Qed.

(** * More about the tokenizer *)

Lemma lstrip_is_skipn s : exists j, lstrip s = skipn j s.
Proof.
  destruct (lstrip_suffix s) as (ws & E & _). exists (length ws).
  rewrite E at 2. now rewrite skipn_app_exact.
Qed.

Lemma lstrip_skipn_skipn m k (rl : str) :
  exists k', lstrip (skipn m (skipn k rl)) = skipn k' rl.
Proof.
  destruct (lstrip_is_skipn (skipn m (skipn k rl))) as (j & ->).
  eexists. rewrite !skipn_skipn. reflexivity.
Qed.

Lemma startswith_rstrip_firstn a (temp : str) :
  startswith temp (rstrip (firstn a temp)) = true.
Proof.
  destruct (rstrip_prefix (firstn a temp)) as (ws & E & _).
  rewrite <- (firstn_skipn a temp) at 1. rewrite E at 1.
  rewrite <- !app_assoc. apply startswith_app.
Qed.

Lemma startswith_firstn q (temp : str) : startswith temp (firstn q temp) = true.
Proof. rewrite <- (firstn_skipn q temp) at 1. apply startswith_app. Qed.

Lemma startswith_rstrip (temp : str) : startswith temp (rstrip temp) = true.
Proof.
  destruct (rstrip_prefix temp) as (ws & E & _). rewrite E at 1.
  apply startswith_app.
Qed.

(** The tokens of the rest of a line are placed where their text starts. *)
Lemma scan_placed : forall fuel source_name n (rl : str) k,
  Forall (placed rl n)
         (fst (scan fuel source_name n (length rl + 1) (skipn k rl))).
Proof.
  induction fuel as [|fuel IH]; intros source_name n rl k; [constructor|].
  destruct (skipn k rl) as [|c t] eqn:E; [constructor|].
  assert (L : length (c :: t) = length rl - k) by (rewrite <- E; apply length_skipn).
  assert (Hk : k < length rl) by (cbn [length] in L; lia).
  assert (Hcol : length rl + 1 - length (c :: t) - 1 = k) by lia.
  assert (Hpos : 1 <= length rl + 1 - length (c :: t)) by lia.
  assert (Hrec : forall m,
            Forall (placed rl n)
              (fst (scan fuel source_name n (length rl + 1)
                      (lstrip (skipn m (c :: t)))))).
  { intros m. rewrite <- E.
    destruct (lstrip_skipn_skipn m k rl) as (k' & ->). apply IH. }
  rewrite scan_S. cbv zeta.
  assert (Hplace : forall kd lit,
            kd <> Tokens.comment -> kd <> Tokens.end_of_file ->
            startswith (c :: t)
              (surface (Token kd lit n (length rl + 1 - length (c :: t)))) = true ->
            placed rl n (Token kd lit n (length rl + 1 - length (c :: t)))).
  { intros kd lit H1 H2 H3. red. cbn [lineno kind col].
    repeat split; auto. rewrite Hcol, E. exact H3. }
  destruct (startswith (c :: t) "#") eqn:E0.
  { constructor; [|constructor]. apply Hplace; try discriminate.
    apply startswith_rstrip. }
  destruct (startswith (c :: t) "file") eqn:E1;
    [constructor; [apply Hplace; try discriminate; exact E1|apply Hrec]|].
  destruct (startswith (c :: t) "pattern") eqn:E2;
    [constructor; [apply Hplace; try discriminate; exact E2|apply Hrec]|].
  destruct (startswith (c :: t) "{") eqn:E3;
    [constructor; [apply Hplace; try discriminate; exact E3|apply Hrec]|].
  destruct (startswith (c :: t) "}") eqn:E4;
    [constructor; [apply Hplace; try discriminate; exact E4|apply Hrec]|].
  destruct (startswith (c :: t) ",") eqn:E5;
    [constructor; [apply Hplace; try discriminate; exact E5|apply Hrec]|].
  destruct (startswith (c :: t) [dquote]) eqn:E6.
  - destruct (find dquote (skipn 1 (c :: t))) as [q1|]; [|constructor].
    constructor; [|apply Hrec].
    apply Hplace; try discriminate. apply startswith_firstn.
  - constructor; [|apply Hrec].
    destruct (forallb name_char _); apply Hplace; try discriminate;
      apply startswith_rstrip_firstn.
Qed.

Lemma skipn_rstrip_prefix k (line : str) :
  exists ws, skipn k line = skipn k (rstrip line) ++ ws
             /\ forallb isspace ws = true.
Proof.
  destruct (rstrip_prefix line) as (ws & E & H).
  exists (skipn (k - length (rstrip line)) ws). split.
  - rewrite E at 1. apply skipn_app.
  - now apply forallb_skipn.
Qed.

Lemma placed_at_place line n t : placed (rstrip line) n t -> at_place line t.
Proof.
  intros (_ & Hc & _ & Hpos & Hs). unfold at_place.
  destruct (skipn_rstrip_prefix (col t - 1) line) as (ws & E & _).
  assert (H : startswith (skipn (col t - 1) line) (surface t) = true)
    by (rewrite E; now apply startswith_prefix).
  destruct (kind t); now split.
Qed.

(** The tokens of a line carry its number and their places in it. *)
Lemma line_tokens_placed source_name n line :
  Forall (fun t => t.(lineno) = n /\ t.(kind) <> Tokens.end_of_file
                   /\ at_place line t)
         (fst (fst (line_tokens source_name n line))).
Proof.
  unfold line_tokens.
  destruct (_ || _); cbn [fst].
  - constructor; [|constructor]. repeat split; try discriminate.
  - destruct (lstrip_is_skipn (rstrip line)) as (j & ->).
    pose proof (scan_placed (length (skipn j (rstrip line))) source_name n
                  (rstrip line) j) as H.
    eapply Forall_impl; [|exact H].
    intros t Ht. pose proof (placed_at_place _ _ _ Ht) as Ha.
    destruct Ht as (Hn & _ & He & _). auto.
Qed.

Lemma lines_tokens_placed : forall lines source_name n col0 t,
  In t (fst (lines_tokens source_name n col0 lines)) ->
  t.(kind) <> Tokens.end_of_file ->
  exists i line, nth_error lines i = Some line
                 /\ t.(lineno) = n + i + 1 /\ at_place line t.
Proof.
  induction lines as [|line lines IH]; intros source_name n col0 t.
  - cbn [lines_tokens fst]. intros [<-|[]] H. now contradiction H.
  - cbn [lines_tokens].
    pose proof (line_tokens_placed source_name (n + 1) line) as Hl.
    destruct (line_tokens source_name (n + 1) line) as [[ts e] c].
    cbn [fst] in Hl. rewrite Forall_forall in Hl.
    assert (Hhere : In t ts ->
              exists i l, nth_error (line :: lines) i = Some l
                          /\ lineno t = n + i + 1 /\ at_place l t).
    { intros Hin. destruct (Hl t Hin) as (Hn & _ & Ha).
      exists 0, line. repeat split; auto. lia. }
    destruct e as [e|]; cbn [fst]; [auto|].
    intros Hin Hk. apply in_app_or in Hin as [Hin|Hin]; [auto|].
    destruct (IH _ _ _ _ Hin Hk) as (i & l & Hi & Hn & Ha).
    exists (S i), l. repeat split; auto. lia.
Qed.

(** X1.  Every token that [get_token] yields for a line of the text carries
    the number of that line, counted from 1, and its place in it: a comment
    token the column 0 and the line without its trailing white space, any
    other token the column, counted from 1, at which its text (the keyword,
    the punctuation mark or the literal) starts in the line. *)
Theorem get_token_positions source_name text t :
  In t (fst (get_token source_name text)) ->
  t.(kind) <> Tokens.end_of_file ->
  1 <= t.(lineno)
  /\ exists line,
       nth_error (splitlines text) (t.(lineno) - 1) = Some line
       /\ at_place line t.
Proof.
  intros Hin Hk.
  destruct (lines_tokens_placed _ _ _ _ _ Hin Hk) as (i & line & Hi & Hn & Ha).
  split; [lia|]. exists line. split; [|exact Ha].
  now replace (lineno t - 1) with i by lia.
Qed.

Lemma get_token_positions_witness :
  let t := Token Tokens.value (quoted "1") 3 4 in
  1 <= t.(lineno)
  /\ exists line,
       nth_error (splitlines scenario_text) (t.(lineno) - 1) = Some line
       /\ at_place line t.
Proof.
  intros t. apply (get_token_positions "<stdin>" scenario_text t).
  - vm_compute. tauto.
  - discriminate.
Defined.

(** ** The end of the stream *)

Lemma scan_yields : forall fuel source_name n size c t,
  snd (scan (S fuel) source_name n size (c :: t)) = None ->
  fst (scan (S fuel) source_name n size (c :: t)) <> [].
Proof.
  intros fuel source_name n size c t. rewrite scan_S. cbv zeta.
  repeat match goal with
         | |- context [if ?b then _ else _] => destruct b
         end; try (intros _; discriminate).
  destruct (find dquote _); [intros _|]; discriminate.
Qed.

Lemma last_app_nonempty {A : Type} (x y : list A) d d' :
  y <> [] -> last (x ++ y) d = last y d'.
Proof.
  intros Hy. induction x as [|a x IH]; cbn [app].
  - destruct y as [|b y]; [congruence|]. clear Hy. revert b.
    induction y as [|b' y IHy]; intros b; [reflexivity|].
    change (last (b :: b' :: y) d) with (last (b' :: y) d).
    change (last (b :: b' :: y) d') with (last (b' :: y) d'). apply IHy.
  - rewrite <- IH. destruct (x ++ y) eqn:E; [|reflexivity].
    apply app_eq_nil in E as [_ E]. congruence.
Qed.

(** The column that a line leaves behind is that of its last token. *)
Lemma line_tokens_col source_name n line ts c :
  line_tokens source_name n line = ((ts, None), c) ->
  ts <> [] /\ c = last (map col ts) 0.
Proof.
  unfold line_tokens.
  destruct (_ || _) eqn:E.
  - intros H. inversion H. split; [discriminate|reflexivity].
  - apply orb_false_iff in E as [E _]. apply Nat.eqb_neq in E.
    destruct (lstrip (rstrip line)) as [|a temp] eqn:Et; [now contradiction E|].
    cbn [length].
    pose proof (scan_yields (length temp) source_name n
                  (length (rstrip line) + 1) a temp) as Hy.
    destruct (scan _ _ _ _ _) as [ts' e']. cbn [fst snd] in *.
    intros H. inversion H; subst. split; [now apply Hy|reflexivity].
Qed.

Lemma lines_tokens_end : forall lines source_name n col0,
  let s := lines_tokens source_name n col0 lines in
  match snd s with
  | None =>
      exists ts, fst s = ts ++ [Token Tokens.end_of_file []
                                  (n + length lines) (last (map col ts) col0)]
                 /\ Forall (fun t => t.(kind) <> Tokens.end_of_file) ts
  | Some _ => Forall (fun t => t.(kind) <> Tokens.end_of_file) (fst s)
  end.
Proof.
  induction lines as [|line lines IH]; intros source_name n col0.
  - cbn. exists []. split; [|constructor]. cbn. now rewrite Nat.add_0_r.
  - cbn [lines_tokens].
    pose proof (line_tokens_placed source_name (n + 1) line) as Hl.
    pose proof (line_tokens_col source_name (n + 1) line) as Hc.
    destruct (line_tokens source_name (n + 1) line) as [[ts e] c].
    cbn [fst] in Hl.
    assert (Hts : Forall (fun t => kind t <> Tokens.end_of_file) ts).
    { eapply Forall_impl; [|exact Hl]. intros t (_ & H & _). exact H. }
    destruct e as [e|]; cbv zeta; cbn [fst snd]; [exact Hts|].
    destruct (Hc ts c eq_refl) as [Hne ->].
    specialize (IH source_name (n + 1) (last (map col ts) 0)). cbv zeta in IH.
    destruct (snd (lines_tokens _ _ _ lines)).
    + apply Forall_app. now split.
    + destruct IH as (ts' & -> & Hts').
      exists (ts ++ ts'). split; [|apply Forall_app; now split].
      assert (E1 : n + 1 + length lines = n + length (line :: lines))
        by (cbn [length]; lia).
      assert (E2 : last (map col ts') (last (map col ts) 0)
                   = last (map col (ts ++ ts')) col0).
      { rewrite map_app. destruct ts' as [|t' ts'].
        - rewrite app_nil_r. cbn [map last].
          destruct ts as [|t0 ts0]; [congruence|].
          apply (last_app_nonempty [] (map col (t0 :: ts0))). discriminate.
        - symmetry. apply last_app_nonempty. discriminate. }
      rewrite <- app_assoc, E1, E2. reflexivity.
Qed.

(** X2.  A stream of [get_token] that ends without an exception ends with
    the one end-of-file token of the stream; that token carries the number
    of lines of the text and repeats the column of the token before it (0
    when there is none).  A stream that ends with an exception holds no
    end-of-file token. *)
Theorem get_token_end_of_file source_name text :
  let s := get_token source_name text in
  match snd s with
  | None =>
      exists ts, fst s = ts ++ [Token Tokens.end_of_file []
                                  (length (splitlines text))
                                  (last (map col ts) 0)]
                 /\ Forall (fun t => t.(kind) <> Tokens.end_of_file) ts
  | Some _ => Forall (fun t => t.(kind) <> Tokens.end_of_file) (fst s)
  end.
Proof. apply (lines_tokens_end (splitlines text) source_name 0 0). Qed.

(** ** The quoted value that is not closed *)

Lemma skipn_cons_nth {A : Type} k : forall (l : list A) c t,
  skipn k l = c :: t -> nth_error l k = Some c /\ skipn (S k) l = t.
Proof.
  induction k as [|k IH]; intros l c t H.
  - destruct l; inversion H. now split.
  - destruct l as [|a l]; [discriminate|]. cbn [skipn] in H.
    now apply IH in H.
Qed.

Lemma scan_missing_quote : forall fuel source_name n (rl : str) k e,
  snd (scan fuel source_name n (length rl + 1) (skipn k rl)) = Some e ->
  exists c, e = missing_quote source_name n c /\ 1 <= c
            /\ nth_error rl (c - 1) = Some dquote
            /\ find dquote (skipn c rl) = None.
Proof.
  induction fuel as [|fuel IH]; intros source_name n rl k e; [discriminate|].
  destruct (skipn k rl) as [|c t] eqn:E; [discriminate|].
  assert (L : length (c :: t) = length rl - k) by (rewrite <- E; apply length_skipn).
  assert (Hk : k < length rl) by (cbn [length] in L; lia).
  assert (Hrec : forall m,
            snd (scan fuel source_name n (length rl + 1)
                   (lstrip (skipn m (c :: t)))) = Some e ->
            exists c, e = missing_quote source_name n c /\ 1 <= c
                      /\ nth_error rl (c - 1) = Some dquote
                      /\ find dquote (skipn c rl) = None).
  { intros m. rewrite <- E.
    destruct (lstrip_skipn_skipn m k rl) as (k' & ->). apply IH. }
  rewrite scan_S. cbv zeta.
  destruct (startswith (c :: t) "#"); [discriminate|].
  destruct (startswith (c :: t) "file"); [apply Hrec|].
  destruct (startswith (c :: t) "pattern"); [apply Hrec|].
  destruct (startswith (c :: t) "{"); [apply Hrec|].
  destruct (startswith (c :: t) "}"); [apply Hrec|].
  destruct (startswith (c :: t) ","); [apply Hrec|].
  destruct (startswith (c :: t) [dquote]) eqn:E6; [|apply Hrec].
  change (skipn 1 (c :: t)) with t.
  destruct (find dquote t) as [q1|] eqn:F; [apply Hrec|].
  cbn [snd]. intros H. inversion H; subst e. clear H.
  rewrite startswith_single in E6. apply ch_eqb_eq in E6. subst c.
  destruct (skipn_cons_nth _ _ _ _ E) as [Hn Ht].
  exists (k + 1). replace (k + 1 - 1) with k by lia.
  replace (k + 1) with (S k) by lia.
  repeat split; auto; [|lia|now rewrite Ht].
  unfold missing_quote. do 3 f_equal. cbn [length] in *. lia.
Qed.

Lemma find_space_none ws : forallb isspace ws = true -> find dquote ws = None.
Proof.
  induction ws as [|a ws IH]; [reflexivity|]. cbn [forallb find].
  intros H. apply andb_true_iff in H as [Ha Hw].
  destruct (ch_eqb a dquote) eqn:E.
  - apply ch_eqb_eq in E. subst a. discriminate.
  - now rewrite IH.
Qed.

Lemma line_tokens_missing_quote source_name n line ts e c0 :
  line_tokens source_name n line = ((ts, Some e), c0) ->
  exists c, e = missing_quote source_name n c /\ 1 <= c
            /\ nth_error line (c - 1) = Some dquote
            /\ find dquote (skipn c line) = None.
Proof.
  unfold line_tokens. destruct (_ || _); [discriminate|].
  destruct (lstrip_is_skipn (rstrip line)) as (j & ->).
  intros H. inversion H as [[H1 H2]]. clear H H2.
  destruct (scan_missing_quote (length (skipn j (rstrip line))) source_name n
              (rstrip line) j e) as (c & -> & Hc & Hn & Hf).
  { destruct (scan _ _ _ _ _) as [ts' e']. inversion H1. reflexivity. }
  exists c. repeat split; auto.
  - destruct (rstrip_prefix line) as (ws & E & _). rewrite E.
    rewrite nth_error_app1; [exact Hn|].
    apply nth_error_Some. congruence.
  - destruct (skipn_rstrip_prefix c line) as (ws & -> & Hws).
    rewrite find_app_none by exact Hf.
    now rewrite (find_space_none _ Hws).
Qed.

Lemma lines_tokens_missing_quote source_name e : forall lines n0 col0,
  snd (lines_tokens source_name n0 col0 lines) = Some e ->
  exists i c line,
    e = missing_quote source_name (n0 + i + 1) c
    /\ nth_error lines i = Some line
    /\ 1 <= c /\ nth_error line (c - 1) = Some dquote
    /\ find dquote (skipn c line) = None.
Proof.
  induction lines as [|line lines IH]; intros n0 col0; [discriminate|].
  cbn [lines_tokens].
  pose proof (line_tokens_missing_quote source_name (n0 + 1) line) as Hl.
  destruct (line_tokens source_name (n0 + 1) line) as [[ts [e'|]] c0];
    cbn [snd].
  - intros H. inversion H; subst e'.
    destruct (Hl ts e c0 eq_refl) as (c & -> & Hc & Hn & Hf).
    exists 0, c, line. rewrite Nat.add_0_r. now repeat split.
  - intros H. destruct (IH _ _ H) as (i & c & l & -> & Hi & Hc & Hn & Hf).
    exists (S i), c, l. repeat split; auto. do 2 f_equal. lia.
Qed.

(** X3.  The only exception that [get_token] raises is the [ParseError] for
    a quoted value that is not closed, and its message points at the quote:
    it gives the name of the source, the number of the line and the column,
    both counted from 1, of a double quote after which the line holds no
    other. *)
Theorem get_token_missing_quote source_name text e :
  snd (get_token source_name text) = Some e ->
  exists n c line,
    e = missing_quote source_name n c
    /\ 1 <= n /\ nth_error (splitlines text) (n - 1) = Some line
    /\ 1 <= c /\ nth_error line (c - 1) = Some dquote
    /\ find dquote (skipn c line) = None.
Proof.
  unfold get_token. intros He.
  destruct (lines_tokens_missing_quote _ _ _ _ _ He)
    as (i & c & line & -> & Hi & Hc & Hn & Hf).
  exists (i + 1), c, line. repeat split; auto; [lia|].
  now replace (i + 1 - 1) with i by lia.
Qed.

Lemma get_token_missing_quote_witness :
  exists n c line,
    missing_quote "<stdin>" 3 4 = missing_quote "<stdin>" n c
    /\ 1 <= n /\ nth_error (splitlines open_quote_text) (n - 1) = Some line
    /\ 1 <= c /\ nth_error line (c - 1) = Some dquote
    /\ find dquote (skipn c line) = None.
Proof.
  apply (get_token_missing_quote "<stdin>" open_quote_text).
  vm_compute. reflexivity.
Defined.

(** X4.  Every token that [get_token] yields carries a literal of the shape
    of its kind: the keywords, the punctuation marks and the end of file the
    empty literal; a comment a line without trailing white space that is
    blank or starts, after white space, with the hash sign; an end-of-line
    comment a text that starts with the hash sign; a name a word of
    letters, digits and the four characters of [name_char]; a value either
    a text between two double quotes with none inside, or a word with some
    other character.  A word is not empty, holds no blank, comma or brace,
    and starts neither with a quote or hash sign nor with the letters of
    a keyword. *)
Theorem get_token_literals source_name text t :
  In t (fst (get_token source_name text)) -> wf_token t.
Proof.
  intros H. pose proof (get_token_wf source_name text) as Hwf.
  rewrite Forall_forall in Hwf. now apply Hwf.
Qed.

Lemma get_token_literals_witness :
  wf_token (Token Tokens.value (quoted "1") 3 4).
Proof.
  apply (get_token_literals "<stdin>" scenario_text).
  vm_compute. tauto.
Defined.

(** X5.  The keywords need no delimiter behind them: the rest of a line that
    starts with the letters of [file] or of [pattern] is read as the keyword,
    followed by the tokens of what comes after these letters, whatever it
    is. *)
Theorem keywords_need_no_delimiter r :
  lex ("file" ++ r) = pcons (Tokens.file, []) (lex (lstrip r))
  /\ lex ("pattern" ++ r) = pcons (Tokens.pattern, []) (lex (lstrip r)).
Proof. split; [apply lex_file|apply lex_pattern]. Qed.

(** * More about the parser *)

(** ** The exceptions of [process_source] *)

Lemma step_raise source_name l tk e :
  step source_name l tk = Raise e ->
  (enumerated l.(state) tk.(kind) = false
   /\ e = ParseError (unexpected source_name l.(state) tk))
  \/ e = IndexError
  \/ (tk.(kind) = Tokens.eol_comment
      /\ enumerated l.(state) tk.(kind) = true).
Proof.
  destruct (enumerated l.(state) tk.(kind)) eqn:En.
  - unfold step. intros H. right.
    destruct (state l), (kind tk); try discriminate En; try discriminate H;
      try (right; now split);
      repeat match type of H with
             | context [match ?x with _ => _ end] =>
                 destruct x; try discriminate H
             end; inversion H; now left.
  - rewrite (step_unenumerated _ _ _ En). intros H. inversion H. now left.
Qed.

Lemma run_raises source_name : forall ts l p tail err e,
  settled l -> (p = true -> fresh l) -> eol_ok p ts ->
  run source_name l ts tail = (err, inl e) ->
  tail = Some e
  \/ e = IndexError
  \/ exists s tk, In tk ts /\ enumerated s tk.(kind) = false
                  /\ e = ParseError (unexpected source_name s tk).
Proof.
  induction ts as [|tk ts IH]; intros l p tail err e Hs Hf Hok; cbn [run].
  - destruct tail as [e'|]; [|discriminate].
    intros H. inversion H. now left.
  - cbn [eol_ok] in Hok. destruct Hok as [Hp Hok].
    destruct (step source_name l tk) as [l1|l1|e1] eqn:E.
    + destruct (step_settled _ _ _ _ Hs E) as [Hs1 Hf1]. intros H.
      destruct (IH l1 (ordinary tk.(kind)) tail err e Hs1 Hf1 Hok H)
        as [H1|[H1|(s & tk' & Hin & Hen & He)]]; auto.
      right. right. exists s, tk'. repeat split; auto. now right.
    + discriminate.
    + intros H. inversion H; subst e1. clear H.
      destruct (step_raise _ _ _ _ E) as [[Hen He]|[He|[Hk Hen]]]; auto.
      * right. right. exists l.(state), tk. repeat split; auto. now left.
      * destruct (step_eol_comment source_name l tk (Hf (Hp Hk)) Hk Hen)
          as (l' & E').
        congruence.
Qed.

(** X6.  [process_source] raises nothing but [IndexError] and [ParseError],
    and a [ParseError] carries one of two messages: that of a quoted value
    that is not closed, or that of a token for which the state has no
    transition, with the name of the source, the line and column of that
    token and the names of the state and of the token. *)
Theorem process_source_raises source_name text err e :
  process_source source_name text = (err, inl e) ->
  e = IndexError
  \/ (exists n c, e = missing_quote source_name n c)
  \/ (exists s tk, In tk (fst (get_token source_name text))
                   /\ enumerated s tk.(kind) = false
                   /\ e = ParseError (unexpected source_name s tk)).
Proof.
  unfold process_source, process_tokens. intros H.
  destruct (run_raises source_name _ initial false _ _ _ settled_initial
              ltac:(discriminate) (get_token_eol_ok source_name text) H)
    as [Ht|[He|Hu]]; auto.
  right. left.
  destruct (lines_tokens_missing_quote _ _ _ _ _ Ht) as (i & c & _ & -> & _).
  eauto.
Qed.

Lemma process_source_raises_witness :
  missing_quote "<stdin>" 3 4 = IndexError
  \/ (exists n c, missing_quote "<stdin>" 3 4 = missing_quote "<stdin>" n c)
  \/ (exists s tk, In tk (fst (get_token "<stdin>" open_quote_text))
                   /\ enumerated s tk.(kind) = false
                   /\ missing_quote "<stdin>" 3 4
                      = ParseError (unexpected "<stdin>" s tk)).
Proof.
  apply (process_source_raises "<stdin>" open_quote_text []).
  vm_compute. reflexivity.
Defined.

(** X7.  A document that [process_source] returns is well formed: a line
    between the blocks and a comment line of a block are blank or start,
    after white space, with the hash sign; a block has a template that is
    one value, at least one formal name, and every name is a word of name
    characters; every row has at least one value, and every value is one
    quoted text or one word; every trailing comment starts with the hash
    sign and holds no trailing white space. *)
Theorem parsed_document_is_well_formed source_name text err source :
  process_source source_name text = (err, inr source) -> wf_document source.
Proof. apply process_source_wf. Qed.

Lemma parsed_document_is_well_formed_witness :
  wf_document [Substitution scenario_block].
Proof.
  apply (parsed_document_is_well_formed "<stdin>" scenario_text []).
  vm_compute. reflexivity.
Defined.

(** ** Empty braces *)

Lemma unnamed_initial : unnamed initial.
Proof. discriminate. Qed.

Lemma step_unnamed source_name l tk l' :
  unnamed l -> step source_name l tk = Next l' -> unnamed l'.
Proof.
  unfold unnamed, step.
  destruct (state l) eqn:Es, (kind tk); cbn [before_names]; intros Hu H;
    try discriminate H;
    repeat match type of H with
           | context [match ?x with _ => _ end] =>
               destruct x; try discriminate H
           end;
    inversion H; subst; clear H;
    cbn [state l_formal item warn with_state bare before_names];
    rewrite ?Es; cbn [before_names]; auto; discriminate.
Qed.

Lemma steps_unnamed source_name : forall ts l l',
  unnamed l -> steps source_name l ts = Some l' -> unnamed l'.
Proof.
  induction ts as [|tk ts IH]; intros l l' Hu; cbn [steps].
  - intros H. now inversion H; subst.
  - destruct (step source_name l tk) as [l1| |] eqn:E; try discriminate.
    apply IH. eapply step_unnamed; eauto.
Qed.

(** After an opening brace where a list starts, the list is empty. *)
Lemma step_open_brace source_name l tk :
  unnamed l -> before_brace l.(state) = true ->
  tk.(kind) = Tokens.open_brace ->
  exists l', step source_name l tk = Next l' /\ opened l' = true
             /\ l'.(stderr) = l.(stderr).
Proof.
  unfold unnamed, step, opened. intros Hu Hs Hk. rewrite Hk.
  destruct (state l); try discriminate Hs; eexists; (split; [reflexivity|]);
    cbn [state l_formal actual_row with_state stderr]; split; auto.
  now rewrite Hu.
Qed.

Lemma step_opened_raises source_name l tk :
  opened l = true -> closes tk.(kind) = true ->
  step source_name l tk = Raise IndexError.
Proof.
  unfold opened, step, closes, last_of.
  destruct (state l); try discriminate;
    [destruct (item (l_formal l))|destruct (actual_row l)]; try discriminate;
    intros _; destruct (kind tk); try discriminate; reflexivity.
Qed.

(** X8.  An opening brace of the formal list or of a row that is followed
    at once by a comma or by a closing brace makes [process_source] raise
    [IndexError]: for the warning about the extra comma the code reads the
    last element of a list that is still empty.  So an empty formal list and
    an empty row are no parse errors but index errors. *)
Theorem empty_braces_raise_IndexError source_name ts1 t1 t2 ts2 tail l :
  steps source_name initial ts1 = Some l ->
  before_brace l.(state) = true ->
  t1.(kind) = Tokens.open_brace ->
  closes t2.(kind) = true ->
  run source_name initial (ts1 ++ t1 :: t2 :: ts2) tail
  = (l.(stderr), inl IndexError).
Proof.
  intros Hsteps Hs H1 H2.
  rewrite (run_steps _ _ _ _ _ _ Hsteps). cbn [run].
  destruct (step_open_brace source_name l t1
              (steps_unnamed _ _ _ _ unnamed_initial Hsteps) Hs H1)
    as (l' & -> & Ho & He).
  rewrite (step_opened_raises _ _ _ Ho H2). now rewrite He.
Qed.

Lemma empty_braces_raise_IndexError_witness :
  let ts := fst (get_token "<stdin>" empty_row_text) in
  run "<stdin>" initial (firstn 7 ts ++ nth 7 ts (Token Tokens.comma [] 0 0)
                         :: nth 8 ts (Token Tokens.file [] 0 0) :: skipn 9 ts)
      None
  = ([], inl IndexError).
Proof.
  intros ts.
  apply (empty_braces_raise_IndexError "<stdin>" (firstn 7 ts) _ _ (skipn 9 ts)
           None (Locals [] States.start_actual_first (bare (quoted "a.db")) []
                   (bare ["X" : str]) [] [] [])).
  - vm_compute. reflexivity.
  - reflexivity.
  - reflexivity.
  - reflexivity.
Defined.

(** The other way round. *)
Lemma step_opened source_name l tk l' :
  wf_locals l -> step source_name l tk = Next l' -> opened l' = true ->
  tk.(kind) = Tokens.open_brace /\ before_brace l.(state) = true.
Proof.
  intros (_ & _ & _ & _ & Hne & _ & _ & _ & Hrow & _). unfold step, opened.
  destruct (state l) eqn:Es, (kind tk); cbn [has_name] in *; intros H;
    try discriminate H;
    repeat match type of H with
           | context [match ?x with _ => _ end] =>
               destruct x eqn:?; try discriminate H
           end;
    inversion H; subst; clear H;
    cbn [state l_formal actual_row item warn with_state bare];
    rewrite ?Es; try discriminate; try (now split);
    try (destruct (item (l_formal l)) eqn:Ef;
         [|discriminate]);
    try (destruct (actual_row l) eqn:Er; [|discriminate]);
    try (now contradiction (Hne eq_refl));
    try (now contradiction (Hrow eq_refl));
    try (match goal with
         | Hl : last_of [] = Some _ |- _ => discriminate Hl
         end);
    try (destruct (_ ++ [_]) eqn:Ea;
         [now apply app_eq_nil in Ea as [_ Ea]|discriminate]).
Qed.

Lemma step_IndexError source_name l tk :
  wf_locals l -> step source_name l tk = Raise IndexError ->
  (opened l = true /\ closes tk.(kind) = true)
  \/ (tk.(kind) = Tokens.eol_comment
      /\ enumerated l.(state) tk.(kind) = true).
Proof.
  intros (_ & _ & _ & _ & Hne & _ & _ & _ & Hrow & _). unfold step, opened.
  destruct (state l) eqn:Es, (kind tk); cbn [has_name] in *; intros H;
    try discriminate H; try (right; now split);
    repeat match type of H with
           | context [match ?x with _ => _ end] =>
               destruct x eqn:?; try discriminate H
           end;
    try match goal with
        | Hl : last_of _ = None |- _ => apply last_of_None in Hl
        end;
    try (now contradiction (Hne eq_refl));
    try (now contradiction (Hrow eq_refl));
    left; split; try reflexivity;
    match goal with
    | Hl : _ = [] |- _ => now rewrite Hl
    end.
Qed.

Lemma run_IndexError source_name : forall ts hs l p tail err,
  steps source_name initial hs = Some l ->
  wf_locals l -> Forall wf_token ts ->
  settled l -> (p = true -> fresh l) -> eol_ok p ts ->
  (opened l = true ->
   exists hs' t1 l0, hs = hs' ++ [t1] /\ t1.(kind) = Tokens.open_brace
                     /\ steps source_name initial hs' = Some l0
                     /\ before_brace l0.(state) = true) ->
  tail <> Some IndexError ->
  run source_name l ts tail = (err, inl IndexError) ->
  exists ts1 t1 t2 ts2 l0,
    hs ++ ts = ts1 ++ t1 :: t2 :: ts2
    /\ steps source_name initial ts1 = Some l0
    /\ before_brace l0.(state) = true
    /\ t1.(kind) = Tokens.open_brace /\ closes t2.(kind) = true.
Proof.
  induction ts as [|tk ts IH];
    intros hs l p tail err Hsteps Hwf Hts Hs Hf Hok Ho Htail; cbn [run].
  - destruct tail as [e|]; [|discriminate].
    intros H. inversion H; subst. now contradiction Htail.
  - cbn [eol_ok] in Hok. destruct Hok as [Hp Hok].
    inversion Hts as [|? ? Htk Hts']; subst.
    destruct (step source_name l tk) as [l1|l1|e1] eqn:E.
    + destruct (step_settled _ _ _ _ Hs E) as [Hs1 Hf1]. intros H.
      assert (Hsteps1 : steps source_name initial (hs ++ [tk]) = Some l1).
      { rewrite steps_app, Hsteps. cbn [steps]. now rewrite E. }
      destruct (IH (hs ++ [tk]) l1 (ordinary tk.(kind)) tail err Hsteps1)
        as (ts1 & t1 & t2 & ts2 & l0 & Heq & R); auto.
      * eapply step_wf; eauto.
      * intros Hopen.
        destruct (step_opened _ _ _ _ Hwf E Hopen) as [Hk Hb].
        exists hs, tk, l. auto.
      * exists ts1, t1, t2, ts2, l0. split; [|exact R].
        now rewrite <- Heq, <- app_assoc.
    + discriminate.
    + intros H. inversion H; subst e1. clear H.
      destruct (step_IndexError _ _ _ Hwf E) as [[Hopen Hc]|[Hk Hen]].
      * destruct (Ho Hopen) as (hs' & t1 & l0 & -> & Hk1 & Hsteps0 & Hb).
        exists hs', t1, tk, ts, l0. repeat split; auto.
        now rewrite <- app_assoc.
      * destruct (step_eol_comment source_name l tk (Hf (Hp Hk)) Hk Hen)
          as (l' & E').
        congruence.
Qed.

(** X9.  [process_source] raises [IndexError] in one case only: the tokens
    hold an opening brace of the formal list or of a row that is followed
    at once by a comma or by a closing brace, and the tokens before that
    brace were read without an exception. *)
Theorem IndexError_only_after_open_brace source_name text err :
  process_source source_name text = (err, inl IndexError) ->
  exists ts1 t1 t2 ts2 l0,
    fst (get_token source_name text) = ts1 ++ t1 :: t2 :: ts2
    /\ steps source_name initial ts1 = Some l0
    /\ before_brace l0.(state) = true
    /\ t1.(kind) = Tokens.open_brace /\ closes t2.(kind) = true.
Proof.
  unfold process_source, process_tokens. intros H.
  refine (run_IndexError source_name (fst (get_token source_name text)) []
            initial false (snd (get_token source_name text)) err eq_refl
            wf_initial (get_token_wf source_name text) settled_initial
            _ (get_token_eol_ok source_name text) _ _ H).
  - discriminate.
  - discriminate.
  - intros Ht.
    destruct (lines_tokens_tail_ParseError _ _ _ _ _ Ht) as (msg & Hm).
    discriminate.
Qed.

Lemma IndexError_only_after_open_brace_witness :
  exists ts1 t1 t2 ts2 l0,
    fst (get_token "<stdin>" empty_row_text) = ts1 ++ t1 :: t2 :: ts2
    /\ steps "<stdin>" initial ts1 = Some l0
    /\ before_brace l0.(state) = true
    /\ t1.(kind) = Tokens.open_brace /\ closes t2.(kind) = true.
Proof.
  apply (IndexError_only_after_open_brace "<stdin>" empty_row_text []).
  vm_compute. reflexivity.
Defined.

(** ** Texts without blocks *)

Lemma strip_rstrip s : strip (rstrip s) = strip s.
Proof. unfold strip. now rewrite rstrip_idem. Qed.

Lemma run_comment_lines source_name : forall lines n col0 l,
  l.(state) = States.seek_file ->
  forallb comment_line lines = true ->
  let s := lines_tokens source_name n col0 lines in
  run source_name l (fst s) (snd s)
  = (l.(stderr),
     inr (l.(result) ++ map (fun x => Line (rstrip x)) lines)).
Proof.
  induction lines as [|line lines IH]; intros n col0 l Hs Hc; cbv zeta.
  - cbn [lines_tokens fst snd run]. unfold step. rewrite Hs.
    cbn [kind map]. now rewrite app_nil_r.
  - cbn [forallb] in Hc. apply andb_true_iff in Hc as [Hc Hcs].
    cbn [lines_tokens]. unfold line_tokens.
    unfold comment_line in Hc. cbv zeta in Hc. rewrite Hc.
    cbn [fst snd app run]. unfold step at 1. rewrite Hs. cbn [kind literal].
    specialize (IH (n + 1) 0
                  (Locals (result l ++ [Line (rstrip line)]) States.seek_file
                     (l_template l) (l_comments l) (l_formal l) (l_actual l)
                     (actual_row l) (stderr l)) eq_refl Hcs).
    cbv zeta in IH. rewrite IH. cbn [stderr result map].
    now rewrite <- app_assoc.
Qed.

Lemma generate_lines indent spacing width : forall lines,
  snd (generate (map (fun x => Line (rstrip x)) lines) indent spacing width)
  = (flat_map (fun x => strip x ++ nl) lines, None).
Proof.
  induction lines as [|line lines IH]; [reflexivity|].
  cbn [map generate flat_map].
  destruct (generate _ indent spacing width) as [rest' [o e]].
  cbn [snd] in *. inversion IH; subst.
  unfold then_, wrote. cbn [fst snd]. now rewrite strip_rstrip.
Qed.

(** X10.  A text without blocks, each line of which is blank or a comment,
    is written out line by line with the white space at both ends of each
    line removed, whatever the layout parameters; nothing is written to the
    standard error stream.  The empty text gives the empty output. *)
Theorem comment_lines_are_stripped source_name text indent spacing width :
  forallb comment_line (splitlines text) = true ->
  process source_name text indent spacing width
  = ([], (flat_map (fun line => strip line ++ nl) (splitlines text), None)).
Proof.
  intros H. unfold process, process_source, process_tokens, get_token.
  pose proof (run_comment_lines source_name (splitlines text) 0 0 initial
                eq_refl H) as Hr.
  cbv zeta in Hr. rewrite Hr. cbn [stderr result initial app].
  now rewrite generate_lines.
Qed.

Lemma comment_lines_are_stripped_witness :
  process "<stdin>" ("  # one  " ++ nl ++ nl ++ "# two") 4 2 120
  = ([], ("# one" ++ nl ++ nl ++ "# two" ++ nl, None)).
Proof.
  apply (comment_lines_are_stripped "<stdin>"
           ("  # one  " ++ nl ++ nl ++ "# two") 4 2 120).
  reflexivity.
Defined.

(** ** What the parse depends on *)

Lemma forget_eq l l' :
  forget l = forget l' ->
  l' = Locals l.(result) l.(state) l.(l_template) l.(l_comments)
         l.(l_formal) l.(l_actual) l.(actual_row) l'.(stderr).
Proof. destruct l, l'. unfold forget. cbn. intros H. now inversion H. Qed.

Ltac step_cases H :=
  repeat match type of H with
         | context [match ?x with _ => _ end] => destruct x
         end.

(** One round looks at the kind and the literal of the token, and at the
    locals other than the warnings written so far. *)
Lemma step_alike n n' l l' tk tk' :
  forget l = forget l' -> kl tk = kl tk' ->
  match step n l tk, step n' l' tk' with
  | Next a, Next b => forget a = forget b
  | Break a, Break b => forget a = forget b
  | Raise _, Raise _ => True
  | _, _ => False
  end.
Proof.
  intros Hl Hk. rewrite (forget_eq _ _ Hl). clear Hl.
  generalize (stderr l') as e'. intros e'.
  destruct l as [r s t cm f a ar e].
  destruct tk as [k lit ln c], tk' as [k' lit' ln' c'].
  unfold kl in Hk. cbn [kind literal] in Hk. inversion Hk; subst k' lit'.
  unfold step, forget, warn, with_state.
  cbn [state kind literal result l_template l_comments l_formal
       l_actual actual_row stderr lineno col].
  destruct s, k; try exact I; try reflexivity;
    repeat match goal with
           | |- context [match last_of ?x with _ => _ end] =>
               destruct (last_of x) as [[]|]
           | |- context [match comment ?x with _ => _ end] =>
               destruct (comment x)
           | |- context [match ?r with {| item := _; comment := _ |} => _ end] =>
               destruct r as [? []]
           end; try exact I; reflexivity.
Qed.

Lemma run_alike n n' : forall ts ts' l l' tail tail',
  forget l = forget l' -> map kl ts = map kl ts' ->
  (tail = None <-> tail' = None) ->
  alike (snd (run n l ts tail)) (snd (run n' l' ts' tail')).
Proof.
  induction ts as [|tk ts IH]; intros ts' l l' tail tail' Hl Hts Htail.
  - destruct ts'; [|discriminate]. cbn [run].
    destruct tail, tail'; cbn [snd alike]; auto.
    + destruct Htail as [_ H]. now discriminate H.
    + destruct Htail as [H _]. now discriminate H.
    + apply (f_equal result) in Hl. exact Hl.
  - destruct ts' as [|tk' ts']; [discriminate|]. cbn [map] in Hts.
    assert (Hk : kl tk = kl tk') by congruence.
    assert (Hrest : map kl ts = map kl ts') by congruence.
    cbn [run].
    pose proof (step_alike n n' l l' tk tk' Hl Hk) as Hs.
    destruct (step n l tk), (step n' l' tk'); try contradiction.
    + now apply IH.
    + cbn [snd alike]. apply (f_equal result) in Hs. exact Hs.
    + exact I.
Qed.

(** X11.  The document that [process_source] returns depends on the kinds
    and the literals of the tokens only: two texts whose tokens agree in
    these, wherever the tokens stand in their lines and whatever the names
    of the sources, give the same document, or both give none. *)
Theorem document_depends_on_tokens_only n1 text1 n2 text2 :
  plain (get_token n1 text1) = plain (get_token n2 text2) ->
  alike (snd (process_source n1 text1)) (snd (process_source n2 text2)).
Proof.
  unfold plain, process_source, process_tokens. intros H.
  inversion H as [[Hts Htail]]. apply run_alike; auto.
  destruct (snd (get_token n1 text1)), (snd (get_token n2 text2));
    split; intros; congruence.
Qed.

Lemma document_depends_on_tokens_only_witness :
  alike (snd (process_source "<stdin>" scenario_text))
        (snd (process_source "a.substitutions" scenario_text_respaced)).
Proof.
  apply (document_depends_on_tokens_only "<stdin>" scenario_text
           "a.substitutions" scenario_text_respaced).
  vm_compute. reflexivity.
Defined.

(** ** Commas *)

Lemma step_forget n l l' tk :
  forget l = forget l' ->
  match step n l tk, step n l' tk with
  | Next a, Next b =>
      forget a = forget b
      /\ exists w, a.(stderr) = l.(stderr) ++ w /\ b.(stderr) = l'.(stderr) ++ w
  | Break a, Break b =>
      a.(result) = b.(result)
      /\ a.(stderr) = l.(stderr) /\ b.(stderr) = l'.(stderr)
  | Raise e, Raise e' => e = e'
  | _, _ => False
  end.
Proof.
  intros Hl. rewrite (forget_eq _ _ Hl). clear Hl.
  generalize (stderr l') as e'. intros e'.
  destruct l as [r s t cm f a ar e].
  destruct tk as [k lit ln c].
  unfold step, forget, warn, with_state.
  cbn [state kind literal result l_template l_comments l_formal
       l_actual actual_row stderr lineno col].
  destruct s, k; try reflexivity;
    repeat match goal with
           | |- context [match last_of ?x with _ => _ end] =>
               destruct (last_of x) as [[]|]
           | |- context [match comment ?x with _ => _ end] =>
               destruct (comment x)
           | |- context [match ?r with {| item := _; comment := _ |} => _ end] =>
               destruct r as [? []]
           end; try reflexivity;
    cbn [stderr result]; (split; [reflexivity|]);
    first [ now split
          | exists []; now rewrite !app_nil_r
          | eexists; split; reflexivity ].
Qed.

(** The warnings written so far change neither the result of the loop nor
    the warnings that follow. *)
Lemma run_forget n : forall ts l l' tail,
  forget l = forget l' ->
  snd (run n l ts tail) = snd (run n l' ts tail)
  /\ exists rest, fst (run n l ts tail) = l.(stderr) ++ rest
                  /\ fst (run n l' ts tail) = l'.(stderr) ++ rest.
Proof.
  induction ts as [|tk ts IH]; intros l l' tail Hl; cbn [run].
  - assert (Hr : result l = result l') by exact (f_equal result Hl).
    destruct tail; cbn [fst snd]; rewrite ?Hr;
      (split; [reflexivity|]); exists []; now rewrite !app_nil_r.
  - pose proof (step_forget n l l' tk Hl) as Hs.
    destruct (step n l tk) as [a|a|e], (step n l' tk) as [b|b|e'];
      try contradiction.
    + destruct Hs as (Hab & w & Ha & Hb).
      destruct (IH a b tail Hab) as (Hsnd & rest & Hfa & Hfb).
      split; [exact Hsnd|]. exists (w ++ rest).
      now rewrite Hfa, Hfb, Ha, Hb, <- !app_assoc.
    + destruct Hs as (Hr & Ha & Hb). cbn [fst snd]. rewrite Hr, Ha, Hb.
      split; [reflexivity|]. exists []. now rewrite !app_nil_r.
    + subst e'. cbn [fst snd]. split; [reflexivity|].
      exists []. now rewrite !app_nil_r.
Qed.

Lemma filled_initial : filled initial.
Proof. split; discriminate. Qed.

Lemma step_filled source_name l tk l' :
  filled l -> step source_name l tk = Next l' -> filled l'.
Proof.
  unfold filled, step. intros [H1 H2].
  destruct (state l) eqn:Es, (kind tk); intros H; try discriminate H;
    repeat match type of H with
           | context [match ?x with _ => _ end] =>
               destruct x; try discriminate H
           end;
    inversion H; subst; clear H;
    cbn [state l_formal actual_row item warn with_state bare];
    rewrite ?Es; split; try discriminate; auto; intros _;
    apply app_nonempty.
Qed.

Lemma steps_filled source_name : forall ts l l',
  filled l -> steps source_name l ts = Some l' -> filled l'.
Proof.
  induction ts as [|tk ts IH]; intros l l' Hf; cbn [steps].
  - intros H. now inversion H; subst.
  - destruct (step source_name l tk) as [l1| |] eqn:E; try discriminate.
    apply IH. eapply step_filled; eauto.
Qed.

Lemma last_of_nonempty {A : Type} (l : list A) :
  l <> [] -> exists x, last_of l = Some x.
Proof.
  intros H. destruct (last_of l) eqn:E; [eauto|].
  apply last_of_None in E. congruence.
Qed.

Lemma missing_comma_steps n l c tk :
  filled l -> c.(kind) = Tokens.comma ->
  element l.(state) tk.(kind) = true ->
  exists last a b,
    last_of (filling l) = Some last
    /\ step n l tk = Next a
    /\ steps n l [c; tk] = Some b
    /\ forget a = forget b
    /\ a.(stderr)
       = l.(stderr) ++ [warning_at n tk (missing_comma (in_names l.(state))
                                                       last tk.(literal))]
    /\ b.(stderr) = l.(stderr).
Proof.
  intros [F1 F2] Hc He. unfold filling, in_names, steps, step.
  rewrite Hc. cbn [with_state state kind].
  destruct (state l) eqn:Es; try discriminate He;
    destruct (kind tk) eqn:Ek; try discriminate He;
    [destruct (last_of_nonempty _ (F1 eq_refl)) as (last & Hlast)
    |destruct (last_of_nonempty _ (F2 eq_refl)) as (last & Hlast)
    |destruct (last_of_nonempty _ (F2 eq_refl)) as (last & Hlast)];
    rewrite Hlast; exists last; do 2 eexists;
    repeat (split; [reflexivity|]); reflexivity.
Qed.

(** X12.  A comma that is missing between two names of the formal list, or
    between two values of a row, is supplied: the loop of [process_source]
    returns for the tokens without the comma what it returns for the tokens
    with it, and writes the same warnings and one more, which names the
    element before the gap and the one after it at the place of the
    latter. *)
Theorem missing_comma_is_supplied n ts1 c tk ts2 tail l :
  steps n initial ts1 = Some l ->
  c.(kind) = Tokens.comma ->
  element l.(state) tk.(kind) = true ->
  exists last rest,
    last_of (filling l) = Some last
    /\ run n initial (ts1 ++ tk :: ts2) tail
       = (l.(stderr)
          ++ warning_at n tk (missing_comma (in_names l.(state)) last
                                            tk.(literal)) :: rest,
          snd (run n initial (ts1 ++ c :: tk :: ts2) tail))
    /\ fst (run n initial (ts1 ++ c :: tk :: ts2) tail) = l.(stderr) ++ rest.
Proof.
  intros Hsteps Hc He.
  pose proof (steps_filled _ _ _ _ filled_initial Hsteps) as Hf.
  destruct (missing_comma_steps n l c tk Hf Hc He)
    as (last & a & b & Hlast & Ha & Hb & Hab & Hea & Heb).
  assert (HB : steps n initial (ts1 ++ [c; tk]) = Some b)
    by (now rewrite steps_app, Hsteps).
  replace (ts1 ++ c :: tk :: ts2) with ((ts1 ++ [c; tk]) ++ ts2)
    by (now rewrite <- app_assoc).
  rewrite (run_steps _ _ _ _ _ _ HB), (run_steps _ _ _ _ _ _ Hsteps).
  cbn [run]. rewrite Ha.
  destruct (run_forget n ts2 a b tail Hab) as (Hsnd & rest & Hfa & Hfb).
  exists last, rest. split; [exact Hlast|]. split.
  - rewrite <- Hsnd. rewrite (surjective_pairing (run n a ts2 tail)) at 1.
    rewrite Hfa, Hea, <- app_assoc. reflexivity.
  - now rewrite Hfb, Heb.
Qed.

Lemma missing_comma_is_supplied_witness :
  let ts := fst (get_token "<stdin>" scenario_without_commas) in
  let c := Token Tokens.comma [] 2 13 in
  exists last rest,
    last_of ["X" : str] = Some last
    /\ run "<stdin>" initial (firstn 6 ts ++ nth 6 ts c :: skipn 7 ts) None
       = ([] ++ warning_at "<stdin>" (nth 6 ts c)
                  (missing_comma true last "Y") :: rest,
          snd (run "<stdin>" initial
                 (firstn 6 ts ++ c :: nth 6 ts c :: skipn 7 ts) None))
    /\ fst (run "<stdin>" initial
              (firstn 6 ts ++ c :: nth 6 ts c :: skipn 7 ts) None)
       = [] ++ rest.
Proof.
  intros ts c.
  apply (missing_comma_is_supplied "<stdin>" (firstn 6 ts) c (nth 6 ts c)
           (skipn 7 ts) None
           (Locals [] States.post_name (bare (quoted "a.db")) []
              (bare ["X" : str]) [] [] [])).
  - vm_compute. reflexivity.
  - reflexivity.
  - reflexivity.
Defined.

Lemma extra_comma_steps n l c tk :
  filled l -> c.(kind) = Tokens.comma ->
  (l.(state) = States.post_name \/ l.(state) = States.post_value) ->
  closes tk.(kind) = true ->
  exists last a b,
    last_of (filling l) = Some last
    /\ steps n l [c; tk] = Some a
    /\ step n l tk = Next b
    /\ forget a = forget b
    /\ a.(stderr)
       = l.(stderr) ++ [warning_at n tk (extra_comma (in_names l.(state))
                                                     last)]
    /\ b.(stderr) = l.(stderr).
Proof.
  intros [F1 F2] Hc Hs Hk. unfold filling, in_names, steps, step.
  rewrite Hc. cbn [with_state state kind].
  destruct Hs as [Es|Es]; rewrite Es;
    [destruct (last_of_nonempty _ (F1 Es)) as (last & Hlast)
    |destruct (last_of_nonempty _ (F2 Es)) as (last & Hlast)];
    destruct (kind tk) eqn:Ek; try discriminate Hk;
    cbn [l_formal actual_row with_state]; rewrite Hlast; exists last;
    do 2 eexists; repeat (split; [reflexivity|]); reflexivity.
Qed.

(** X13.  A comma that is followed at once by another comma or by the
    closing brace is dropped: after a name of the formal list or a value of
    a row, the loop of [process_source] returns for the tokens with such a
    comma what it returns for the tokens without it, and writes the same
    warnings and one more, which names the element before the comma at the
    place of the token after it. *)
Theorem extra_comma_is_dropped n ts1 c tk ts2 tail l :
  steps n initial ts1 = Some l ->
  (l.(state) = States.post_name \/ l.(state) = States.post_value) ->
  c.(kind) = Tokens.comma ->
  closes tk.(kind) = true ->
  exists last rest,
    last_of (filling l) = Some last
    /\ run n initial (ts1 ++ c :: tk :: ts2) tail
       = (l.(stderr)
          ++ warning_at n tk (extra_comma (in_names l.(state)) last) :: rest,
          snd (run n initial (ts1 ++ tk :: ts2) tail))
    /\ fst (run n initial (ts1 ++ tk :: ts2) tail) = l.(stderr) ++ rest.
Proof.
  intros Hsteps Hs Hc Hk.
  pose proof (steps_filled _ _ _ _ filled_initial Hsteps) as Hf.
  destruct (extra_comma_steps n l c tk Hf Hc Hs Hk)
    as (last & a & b & Hlast & Ha & Hb & Hab & Hea & Heb).
  assert (HA : steps n initial (ts1 ++ [c; tk]) = Some a)
    by (now rewrite steps_app, Hsteps).
  replace (ts1 ++ c :: tk :: ts2) with ((ts1 ++ [c; tk]) ++ ts2)
    by (now rewrite <- app_assoc).
  rewrite (run_steps _ _ _ _ _ _ HA), (run_steps _ _ _ _ _ _ Hsteps).
  cbn [run]. rewrite Hb.
  destruct (run_forget n ts2 a b tail Hab) as (Hsnd & rest & Hfa & Hfb).
  exists last, rest. split; [exact Hlast|]. split.
  - rewrite <- Hsnd. rewrite (surjective_pairing (run n a ts2 tail)) at 1.
    rewrite Hfa, Hea, <- app_assoc. reflexivity.
  - now rewrite Hfb, Heb.
Qed.

Lemma extra_comma_is_dropped_witness :
  let ts := fst (get_token "<stdin>" scenario_with_more_commas) in
  let c := Token Tokens.comma [] 0 0 in
  exists last rest,
    last_of ["X" : str] = Some last
    /\ run "<stdin>" initial
         (firstn 6 ts ++ nth 6 ts c :: nth 7 ts c :: skipn 8 ts) None
       = ([] ++ warning_at "<stdin>" (nth 7 ts c) (extra_comma true last)
             :: rest,
          snd (run "<stdin>" initial
                 (firstn 6 ts ++ nth 7 ts c :: skipn 8 ts) None))
    /\ fst (run "<stdin>" initial
              (firstn 6 ts ++ nth 7 ts c :: skipn 8 ts) None)
       = [] ++ rest.
Proof.
  intros ts c.
  apply (extra_comma_is_dropped "<stdin>" (firstn 6 ts) (nth 6 ts c)
           (nth 7 ts c) (skipn 8 ts) None
           (Locals [] States.post_name (bare (quoted "a.db")) []
              (bare ["X" : str]) [] [] [])).
  - vm_compute. reflexivity.
  - now left.
  - reflexivity.
  - reflexivity.
Defined.

(** * More about the layout engine *)

(** X14.  [quote_str] is idempotent; it returns its argument, or its
    argument between two double quotes; and what it returns has a double
    quote at one end at least. *)
Theorem quote_str_is_idempotent v :
  quote_str (quote_str v) = quote_str v
  /\ (quote_str v = v \/ quote_str v = quoted v)
  /\ startswith (quote_str v) [dquote] || endswith_char (quote_str v) dquote
     = true.
Proof.
  split; [apply quote_str_idem|]. unfold quote_str.
  destruct (startswith v [dquote]) eqn:Es; cbn [negb andb].
  - split; [now left|]. now rewrite Es.
  - destruct (endswith_char v dquote) eqn:Ee; cbn [negb].
    + split; [now left|]. now rewrite Es, Ee.
    + split; [now right|]. cbn [startswith]. now rewrite ch_eqb_refl.
Qed.

(** ** [generate_row] and the widths *)

Lemma row_loop_raises : forall it j number widths prefix spaces newlines,
  j <= length widths ->
  snd (row_loop j number it widths prefix spaces newlines)
  = if j + length it <=? length widths then None else Some IndexError.
Proof.
  induction it as [|name it IH];
    intros j number widths prefix spaces newlines Hj; cbn [row_loop length].
  - cbn [wrote snd]. rewrite Nat.add_0_r.
    apply Nat.leb_le in Hj. now rewrite Hj.
  - destruct (nth_error widths j) as [w|] eqn:En.
    + assert (Hlt : j < length widths)
        by (apply nth_error_Some; congruence).
      rewrite then_wrote. cbn [snd]. rewrite IH by lia.
      replace (S j + length it) with (j + S (length it)) by lia.
      reflexivity.
    + apply nth_error_None in En. cbn [snd].
      destruct (j + S (length it) <=? length widths) eqn:E; [|reflexivity].
      apply Nat.leb_le in E. lia.
Qed.

(** X15.  [generate_row] reads one width for every element of the row: it
    raises [IndexError] when [widths] is shorter than the row, and nothing
    otherwise. *)
Theorem generate_row_needs_a_width_for_each_element
    it widths prefix spaces newlines :
  snd (generate_row it widths prefix spaces newlines)
  = if length it.(item) <=? length widths then None else Some IndexError.
Proof.
  unfold generate_row. rewrite then_wrote. cbn [snd].
  pose proof (row_loop_raises it.(item) 0 (length it.(item)) widths prefix
                spaces newlines (Nat.le_0_l _)) as H.
  cbn [Nat.add] in H.
  destruct (row_loop 0 _ _ _ _ _ _) as [o [e|]]; cbn [snd] in H;
    unfold then_; cbn [snd]; [exact H|].
  rewrite <- H. now destruct it.(comment).
Qed.

(** ** The first loop of [generate_substitution], once more *)

Lemma quote_row_lengths : forall row widths row' e,
  length row = length widths -> quote_row row widths <> (row', inl e).
Proof.
  intros row widths row' e H.
  destruct (quote_row_ok row widths H) as (w' & -> & _). discriminate.
Qed.

Lemma quote_rows_inl : forall act number widths act' e,
  length widths = number ->
  quote_rows number act widths = (act', inl e) ->
  exists row c,
    In (Row (With_comment row c)) act /\ length row <> number
    /\ e = ValueError row (length row) number.
Proof.
  induction act as [|a act IH]; intros number widths act' e Hw;
    cbn [quote_rows]; [discriminate|].
  destruct a as [s|r].
  - destruct (quote_rows number act widths) as [rest' res] eqn:E.
    intros H. inversion H; subst.
    destruct (IH _ _ _ _ eq_refl E) as (row & c & Hin & R).
    exists row, c. split; [now right|exact R].
  - destruct (length r.(item) =? number) eqn:En; cbn [negb].
    + apply Nat.eqb_eq in En.
      destruct (quote_row_ok r.(item) widths) as (w1 & E1 & L1); [congruence|].
      rewrite E1.
      destruct (quote_rows number act w1) as [rest' res] eqn:E.
      intros H. inversion H; subst.
      destruct (IH _ _ _ _ L1 E) as (row & c & Hin & R).
      exists row, c. split; [now right|exact R].
    + intros H. inversion H; subst. apply Nat.eqb_neq in En.
      exists r.(item), r.(comment). split; [left; now destruct r|now split].
Qed.

Lemma generate_substitution_raises d indent spacing width d' out e :
  generate_substitution d indent spacing width = (d', (out, Some e)) ->
  out = []
  /\ exists row c,
       In (Row (With_comment row c)) d.(actual)
       /\ length row <> length d.(formal).(item)
       /\ e = ValueError row (length row) (length d.(formal).(item)).
Proof.
  destruct (block_widths d) as [widths|] eqn:Hw.
  - rewrite (generate_substitution_ok _ _ _ _ _ Hw). discriminate.
  - unfold block_widths in Hw. unfold generate_substitution.
    destruct (quote_rows _ _ _) as [act' [e'|w]] eqn:E; [|discriminate].
    intros H. inversion H; subst. split; [reflexivity|].
    apply (quote_rows_inl _ _ _ _ _ (length_map _ _) E).
Qed.

Lemma generate_raises : forall source indent spacing width source' out e,
  generate source indent spacing width = (source', (out, Some e)) ->
  exists pre d post row c,
    source = pre ++ Substitution d :: post
    /\ snd (generate pre indent spacing width) = (out, None)
    /\ In (Row (With_comment row c)) d.(actual)
    /\ length row <> length d.(formal).(item)
    /\ e = ValueError row (length row) (length d.(formal).(item)).
Proof.
  induction source as [|x source IH];
    intros indent spacing width source' out e; cbn [generate];
    [discriminate|].
  destruct x as [s|d].
  - destruct (generate source indent spacing width) as [rest' [o [e'|]]] eqn:E;
      unfold then_, wrote; cbn [fst snd]; [|discriminate].
    intros H. inversion H; subst.
    destruct (IH _ _ _ _ _ _ E) as (pre & d & post & row & c & -> & Hp & R).
    exists (Line s :: pre), d, post, row, c. split; [reflexivity|].
    split; [|exact R]. cbn [generate].
    destruct (generate pre indent spacing width) as [r w]. cbn [snd] in *.
    rewrite Hp. reflexivity.
  - destruct (generate_substitution d indent spacing width)
      as [d' [o [e'|]]] eqn:Ed.
    + intros H. inversion H; subst.
      destruct (generate_substitution_raises _ _ _ _ _ _ _ Ed) as (-> & R).
      exists [], d, source. destruct R as (row & c & R).
      exists row, c. split; [reflexivity|]. split; [reflexivity|exact R].
    + destruct (generate source indent spacing width) as [rest' [o' [e'|]]] eqn:E;
        unfold then_, wrote; cbn [fst snd]; [|discriminate].
      intros H. inversion H; subst.
      destruct (IH _ _ _ _ _ _ E) as (pre & d0 & post & row & c & -> & Hp & R).
      exists (Substitution d :: pre), d0, post, row, c. split; [reflexivity|].
      split; [|exact R]. cbn [generate]. rewrite Ed.
      destruct (generate pre indent spacing width) as [r w]. cbn [snd] in *.
      rewrite Hp. reflexivity.
Qed.

(** X16.  When [generate] raises an exception, it is the [ValueError] of a
    block with a row that has not as many items as the formal row; the
    items of the document before that block have been written in full, and
    nothing of the block and of what follows it. *)
Theorem generate_stops_at_the_first_bad_block
    source indent spacing width source' out e :
  generate source indent spacing width = (source', (out, Some e)) ->
  exists pre d post row c,
    source = pre ++ Substitution d :: post
    /\ snd (generate pre indent spacing width) = (out, None)
    /\ In (Row (With_comment row c)) d.(actual)
    /\ length row <> length d.(formal).(item)
    /\ e = ValueError row (length row) (length d.(formal).(item)).
Proof. apply generate_raises. Qed.

Lemma generate_stops_at_the_first_bad_block_witness :
  exists source out,
    process_source "<stdin>" second_block_short_text = ([], inr source)
    /\ exists pre d post row c,
         source = pre ++ Substitution d :: post
         /\ snd (generate pre 4 2 120) = (out, None)
         /\ In (Row (With_comment row c)) d.(actual)
         /\ length row <> length d.(formal).(item)
         /\ ValueError ["1" : str] 1 2
            = ValueError row (length row) (length d.(formal).(item)).
Proof.
  eexists. eexists. split; [vm_compute; reflexivity|].
  eapply generate_stops_at_the_first_bad_block.
  vm_compute. reflexivity.
Defined.

(** ** The widths of the columns *)

Lemma quote_row_max : forall row widths row' w1,
  quote_row row widths = (row', inr w1) ->
  forall j, j < length row ->
            nth j w1 0 = Nat.max (nth j widths 0) (length (nth j row' [])).
Proof.
  induction row as [|v row IH]; intros widths row' w1; cbn [quote_row length].
  - intros _ j Hj. lia.
  - destruct widths as [|w ws]; [discriminate|].
    destruct (quote_row row ws) as [rest' r] eqn:E.
    destruct r as [e|ws']; intros H; inversion H; subst.
    intros [|j] Hj; [reflexivity|]. cbn [nth]. apply (IH _ _ _ E). lia.
Qed.

Lemma quote_rows_attained : forall act number widths act' widths',
  quote_rows number act widths = (act', inr widths') ->
  forall j, j < number ->
    nth j widths' 0 = nth j widths 0
    \/ exists r, In (Row r) act'
                 /\ length (nth j r.(item) []) = nth j widths' 0.
Proof.
  induction act as [|a act IH]; intros number widths act' widths';
    cbn [quote_rows].
  - intros H. inversion H. now left.
  - destruct a as [s|r].
    + destruct (quote_rows number act widths) as [rest' res] eqn:E.
      intros H j Hj. inversion H; subst.
      destruct (IH _ _ _ _ E j Hj) as [Hl|(r & Hr & Hn)]; [now left|].
      right. exists r. split; [now right|exact Hn].
    + destruct (length r.(item) =? number) eqn:En; [|discriminate].
      apply Nat.eqb_eq in En. cbn [negb].
      destruct (quote_row r.(item) widths) as [row' [e|w1]] eqn:E1;
        [discriminate|].
      destruct (quote_rows number act w1) as [rest' res] eqn:E.
      intros H j Hj. inversion H; subst.
      destruct (IH _ _ _ _ E j Hj) as [Hl|(r0 & Hr & Hn)].
      * pose proof (quote_row_max _ _ _ _ E1 j ltac:(lia)) as Hm.
        destruct (Nat.max_spec (nth j widths 0) (length (nth j row' [])))
          as [[_ Hmax]|[_ Hmax]].
        -- right. exists (With_comment row' r.(comment)).
           split; [now left|]. cbn [item]. lia.
        -- left. lia.
      * right. exists r0. split; [now right|exact Hn].
Qed.

(** X17.  The width that [generate_substitution] computes for a column is
    the length of the longest entry of the column, the formal name and the
    values as they are after quoting: no entry is longer, and one is as
    long. *)
Theorem column_is_as_wide_as_its_widest_entry d widths j :
  block_widths d = Some widths ->
  j < length d.(formal).(item) ->
  (forall it, In it (rendered_rows d) ->
              length (nth j it []) <= nth j widths 0)
  /\ exists it, In it (rendered_rows d)
                /\ length (nth j it []) = nth j widths 0.
Proof.
  intros Hw Hj. split.
  - intros it Hit. now destruct (block_widths_fits _ _ _ Hw Hit) as [_ H].
  - unfold block_widths in Hw.
    destruct (quote_rows _ _ _) as [act' [e|w]] eqn:E; [discriminate|].
    inversion Hw; subst w.
    pose proof (quote_rows_inr _ _ _ _ _ E) as Hact.
    destruct (quote_rows_attained _ _ _ _ _ E j Hj) as [Hl|(r & Hr & Hn)].
    + exists d.(formal).(item). split; [now left|].
      rewrite Hl.
      rewrite (nth_indep _ 0 (length (@nil ascii)))
        by (rewrite length_map; exact Hj).
      now rewrite map_nth.
    + exists r.(item). split; [|exact Hn].
      apply row_in_rendered. unfold quote_block. cbn [actual set_actual].
      now rewrite <- Hact.
Qed.

Lemma column_is_as_wide_as_its_widest_entry_witness :
  (forall it, In it (rendered_rows scenario_block) ->
              length (nth 1 it []) <= nth 1 [3; 3] 0)
  /\ exists it, In it (rendered_rows scenario_block)
                /\ length (nth 1 it []) = nth 1 [3; 3] 0.
Proof.
  apply (column_is_as_wide_as_its_widest_entry scenario_block [3; 3] 1).
  - reflexivity.
  - simpl. lia.
Defined.

(** ** Reading the rendering back *)

(** X18.  Parsing what was rendered gives the document back in its normal
    form: for a text that is parsed and rendered without error, and whose
    values without a quote at either end hold none inside, the rendering,
    with any indent, spacing and width, is parsed without warning to the
    document in which the templates and the values of the rows are quoted,
    the comment lines of the blocks that start with a blank are indented as
    they were written, and the lines between the blocks are stripped; names,
    values, comments and their order are the same. *)
Theorem parsing_the_rendering_gives_the_normal_form
    source_name text indent spacing width err source out source_name' :
  process_source source_name text = (err, inr source) ->
  snd (generate source indent spacing width) = (out, None) ->
  clean_document source = true ->
  process_source source_name' out = ([], inr (normal_document source)).
Proof.
  intros Hparse Hgen Hclean.
  pose proof (process_source_wf _ _ _ _ Hparse) as Hwf.
  destruct (generate source indent spacing width) as [source' w] eqn:Eg.
  cbn [snd] in Hgen. subst w.
  destruct (generate_text _ _ _ _ _ _ Eg) as (Eout & Hwidths).
  assert (Htok : plain (get_token source_name' out)
                 = (document_tokens source ++ [(Tokens.end_of_file, [])], false)).
  { rewrite plain_get_token, Eout.
    rewrite <- (app_nil_r (document_text source indent spacing width)).
    rewrite tok_text_document by assumption. reflexivity. }
  unfold plain in Htok. inversion Htok as [[Hts Htail]].
  destruct (snd (get_token source_name' out)) as [e|] eqn:Et; [discriminate|].
  unfold process_source, process_tokens. rewrite Et.
  apply (run_document_tokens source_name' source _ Hwf Hts).
Qed.

Lemma parsing_the_rendering_gives_the_normal_form_witness :
  exists source out,
    process_source "<stdin>" annotated_text = (fst (process_source "<stdin>" annotated_text), inr source)
    /\ snd (generate source 2 1 60) = (out, None)
    /\ process_source "<stdout>" out = ([], inr (normal_document source)).
Proof.
  eexists. eexists. split; [vm_compute; reflexivity|].
  split; [vm_compute; reflexivity|].
  eapply (parsing_the_rendering_gives_the_normal_form "<stdin>" annotated_text
            2 1 60).
  - vm_compute. reflexivity.
  - vm_compute. reflexivity.
  - vm_compute. reflexivity.
Defined.

(** ** Rows that fit *)

Lemma count_lines_app x y : count_lines (x ++ y) = count_lines x + count_lines y.
Proof. unfold count_lines. now rewrite filter_app, length_app. Qed.

Lemma count_lines_nolf x : nolf x = true -> count_lines x = 0.
Proof.
  unfold count_lines, nolf. induction x as [|a x IH]; [reflexivity|].
  cbn [forallb filter]. intros H. apply andb_true_iff in H as [Ha Hx].
  apply negb_true_iff in Ha. rewrite Ha. now apply IH.
Qed.

Lemma count_lines_nl : count_lines nl = 1.
Proof. reflexivity. Qed.

Lemma fold_total_le spacing : forall widths total,
  total <= fold_left (fun t w => t + (w + spacing + 1)) widths total.
Proof.
  induction widths as [|w ws IH]; intros total; cbn [fold_left]; [lia|].
  specialize (IH (total + (w + spacing + 1))). lia.
Qed.

Lemma newlines_from_fits spacing width : forall widths j total,
  fold_left (fun t w => t + (w + spacing + 1)) widths total <= width ->
  newlines_from j total widths spacing width = [].
Proof.
  induction widths as [|w ws IH]; intros j total H; cbn [newlines_from];
    [reflexivity|].
  cbn [fold_left] in H.
  pose proof (fold_total_le spacing ws (total + (w + spacing + 1))) as Hle.
  destruct (width <? total + (w + spacing + 1)) eqn:E.
  - apply Nat.ltb_lt in E. lia.
  - now apply IH.
Qed.

Lemma row_loop_nolf : forall it j number widths prefix spacing,
  Forall (fun v => nolb v = true) it ->
  nolf (fst (row_loop j number it widths prefix (spaces_of spacing) [])) = true.
Proof.
  induction it as [|name it IH]; intros j number widths prefix spacing H;
    cbn [row_loop]; [reflexivity|].
  inversion H as [|? ? Hn Hit]; subst.
  destruct (nth_error widths j) as [w|]; [|reflexivity].
  rewrite then_wrote. cbn [fst]. unfold row_element. cbn [mem existsb andb].
  rewrite !nolf_app, (nolb_nolf _ Hn), nolf_spaces, IH by exact Hit.
  destruct (j <? number - 1); [|reflexivity].
  change ("," ++ spaces_of spacing) with ([","%char] ++ spaces_of spacing).
  now rewrite nolf_app, nolf_spaces.
Qed.

Lemma wf_comment_nolf (c : option str) :
  wf_comment c -> match c with Some c => nolf c = true | None => True end.
Proof. destruct c as [c|]; [|auto]. intros (H & _). now apply nolb_nolf. Qed.

Lemma row_text_one_line it widths prefix spacing :
  Forall (fun v => nolb v = true) it.(item) -> wf_comment it.(comment) ->
  nolf prefix = true ->
  count_lines (row_text it widths prefix (spaces_of spacing) []) = 1.
Proof.
  intros Hit Hc Hp. unfold row_text.
  rewrite !count_lines_app, (count_lines_nolf _ Hp).
  rewrite (count_lines_nolf _ (row_loop_nolf _ _ _ _ _ _ Hit)).
  apply wf_comment_nolf in Hc.
  destruct it.(comment) as [c|]; rewrite ?count_lines_app;
    rewrite ?(count_lines_nolf _ Hc); reflexivity.
Qed.

Lemma reindent_nolf pad c :
  nolf pad = true -> nolb c = true -> nolf (reindent pad c) = true.
Proof.
  intros Hp Hc. unfold reindent. destruct (startswith c " ").
  - rewrite nolf_app, Hp. now apply nolb_nolf, nolb_lstrip.
  - now apply nolb_nolf.
Qed.

Lemma count_lines_flat_map {A : Type} (f : A -> str) l :
  (forall a, In a l -> count_lines (f a) = 1) ->
  count_lines (flat_map f l) = length l.
Proof.
  induction l as [|a l IH]; intros H; [reflexivity|].
  cbn [flat_map length]. rewrite count_lines_app, H by now left.
  rewrite IH; [reflexivity|]. intros b Hb. apply H. now right.
Qed.

Lemma prefix_nolf indent (p : str) :
  nolf p = true -> nolf (spaces_of indent ++ p) = true.
Proof. intros H. now rewrite nolf_app, nolf_spaces. Qed.

(** X19.  Rows that fit are not wrapped: when the total of the wrap-point
    loop, 10 and for every column its width, the spacing and 1, does not
    exceed [width], no break is marked, and a block of a parsed document is
    written with one line for its first line, one for each of its comment
    lines, one for the formal row, one for each row and each comment line
    between the rows, and one for the closing brace. *)
Theorem rows_that_fit_are_not_wrapped
    source_name text err source d indent spacing width widths :
  process_source source_name text = (err, inr source) ->
  In (Substitution d) source ->
  block_widths d = Some widths ->
  row_total widths spacing <= width ->
  newlines_of widths spacing width = []
  /\ exists out,
       snd (generate_substitution d indent spacing width) = (out, None)
       /\ count_lines out = 3 + length d.(comments) + length d.(actual).
Proof.
  intros Hparse Hin Hw Hfit.
  pose proof (wf_block_in _ _ (process_source_wf _ _ _ _ Hparse) Hin) as Hwf.
  assert (Hnl : newlines_of widths spacing width = [])
    by (apply newlines_from_fits; exact Hfit).
  split; [exact Hnl|].
  rewrite (generate_substitution_ok _ _ _ _ _ Hw). eexists.
  split; [reflexivity|].
  unfold block_text. cbv zeta. rewrite Hnl.
  pose proof Hwf as (Ht & Htc & Hcom & _ & Hnames & Hfc & Hact & Heos).
  assert (E1 : count_lines (quote_str d.(template).(item)) = 0).
  { apply count_lines_nolf, nolb_nolf, quote_str_nolb, wf_value_nolb.
    now apply wf_template_value. }
  assert (E3 : count_lines (flat_map (fun c => reindent "    " c ++ nl)
                                     d.(comments))
               = length d.(comments)).
  { apply count_lines_flat_map. intros c Hc.
    rewrite Forall_forall in Hcom. destruct (Hcom c Hc) as (Hlb & _).
    rewrite count_lines_app, count_lines_nolf; [reflexivity|].
    now apply reindent_nolf. }
  assert (E4 : count_lines (row_text d.(formal) widths
                              (spaces_of indent ++ "pattern")
                              (spaces_of spacing) []) = 1).
  { apply row_text_one_line; auto.
    - apply (rendered_rows_nolb d); [exact Hwf|now left].
    - now apply prefix_nolf. }
  assert (E5 : count_lines (flat_map (actual_text widths (spaces_of indent)
                                        (spaces_of spacing) [])
                                     (quote_block d).(actual))
               = length d.(actual)).
  { rewrite count_lines_flat_map.
    - unfold quote_block. cbn [actual set_actual]. apply length_map.
    - intros a Ha. destruct a as [c|r]; cbn [actual_text].
      + unfold quote_block in Ha. cbn [actual set_actual] in Ha.
        apply in_map_iff in Ha as ([c0|r0] & E & Ha0); [|discriminate].
        inversion E; subst c0.
        rewrite Forall_forall in Hact. destruct (Hact _ Ha0) as (Hlb & _).
        rewrite count_lines_app, count_lines_nolf; [reflexivity|].
        now apply reindent_nolf.
      + apply row_text_one_line.
        * apply (rendered_rows_nolb d); [exact Hwf|].
          now apply row_in_rendered.
        * unfold quote_block in Ha. cbn [actual set_actual] in Ha.
          apply in_map_iff in Ha as ([c0|r0] & E & Ha0); [discriminate|].
          inversion E; subst. cbn [comment].
          rewrite Forall_forall in Hact. now destruct (Hact _ Ha0) as (_ & _ & H).
        * now apply prefix_nolf. }
  apply wf_comment_nolf in Htc, Heos.
  destruct d.(template).(comment) as [tc|], d.(eos_comment) as [ec|];
    rewrite !count_lines_app, E1, E3, E4, E5, count_lines_nl;
    rewrite ?(count_lines_nolf _ Htc), ?(count_lines_nolf _ Heos);
    rewrite !(count_lines_nolf (list_ascii_of_string _)) by reflexivity;
    lia.
Qed.

Lemma rows_that_fit_are_not_wrapped_witness :
  newlines_of [3; 3] 2 120 = []
  /\ exists out,
       snd (generate_substitution scenario_block 4 2 120) = (out, None)
       /\ count_lines out
          = 3 + length scenario_block.(comments)
            + length scenario_block.(actual).
Proof.
  apply (rows_that_fit_are_not_wrapped "<stdin>" scenario_text []
           [Substitution scenario_block] scenario_block 4 2 120 [3; 3]).
  - vm_compute. reflexivity.
  - now left.
  - reflexivity.
  - vm_compute. lia.
Defined.

(** * The files *)

Lemma str_eqb_refl a : str_eqb a a = true.
Proof. unfold str_eqb. now destruct (list_eq_dec ascii_dec a a). Qed.

Lemma str_eqb_eq a b : str_eqb a b = true <-> a = b.
Proof.
  unfold str_eqb. destruct (list_eq_dec ascii_dec a b); split; auto.
  discriminate.
Qed.

Lemma str_eqb_neq a b : a <> b -> str_eqb a b = false.
Proof.
  intros H. destruct (str_eqb a b) eqn:E; [|reflexivity].
  apply str_eqb_eq in E. contradiction.
Qed.



(** [process_file] writes no file but the one it is called for. *)
Lemma process_file_other filename fs indent spacing width p :
  p <> filename ->
  snd (fst (process_file filename fs indent spacing width)) p = fs p.
Proof.
  intros Hp. unfold process_file.
  destruct (fs filename) as [text|]; [|reflexivity].
  destruct (process_source filename text) as [err [e|doc]]; [reflexivity|].
  cbn [fst snd]. unfold write. now rewrite (str_eqb_neq _ _ Hp).
Qed.

(** X20.  [process_file] reads and parses before it opens the file for
    writing: when the file is not there, or [process_source] raises an
    exception, no file is changed; the only exception after which files
    differ is the [ValueError] of [generate]. *)
Theorem process_file_reads_before_it_writes
    filename fs indent spacing width err fs' e :
  process_file filename fs indent spacing width = (err, fs', Some e) ->
  (forall row n number, e <> Lib (ValueError row n number)) ->
  fs' = fs.
Proof.
  unfold process_file.
  destruct (fs filename) as [text|]; [|intros H; now inversion H].
  destruct (process_source filename text) as [err0 [e0|doc]];
    [intros H; now inversion H|].
  destruct (generate doc indent spacing width) as [doc' [out [e1|]]] eqn:Eg;
    cbn [fst snd option_map]; [|discriminate].
  intros H Hne. inversion H; subst.
  destruct (generate_raises _ _ _ _ _ _ _ Eg)
    as (pre & d & post & row & c & _ & _ & _ & _ & ->).
  now contradiction (Hne row (length row) (length d.(formal).(item))).
Qed.

Lemma process_file_reads_before_it_writes_witness :
  exists err fs' e,
    process_file "a" (fun p => if str_eqb p "a" then Some open_quote_text
                               else None) 4 2 120
    = (err, fs', Some e)
    /\ fs' = (fun p => if str_eqb p "a" then Some open_quote_text else None).
Proof.
  do 3 eexists. split; [vm_compute; reflexivity|].
  eapply (process_file_reads_before_it_writes "a" _ 4 2 120).
  - vm_compute. reflexivity.
  - discriminate.
Defined.

(** X21.  When [generate] raises its [ValueError] in [process_file], the
    file has been opened for writing already: it is left with the text of
    the items before the block that failed, which is empty when that block
    is the first item, and the other files are as they were. *)
Theorem process_file_keeps_what_was_written
    filename fs indent spacing width err fs' row n number :
  process_file filename fs indent spacing width
  = (err, fs', Some (Lib (ValueError row n number))) ->
  exists text pre d post out,
    fs filename = Some text
    /\ process_source filename text
       = (err, inr (pre ++ Substitution d :: post))
    /\ snd (generate pre indent spacing width) = (out, None)
    /\ fs' filename = Some out
    /\ forall p, p <> filename -> fs' p = fs p.
Proof.
  intros H.
  assert (Hother : forall p, p <> filename -> fs' p = fs p).
  { intros p Hp.
    pose proof (process_file_other filename fs indent spacing width p Hp) as Ho.
    now rewrite H in Ho. }
  revert H. unfold process_file.
  destruct (fs filename) as [text|]; [|discriminate].
  destruct (process_source filename text) as [err0 [e0|doc]] eqn:Ep.
  - intros H. inversion H; subst.
    now contradiction (process_source_no_ValueError _ _ _ _ _ _ Ep).
  - destruct (generate doc indent spacing width) as [doc' [out [e1|]]] eqn:Eg;
      cbn [fst snd option_map]; [|discriminate].
    intros H. inversion H; subst.
    destruct (generate_raises _ _ _ _ _ _ _ Eg)
      as (pre & d & post & row0 & c & -> & Hpre & _).
    exists text, pre, d, post, out. repeat split; auto.
    unfold write. now rewrite str_eqb_refl.
Qed.

Lemma process_file_keeps_what_was_written_witness :
  exists text pre d post out,
    three_files "a" = Some text
    /\ process_source "a" text = ([], inr (pre ++ Substitution d :: post))
    /\ snd (generate pre 4 2 120) = (out, None)
    /\ snd (fst (process_file "a" three_files 4 2 120)) "a" = Some out
    /\ forall p, p <> ("a" : str) ->
                 snd (fst (process_file "a" three_files 4 2 120)) p
                 = three_files p.
Proof.
  eapply (process_file_keeps_what_was_written "a" three_files 4 2 120 []
            _ ["1" : str] 1 2).
  rewrite (surjective_pairing (process_file "a" three_files 4 2 120)) at 1.
  rewrite (surjective_pairing (fst (process_file "a" three_files 4 2 120))) at 1.
  vm_compute. reflexivity.
Defined.

(** ** The backups *)













(** ** The status *)

Lemma handled_status PE out err fs e :
  match status (handled PE out err fs e) with
  | inl st => st = 2
              /\ errors (handled PE out err fs e) = err ++ [Traceback e]
  | inr e' => e' = e /\ is_Exception PE e = false
              /\ errors (handled PE out err fs e) = err
  end
  /\ stdout (handled PE out err fs e) = out.
Proof. unfold handled. destruct (is_Exception PE e); cbn; auto. Qed.

Lemma existsb_warned err : existsb is_traceback (map Warned err) = false.
Proof. induction err; auto. Qed.

(** What one call of [process_argument] leaves on the two streams. *)
Lemma process_argument_streams PE RR filename fs indent spacing width :
  let a := process_argument PE RR filename fs indent spacing width in
  stdout a = filename ++ nl
  /\ match status a with
     | inl st => (st = 0 /\ existsb is_traceback (errors a) = false)
                 \/ (st = 2 /\ existsb is_traceback (errors a) = true)
     | inr e => is_Exception PE e = false
     end.
Proof.
  cbv zeta. unfold process_argument.
  destruct (rotate RR fs filename filename) as [text|].
  - destruct (process_file _ _ _ _ _) as [[err fs3] [e|]].
    + destruct (handled_status PE (filename ++ nl) (map Warned err) fs3 e)
        as [Hs Ho].
      split; [exact Ho|].
      destruct (status (handled PE _ _ _ _)) as [st|e'].
      * right. destruct Hs as [-> ->]. split; [reflexivity|].
        rewrite existsb_app. cbn. apply orb_true_r.
      * now destruct Hs as (-> & H & _).
    + cbn. split; [reflexivity|]. left. split; [reflexivity|].
      apply existsb_warned.
  - destruct (handled_status PE (filename ++ nl) [] (rotate RR fs filename)
                (FileNotFoundError filename)) as [Hs Ho].
    split; [exact Ho|].
    destruct (status (handled PE _ _ _ _)) as [st|e'].
    + right. destruct Hs as [-> ->]. now split.
    + now destruct Hs as (-> & H & _).
Qed.

Lemma arguments_streams PE RR : forall filenames r indent spacing width st,
  status r = inl st ->
  ((st = 0 /\ existsb is_traceback (errors r) = false)
   \/ (st = 2 /\ existsb is_traceback (errors r) = true)) ->
  let r' := arguments PE RR filenames r indent spacing width in
  match status r' with
  | inl st' =>
      ((st' = 0 /\ existsb is_traceback (errors r') = false)
       \/ (st' = 2 /\ existsb is_traceback (errors r') = true))
      /\ stdout r' = stdout r ++ flat_map (fun f => f ++ nl) filenames
  | inr e => is_Exception PE e = false
  end.
Proof.
  induction filenames as [|f rest IH]; intros r indent spacing width st Hst Hr;
    cbv zeta; cbn [arguments].
  - destruct (status r); [|discriminate]. inversion Hst; subst.
    split; [exact Hr|]. cbn. now rewrite app_nil_r.
  - rewrite Hst.
    destruct (process_argument_streams PE RR f (disk r) indent spacing width)
      as [Ho Ha].
    remember (process_argument PE RR f (disk r) indent spacing width) as a.
    destruct (status a) as [s|e] eqn:Es.
    + match goal with
      | |- context [arguments PE RR rest ?r1] =>
          specialize (IH r1 indent spacing width (Nat.max st s) eq_refl)
      end.
      cbv zeta in IH. cbn [errors stdout] in IH.
      assert (Hinv : (Nat.max st s = 0
                      /\ existsb is_traceback (errors r ++ errors a) = false)
                     \/ (Nat.max st s = 2
                         /\ existsb is_traceback (errors r ++ errors a) = true)).
      { rewrite existsb_app.
        destruct Hr as [[-> Hr]|[-> Hr]], Ha as [[-> Ha]|[-> Ha]];
          rewrite Hr, Ha; cbn; auto. }
      specialize (IH Hinv).
      destruct (status (arguments PE RR rest _ _ _ _)); [|exact IH].
      destruct IH as [IH1 IH2]. split; [exact IH1|].
      rewrite IH2, Ho. cbn [flat_map]. now rewrite <- !app_assoc.
    + destruct rest; cbn [arguments status]; exact Ha.
Qed.

(** X23.  The status that [main] returns is 0 or 2, and it is 2 exactly
    when a traceback was printed, for one file or for more; with file
    names, every file is processed, whatever became of the files before it:
    the standard output holds the line of the version, the name of every
    file in its line and the line complete.  The call returns a status
    unless it meets a [ParseError] that is no [Exception]. *)
Theorem main_status PE version major minor micro RR
    filenames stdin fs indent spacing width :
  let r := main PE version major minor micro RR filenames stdin fs
             indent spacing width in
  match status r with
  | inl st =>
      ((st = 0 /\ existsb is_traceback (errors r) = false)
       \/ (st = 2 /\ existsb is_traceback (errors r) = true))
      /\ (filenames <> [] ->
          stdout r = print_version version major minor micro
                     ++ flat_map (fun f => f ++ nl) filenames
                     ++ "complete" ++ nl)
  | inr e => PE = false /\ exists msg, e = Lib (ParseError msg)
  end.
Proof.
  cbv zeta.
  assert (Hexc : forall e, is_Exception PE e = false ->
                           PE = false /\ exists msg, e = Lib (ParseError msg)).
  { intros [[msg| | | |]|p]; cbn; try discriminate. eauto. }
  unfold main. destruct filenames as [|f rest].
  - destruct (process "<stdin>" stdin indent spacing width)
      as [err [out [e|]]].
    + destruct (handled_status PE out (map Warned err) fs (Lib e)) as [Hs _].
      destruct (status (handled PE _ _ _ _)) as [st|e'].
      * destruct Hs as [-> ->]. split; [|congruence]. right.
        split; [reflexivity|]. rewrite existsb_app. cbn. apply orb_true_r.
      * destruct Hs as (-> & H & _). now apply Hexc.
    + cbn. split; [|congruence]. left. split; [reflexivity|].
      apply existsb_warned.
  - pose proof (arguments_streams PE RR (f :: rest)
                  (Reply (print_version version major minor micro) [] fs
                     (inl 0)) indent spacing width 0 eq_refl
                  (or_introl (conj eq_refl eq_refl))) as H.
    cbv zeta in H.
    set (r0 := arguments PE RR (f :: rest) _ indent spacing width) in *.
    destruct (status r0) as [st|e] eqn:Es; cbn [status errors stdout].
    + destruct H as [H1 H2].
      split; [exact H1|]. intros _. rewrite H2. cbn [stdout].
      now rewrite <- !app_assoc.
    + rewrite ?Es. now apply Hexc.
Qed.
